(** * Forester VS Code extension: forest query cache and transclusion graph

    A shallow embedding of the cache in [get-forest.ts], of the taxon helpers
    in [utils.ts], of the tree view in [forestStructureView.ts] and of the
    rename command in [edit-forest.ts], with the properties of the
    specification stated over it, followed by further properties of the code.

    Conventions of the embedding.
    - Text is taken in Latin-1: a JavaScript string whose code units are all
      below 256 is the [string] of these code units. On such text
      [toLowerCase] maps code unit by code unit (A-Z and U+00C0 to U+00DE
      without U+00D7) and [trim], [trimStart] strip U+0009 to U+000D, the
      space and U+00A0, which is what [Js.toLowerCase] and [Js.isSpace] do.
      Text with a code unit from 256 on is outside the embedding.
    - A [Set<string>] is a duplicate-free list in insertion order, a
      [Map<string, _>] an association list in insertion order: the source
      iterates over both, so the order is part of the behaviour.
    - An [async] function runs up to its next [await]; the cache is a state
      machine whose events are the calls entering it and the completions of
      the external work it waits for.
    - [GetForest.queryForest] begins with the launch of the process, which
      can throw; the fetches of the state machine are those that got as far
      as spawning their process.
    - A lookup [obj[key]] on an object literal sees the properties inherited
      from [Object.prototype]; [-1] as the answer of [indexOf] is [None]. *)

From Stdlib Require Import List String Ascii Bool Arith PeanoNat Lia.
From Stdlib Require Import DecimalString.
Import ListNotations.
Local Open Scope string_scope.
Local Open Scope list_scope.

(** ** JavaScript string and collection primitives used by the source *)
Module Js.

(** the lower-case mapping of a code unit below 256: A-Z, and the capital
    letters of Latin-1, U+00C0 to U+00DE without the sign U+00D7 *)
Definition lowerChar (c : ascii) : ascii :=
  let n := nat_of_ascii c in
  if (Nat.leb 65 n && Nat.leb n 90)
     || (Nat.leb 192 n && Nat.leb n 222 && negb (Nat.eqb n 215))
  then ascii_of_nat (n + 32) else c.

Fixpoint toLowerCase (s : string) : string :=
  match s with
  | EmptyString => EmptyString
  | String c r => String (lowerChar c) (toLowerCase r)
  end.

(** [s.startsWith(p)] *)
Fixpoint startsWith (p s : string) : bool :=
  match p, s with
  | EmptyString, _ => true
  | String _ _, EmptyString => false
  | String a p', String b s' => Ascii.eqb a b && startsWith p' s'
  end.

(** [s.includes(p)] *)
Fixpoint includes (p s : string) : bool :=
  startsWith p s ||
  match s with
  | EmptyString => false
  | String _ s' => includes p s'
  end.

(** the white space and line terminators of ECMAScript below 256: U+0009 to
    U+000D, the space and the no-break space U+00A0 *)
Definition isSpace (c : ascii) : bool :=
  let n := nat_of_ascii c in
  Nat.eqb n 32 || (Nat.leb 9 n && Nat.leb n 13) || Nat.eqb n 160.

Fixpoint trimStart (s : string) : string :=
  match s with
  | EmptyString => EmptyString
  | String c r => if isSpace c then trimStart r else s
  end.

Definition newline : ascii := ascii_of_nat 10.

(** [s.split('\n')], with the line being read in [cur] *)
Fixpoint splitLines (cur : string) (s : string) : list string :=
  match s with
  | EmptyString => [cur]
  | String c r =>
      if Ascii.eqb c newline then cur :: splitLines EmptyString r
      else splitLines (cur ++ String c EmptyString) r
  end.

Definition split_newline (s : string) : list string := splitLines EmptyString s.

(** a value is truthy: for a [string | null | undefined], it is a non-empty string *)
Definition truthy (o : option string) : bool :=
  match o with
  | Some s => negb (String.eqb s "")
  | None => false
  end.

(** [Array.prototype.includes] / [Set.prototype.has] over strings *)
Definition has (x : string) (l : list string) : bool :=
  existsb (String.eqb x) l.

(** [Set.prototype.add]: insertion order, no duplicate *)
Definition add (x : string) (l : list string) : list string :=
  if has x l then l else l ++ [x].

(** [Set.prototype.delete] *)
Definition delete (x : string) (l : list string) : list string :=
  filter (fun y => negb (String.eqb y x)) l.

(** [Map.prototype.get] *)
Fixpoint get {A} (m : list (string * A)) (k : string) : option A :=
  match m with
  | [] => None
  | (k', v) :: r => if String.eqb k' k then Some v else get r k
  end.

(** [Map.prototype.set]: an existing key keeps its position *)
Fixpoint set {A} (m : list (string * A)) (k : string) (v : A) : list (string * A) :=
  match m with
  | [] => [(k, v)]
  | (k', v') :: r => if String.eqb k' k then (k', v) :: r else (k', v') :: set r k v
  end.

Definition keys {A} (m : list (string * A)) : list string := map fst m.

(** a template literal's rendering of a number *)
Definition showNat (n : nat) : string := NilEmpty.string_of_uint (Nat.to_uint n).

(** [lines.join('\n')] *)
Fixpoint join_newline (lines : list string) : string :=
  match lines with
  | [] => EmptyString
  | [l] => l
  | l :: rest => (l ++ String newline (join_newline rest))%string
  end.

(** [s.indexOf(c)] for a single character; [None] is the [-1] of the source *)
Fixpoint indexOf (c : ascii) (s : string) : option nat :=
  match s with
  | EmptyString => None
  | String a r =>
      if Ascii.eqb a c then Some 0
      else match indexOf c r with
           | Some i => Some (S i)
           | None => None
           end
  end.

(** [s.substring(n)] *)
Fixpoint substringFrom (n : nat) (s : string) : string :=
  match n, s with
  | 0, _ => s
  | S _, EmptyString => EmptyString
  | S k, String _ r => substringFrom k r
  end.

Fixpoint trimEnd (s : string) : string :=
  match s with
  | EmptyString => EmptyString
  | String c r =>
      match trimEnd r with
      | EmptyString => if isSpace c then EmptyString else String c EmptyString
      | r' => String c r'
      end
  end.

(** [s.trim()] *)
Definition trim (s : string) : string := trimEnd (trimStart s).

(** [s.lastIndexOf(c)] for a single character *)
Fixpoint lastIndexOf (c : ascii) (s : string) : option nat :=
  match s with
  | EmptyString => None
  | String a r =>
      match lastIndexOf c r with
      | Some i => Some (S i)
      | None => if Ascii.eqb a c then Some 0 else None
      end
  end.

End Js.

(** an evaluation either completes or throws; both carry the state reached *)
Inductive Completion (A : Type) : Type :=
| Normal (a : A)
| Throw (a : A) (message : string).
Arguments Normal {A} a.
Arguments Throw {A} a message.

(** ** get-forest.ts: data model *)
Module GetForest.

(** [ForesterTree]; [uri] is [None] when the property is missing, which the
    source checks for although the interface declares it a string *)
Record ForesterTree := mkTree {
  title : option string;
  taxon : option string;
  tags : list string;
  route : string;
  metas : list (string * string);
  sourcePath : string;
  uri : option string
}.

Definition Forest := list ForesterTree.

(** [Omit<ForesterTree, 'uri'>], an entry of the old query format *)
Record TreeBody := mkBody {
  b_title : option string;
  b_taxon : option string;
  b_tags : list string;
  b_route : string;
  b_metas : list (string * string);
  b_sourcePath : string
}.

(** [{ uri: id, ...entry }] *)
Definition withUri (id : string) (e : TreeBody) : ForesterTree :=
  mkTree (b_title e) (b_taxon e) (b_tags e) (b_route e) (b_metas e)
         (b_sourcePath e) (Some id).

(** [forestStatus]: [{ valid?, updating?, error? }] *)
Record Status := mkStatus {
  valid : option bool;
  updating : option bool;
  error : option string
}.

Definition statusValid : Status := mkStatus (Some true) None None.
Definition statusUpdating : Status := mkStatus None (Some true) None.
Definition statusInvalid (msg : string) : Status := mkStatus (Some false) None (Some msg).

(** *** queryForest: one fetch *)

(** what [JSON.parse(stdout)] gave when the process closed normally: the new
    format, the old format keyed by id, or [null], on which [Object.entries]
    throws; the declared type has only the first two, other scalars are left out *)
Inductive QueryData : Type :=
| QArray (forest : Forest)
| QObject (entries : list (string * TreeBody))
| QNull.

(** the event that settles the promise [queryForest] awaits: the 30 s timer,
    the process's [error], or its [close] with the exit code, the signal and
    the parse of its output ([None]: [JSON.parse] throws) *)
Inductive AdapterEvent : Type :=
| TimedOut
| ProcessError (message : string)
| Closed (code : option nat) (signal : option string) (parsed : option QueryData).

Record AdapterRun := mkRun {
  event : AdapterEvent;
  stdout : string;
  stderr : string
}.

Definition showCode (code : option nat) : string :=
  match code with
  | Some n => Js.showNat n
  | None => "null"
  end.

Definition showSignal (signal : option string) : string :=
  match signal with
  | Some s => s
  | None => "null"
  end.

Definition isZero (code : option nat) : bool :=
  match code with
  | Some 0 => true
  | _ => false
  end.

(** [[success, dataOrErrorMessage]] *)
Definition resolution (run : AdapterRun) : QueryData + string :=
  match event run with
  | TimedOut => inr "Forester timed out after 30s"
  | ProcessError message => inr message
  | Closed code signal parsed =>
      match signal with
      | Some _ =>
          inr ("Forester: process exited with code " ++ showCode code
               ++ " and signal " ++ showSignal signal ++ ".")%string
      | None =>
          if isZero code then
            match parsed with
            | Some result => inl result
            | None =>
                inr ("Forester didn't return a valid JSON response:"
                     ++ String Js.newline (stdout run))%string
            end
          else
            inr ("Forester: process exited with code " ++ showCode code
                 ++ " and signal " ++ showSignal signal ++ ".")%string
      end
  end.

Definition blankLine : string := String Js.newline (String Js.newline EmptyString).

Definition errorMessageOf (run : AdapterRun) (message : string) : string :=
  (message
   ++ (if Js.truthy (Some (stdout run)) then blankLine ++ stdout run else "")
   ++ (if Js.truthy (Some (stderr run)) then blankLine ++ stderr run else ""))%string.

(** what reading [output/forest.json] gave, once the file is known to exist *)
Inductive ArtifactData : Type :=
| NotAnArray
| AnArray (data : list ForesterTree).

Inductive ArtifactRead : Type :=
| ReadFails
| ParseFails
| ParsedTo (data : ArtifactData).

(** the validation loop: [typeof tree.uri !== "string"] *)
Definition uriIsString (tree : ForesterTree) : bool :=
  match uri tree with
  | Some _ => true
  | None => false
  end.

(** [getForestFromBuild] after [existsSync] answered yes *)
Definition readBuild (read : ArtifactRead) : option Forest :=
  match read with
  | ReadFails => None
  | ParseFails => None
  | ParsedTo NotAnArray => None
  | ParsedTo (AnArray data) => if forallb uriIsString data then Some data else None
  end.

(** [getForestFromBuild]; [None] for the artifact: [existsSync] answered no *)
Definition getForestFromBuild (artifact : option ArtifactRead) : option Forest :=
  match artifact with
  | Some read => readBuild read
  | None => None
  end.

Inductive Outcome : Type :=
| Returns (forest : Forest)
| Throws.

(** how [queryForest] goes on when the awaited promise settles *)
Inductive Progress : Type :=
| Done (o : Outcome)
| ReadArtifact.

Definition afterAdapter (lastGood : option Forest) (run : AdapterRun)
  (artifactExists : bool) : Status * Progress :=
  match resolution run with
  | inl (QArray forest) => (statusValid, Done (Returns forest))
  | inl (QObject entries) =>
      (statusValid, Done (Returns (map (fun ie => withUri (fst ie) (snd ie)) entries)))
  | inl QNull => (statusValid, Done Throws)
  | inr message =>
      (statusInvalid (errorMessageOf run message),
       match lastGood with
       | Some forest => Done (Returns forest)
       | None => if artifactExists then ReadArtifact else Done (Returns [])
       end)
  end.

Definition afterArtifact (read : ArtifactRead) : Forest :=
  match readBuild read with
  | Some buildData => buildData
  | None => []
  end.

Definition isSome {A} (o : option A) : bool :=
  match o with
  | Some _ => true
  | None => false
  end.

(** [getRoot()] of [utils.ts]: the first workspace folder; [None] stands for
    the [FileSystemError] it throws when no folder is open *)
Definition getRoot (workspaceFolders : list string) : option string :=
  match workspaceFolders with
  | root :: _ => Some root
  | [] => None
  end.

(** [queryForest] from [updateStatusBar({ updating: true })] to its end, with
    [mostRecentQueryResult] as it is when the adapter's promise settles *)
Definition awaitAdapter (lastGood : option Forest) (run : AdapterRun)
  (artifact : option ArtifactRead) : Status * Outcome :=
  match afterAdapter lastGood run (isSome artifact) with
  | (status, Done o) => (status, o)
  | (status, ReadArtifact) =>
      (status, Returns (match artifact with
                        | Some read => afterArtifact read
                        | None => []
                        end))
  end.

(** [queryForest]. Before its [await] it calls [getRoot()], spawns the
    process and attaches the listeners to its streams, outside any [try]:
    what throws there rejects the promise and leaves the status [status] as
    it was. [spawned] is the run of the process, [None] when
    [child_process.spawn] or attaching the listeners throws. *)
Definition queryForest (workspaceFolders : list string) (status : Status)
  (spawned : option AdapterRun) (lastGood : option Forest)
  (artifact : option ArtifactRead) : Status * Outcome :=
  match getRoot workspaceFolders with
  | None => (status, Throws)
  | Some _ =>
      match spawned with
      | None => (status, Throws)
      | Some run => awaitAdapter lastGood run artifact
      end
  end.

(** *** the cache as a state machine *)

Definition Caller := nat.

(** the promise of one [queryForest] call *)
Inductive Phase : Type :=
| AwaitingAdapter
| AwaitingArtifact
| Resolved (forest : Forest)
| Rejected.

(** an [async] function suspended on a fetch's promise: [getForest] at
    [await queryInProgressPromise] after it started the fetch, [getForest]
    that returned [queryInProgressPromise], and [forestUpdatedOnDisk] at its
    [await] *)
Inductive Continuation : Type :=
| GetForestOwner (c : Caller)
| GetForestJoined (c : Caller)
| ForestUpdatedOnDisk (c : Caller).

Inductive Settled : Type :=
| Fulfilled (forest : Forest)
| Failed.

(** the module's variables; [fetches] holds the promise of every
    [queryForest] call made so far, [waiting] the suspended functions in the
    order they registered, [settled] what each call resolved to; a subscriber
    is recorded by the caller id under which its callback calls [getForest()],
    which is what the subscribers of the repository do on a change *)
Record Cache := mkCache {
  queryInProgressPromise : option nat;
  mostRecentQueryResult : option Forest;
  isInitialLoad : bool;
  forestStatus : Status;
  forestChangeCallbacks : list Caller;
  fetches : list Phase;
  waiting : list (nat * Continuation);
  settled : list (Caller * Settled)
}.

Definition initialCache : Cache :=
  mkCache None None true (mkStatus None None None) [] [] [] [].

Definition settle (s : Cache) (c : Caller) (o : Settled) : Cache :=
  mkCache (queryInProgressPromise s) (mostRecentQueryResult s) (isInitialLoad s)
          (forestStatus s) (forestChangeCallbacks s) (fetches s) (waiting s)
          (settled s ++ [(c, o)]).

Definition suspend (s : Cache) (p : nat) (k : Continuation) : Cache :=
  mkCache (queryInProgressPromise s) (mostRecentQueryResult s) (isInitialLoad s)
          (forestStatus s) (forestChangeCallbacks s) (fetches s)
          (waiting s ++ [(p, k)]) (settled s).

(** a function awaits, or returns, the promise [p] *)
Definition await (s : Cache) (p : nat) (c : Caller) (k : Continuation) : Cache :=
  match nth_error (fetches s) p with
  | Some (Resolved forest) => settle s c (Fulfilled forest)
  | Some Rejected => settle s c Failed
  | Some _ => suspend s p k
  | None => s
  end.

(** [queryInProgressPromise = queryForest()] for a call that gets as far as
    its [await]: the process is spawned, the status reads updating, and the
    caller waits for the new promise *)
Definition startFetch (s : Cache) (c : Caller) : Cache :=
  let p := List.length (fetches s) in
  mkCache (Some p) (mostRecentQueryResult s) (isInitialLoad s) statusUpdating
          (forestChangeCallbacks s) (fetches s ++ [AwaitingAdapter])
          (waiting s ++ [(p, GetForestOwner c)]) (settled s).

Definition orEmpty (o : option Forest) : Forest :=
  match o with
  | Some forest => forest
  | None => []
  end.

(** [getForest] up to its first suspension or to its return *)
Definition getForest (s : Cache) (c : Caller) (forceReload fastReturnStale : bool)
  : Cache :=
  if (negb (isSome (queryInProgressPromise s)) || fastReturnStale)
     && isSome (mostRecentQueryResult s) && negb forceReload
  then settle s c (Fulfilled (orEmpty (mostRecentQueryResult s)))
  else if isSome (queryInProgressPromise s) && negb forceReload
  then match queryInProgressPromise s with
       | Some p => await s p c (GetForestJoined c)
       | None => s
       end
  else startFetch s c.

Definition setResult (s : Cache) (result : Forest) : Cache :=
  mkCache (queryInProgressPromise s) (Some result) (isInitialLoad s)
          (forestStatus s) (forestChangeCallbacks s) (fetches s) (waiting s)
          (settled s).

Definition clearInProgress (s : Cache) : Cache :=
  mkCache None (mostRecentQueryResult s) false (forestStatus s)
          (forestChangeCallbacks s) (fetches s) (waiting s) (settled s).

(** a suspended function goes on with what its promise settled to *)
Definition resume (o : Settled) (s : Cache) (k : Continuation) : Cache :=
  match k, o with
  | GetForestOwner c, Fulfilled result =>
      let s1 := setResult s result in
      let s2 := fold_left (fun acc cb => getForest acc cb false false)
                          (forestChangeCallbacks s1) s1 in
      let s3 := clearInProgress s2 in
      settle s3 c (Fulfilled (orEmpty (mostRecentQueryResult s3)))
  | GetForestOwner c, Failed => settle s c Failed
  | GetForestJoined c, _ => settle s c o
  | ForestUpdatedOnDisk c, Fulfilled _ => getForest s c true false
  | ForestUpdatedOnDisk c, Failed => settle s c Failed
  end.

Fixpoint setPhase (fs : list Phase) (p : nat) (ph : Phase) : list Phase :=
  match fs, p with
  | [], _ => []
  | _ :: r, 0 => ph :: r
  | x :: r, S p' => x :: setPhase r p' ph
  end.

Definition withFetches (s : Cache) (fs : list Phase) (status : Status)
  (w : list (nat * Continuation)) : Cache :=
  mkCache (queryInProgressPromise s) (mostRecentQueryResult s) (isInitialLoad s)
          status (forestChangeCallbacks s) fs w (settled s).

Definition phaseOfOutcome (o : Outcome) : Phase :=
  match o with
  | Returns forest => Resolved forest
  | Throws => Rejected
  end.

Definition settledOf (o : Outcome) : Settled :=
  match o with
  | Returns forest => Fulfilled forest
  | Throws => Failed
  end.

(** the promise [p] settles: its reactions run in the order they registered,
    each to its next suspension *)
Definition settlePromise (s : Cache) (p : nat) (status : Status) (o : Outcome) : Cache :=
  let mine := filter (fun w => Nat.eqb (fst w) p) (waiting s) in
  let others := filter (fun w => negb (Nat.eqb (fst w) p)) (waiting s) in
  fold_left (resume (settledOf o)) (map snd mine)
            (withFetches s (setPhase (fetches s) p (phaseOfOutcome o)) status others).

(** [forestUpdatedOnDisk] up to its first suspension *)
Definition forestUpdatedOnDisk (s : Cache) (c : Caller) : Cache :=
  match queryInProgressPromise s with
  | Some p =>
      match nth_error (fetches s) p with
      | Some (Resolved _) => getForest s c true false
      | Some Rejected => settle s c Failed
      | Some _ => suspend s p (ForestUpdatedOnDisk c)
      | None => s
      end
  | None => getForest s c true false
  end.

(** [onForestChange(callback)] *)
Definition onForestChange (s : Cache) (c : Caller) : Cache :=
  let callbacks :=
    if existsb (Nat.eqb c) (forestChangeCallbacks s)
    then forestChangeCallbacks s else forestChangeCallbacks s ++ [c] in
  let s1 := mkCache (queryInProgressPromise s) (mostRecentQueryResult s)
                    (isInitialLoad s) (forestStatus s) callbacks (fetches s)
                    (waiting s) (settled s) in
  if isSome (mostRecentQueryResult s1) then getForest s1 c false false else s1.

(** what can happen to the cache: a call enters it, or the external work of
    the fetch [p] completes (the adapter, with whether [output/forest.json]
    exists at that moment; then the read of that file) *)
Inductive Event : Type :=
| CallGetForest (c : Caller) (forceReload fastReturnStale : bool)
| CallForestUpdatedOnDisk (c : Caller)
| CallOnForestChange (c : Caller)
| AdapterDone (p : nat) (run : AdapterRun) (artifactExists : bool)
| ArtifactDone (p : nat) (read : ArtifactRead).

Definition step (s : Cache) (e : Event) : Cache :=
  match e with
  | CallGetForest c forceReload fastReturnStale => getForest s c forceReload fastReturnStale
  | CallForestUpdatedOnDisk c => forestUpdatedOnDisk s c
  | CallOnForestChange c => onForestChange s c
  | AdapterDone p run artifactExists =>
      match nth_error (fetches s) p with
      | Some AwaitingAdapter =>
          match afterAdapter (mostRecentQueryResult s) run artifactExists with
          | (status, Done o) => settlePromise s p status o
          | (status, ReadArtifact) =>
              withFetches s (setPhase (fetches s) p AwaitingArtifact) status (waiting s)
          end
      | _ => s
      end
  | ArtifactDone p read =>
      match nth_error (fetches s) p with
      | Some AwaitingArtifact =>
          settlePromise s p (forestStatus s) (Returns (afterArtifact read))
      | _ => s
      end
  end.

Definition run (s : Cache) (events : list Event) : Cache := fold_left step events s.

Definition pending (ph : Phase) : bool :=
  match ph with
  | AwaitingAdapter | AwaitingArtifact => true
  | _ => false
  end.

(** the fetches in flight, and the [queryForest] calls made *)
Definition inFlight (s : Cache) : nat := List.length (filter pending (fetches s)).

Definition invocations (s : Cache) : nat := List.length (fetches s).

(** *** getTree *)

(** [forest.find((entry) => entry.uri === treeId)] *)
Definition findTree (forest : Forest) (treeId : string) : option ForesterTree :=
  find (fun entry => match uri entry with
                     | Some u => String.eqb u treeId
                     | None => false
                     end) forest.

(** [getTree] up to its [await]: the tree found in the most recent result,
    or a call of [getForest()] whose forest [getTreeResume] searches *)
Inductive TreeLookup : Type :=
| FoundInCache (tree : ForesterTree)
| AwaitGetForest.

Definition getTree (s : Cache) (treeId : string) : TreeLookup :=
  match mostRecentQueryResult s with
  | Some forest =>
      match findTree forest treeId with
      | Some tree => FoundInCache tree
      | None => AwaitGetForest
      end
  | None => AwaitGetForest
  end.

Definition getTreeResume (forest : Forest) (treeId : string) : option ForesterTree :=
  findTree forest treeId.

End GetForest.

(** ** utils.ts: taxon abbreviations *)
Module Utils.

Definition TAXON_MAP : list (string * string) :=
  [ ("theorem", "thm"); ("definition", "def"); ("proposition", "prop");
    ("lemma", "lem"); ("corollary", "cor"); ("example", "ex");
    ("remark", "rem"); ("proof", "pf"); ("section", "sec");
    ("chapter", "ch"); ("note", "note"); ("conjecture", "conj");
    ("axiom", "ax"); ("construction", "const"); ("observation", "obs");
    ("exercise", "exer"); ("problem", "prob"); ("solution", "soln");
    ("algorithm", "alg"); ("discussion", "disc"); ("warning", "warn");
    ("nota-bene", "nb"); ("appendix", "app"); ("explication", "expl");
    ("figure", "fig") ].

(** one entry of the [forester.taxonCustomization] setting *)
Record TaxonCustom := mkCustom {
  emoji : option string;
  abbreviation : option string
}.

Definition TaxonSettings := list (string * TaxonCustom).

(** keys are lower-cased; a later key overwrites an earlier equal one *)
Definition getCustomTaxonConfig (settings : TaxonSettings) : TaxonSettings :=
  fold_left (fun acc kv => Js.set acc (Js.toLowerCase (fst kv)) (snd kv)) settings [].

(** [customConfig[lowerTaxon]?.abbreviation]; the values the configuration
    object inherits from [Object.prototype] have no [abbreviation], and a key
    [__proto__] of the setting, which the assignment turns into the
    prototype, is read back under that key all the same *)
Definition customAbbreviation (settings : TaxonSettings) (lowerTaxon : string)
  : option string :=
  match Js.get (getCustomTaxonConfig settings) lowerTaxon with
  | Some c => abbreviation c
  | None => None
  end.

(** the property names every object literal inherits from [Object.prototype] *)
Definition objectPrototypeKeys : list string :=
  [ "constructor"; "__defineGetter__"; "__defineSetter__"; "hasOwnProperty";
    "__lookupGetter__"; "__lookupSetter__"; "isPrototypeOf"; "propertyIsEnumerable";
    "toString"; "valueOf"; "__proto__"; "toLocaleString" ].

(** [obj[key]] on an object literal with string values: its own value, a
    value inherited from [Object.prototype] (a function or an object, which
    is truthy), or [undefined] *)
Inductive Property : Type :=
| Own (value : string)
| Inherited
| Undefined.

Definition lookup (obj : list (string * string)) (key : string) : Property :=
  match Js.get obj key with
  | Some value => Own value
  | None => if Js.has key objectPrototypeKeys then Inherited else Undefined
  end.

Definition propertyTruthy (p : Property) : bool :=
  match p with
  | Own value => Js.truthy (Some value)
  | Inherited => true
  | Undefined => false
  end.

(** what [getTaxonAbbreviation] returns: a string or, for a taxon that names
    a property [TAXON_MAP] inherits from [Object.prototype], the inherited
    value *)
Inductive Abbreviation : Type :=
| AbbreviationText (text : string)
| AbbreviationInherited (key : string).

Definition abbreviationTruthy (a : Abbreviation) : bool :=
  match a with
  | AbbreviationText text => Js.truthy (Some text)
  | AbbreviationInherited _ => true
  end.

(** an inherited value as [+] and a template literal write it: V8 prints a
    built-in function as [function name() { [native code] }] and
    [Object.prototype] as [[object Object]] *)
Definition inheritedText (key : string) : string :=
  if String.eqb key "__proto__" then "[object Object]"
  else if String.eqb key "constructor" then "function Object() { [native code] }"
  else ("function " ++ key ++ "() { [native code] }")%string.

Definition abbreviationText (a : Abbreviation) : string :=
  match a with
  | AbbreviationText text => text
  | AbbreviationInherited key => inheritedText key
  end.

Definition getTaxonAbbreviation (settings : TaxonSettings) (taxon : option string)
  : Abbreviation :=
  match taxon with
  | None => AbbreviationText ""
  | Some t =>
      if String.eqb t "" then AbbreviationText ""
      else
        let lowerTaxon := Js.toLowerCase t in
        if Js.truthy (customAbbreviation settings lowerTaxon) then
          match customAbbreviation settings lowerTaxon with
          | Some a => AbbreviationText a
          | None => AbbreviationText ""
          end
        else if propertyTruthy (lookup TAXON_MAP lowerTaxon) then
          match lookup TAXON_MAP lowerTaxon with
          | Own a => AbbreviationText a
          | _ => AbbreviationInherited lowerTaxon
          end
        else AbbreviationText (Js.toLowerCase (substring 0 3 t))
  end.

(** *** parseTaxonAndTitle *)

Definition ALTERNATIVE_ABBREVIATIONS : list (string * string) :=
  [ ("defn", "definition"); ("eg", "example"); ("rmk", "remark") ].

(** [getAbbreviationToFullNameMap]: the alternatives, then every abbreviation
    of [TAXON_MAP] assigned its full name *)
Definition getAbbreviationToFullNameMap : list (string * string) :=
  fold_left (fun map kv => Js.set map (snd kv) (fst kv)) TAXON_MAP
            ALTERNATIVE_ABBREVIATIONS.

(** [/^[a-z-]+$/.test(s)] *)
Definition isWordChar (c : ascii) : bool :=
  let n := nat_of_ascii c in
  (Nat.leb 97 n && Nat.leb n 122) || Nat.eqb n 45.

Fixpoint allWordChars (s : string) : bool :=
  match s with
  | EmptyString => true
  | String c r => isWordChar c && allWordChars r
  end.

Definition isTaxonWord (s : string) : bool :=
  negb (String.eqb s "") && allWordChars s.

(** the [taxon] of the result: absent, a string, or the value inherited from
    [Object.prototype] under the key *)
Inductive ParsedTaxon : Type :=
| NoTaxon
| TaxonName (taxon : string)
| TaxonInherited (key : string).

Definition parseTaxonAndTitle (input : string) : ParsedTaxon * string :=
  match Js.indexOf ":" input with
  | Some colonIndex =>
      if Nat.ltb 0 colonIndex && Nat.ltb colonIndex 30 then
        let potentialTaxon :=
          Js.toLowerCase (Js.trim (substring 0 colonIndex input)) in
        let titlePart := Js.trim (Js.substringFrom (colonIndex + 1) input) in
        if propertyTruthy (lookup getAbbreviationToFullNameMap potentialTaxon) then
          match lookup getAbbreviationToFullNameMap potentialTaxon with
          | Own fullName => (TaxonName fullName, titlePart)
          | _ => (TaxonInherited potentialTaxon, titlePart)
          end
        else if propertyTruthy (lookup TAXON_MAP potentialTaxon) then
          (TaxonName potentialTaxon, titlePart)
        else if isTaxonWord potentialTaxon && Nat.leb (String.length potentialTaxon) 20 then
          (TaxonName potentialTaxon, titlePart)
        else (NoTaxon, input)
      else (NoTaxon, input)
  | None => (NoTaxon, input)
  end.

End Utils.

(** ** forestStructureView.ts: the transclusion graph and its view state *)
Module ForestStructureView.
Import GetForest.

(** [TreeNode]: the entry's fields with the display title and the two edge sets *)
Record TreeNode := mkNode {
  n_uri : string;
  n_title : string;
  n_taxon : option string;
  n_tags : list string;
  n_route : string;
  n_metas : list (string * string);
  n_sourcePath : string;
  transcludes : list string;
  transcludedBy : list string
}.

Definition Nodes := list (string * TreeNode).

Record TreeViewState := mkSaved {
  s_expandedNodes : list string;
  s_pinnedRootIds : list string;
  s_focusMode : bool;
  s_selectedNodeId : option string
}.

(** the provider's fields, and the workspace memento under [STATE_KEY] *)
Record View := mkView {
  nodes : Nodes;
  expandedNodes : list string;
  currentRootIds : list string;
  pinnedRootIds : list string;
  focusMode : bool;
  initialLoad : bool;
  selectedNodeId : option string;
  workspaceState : option TreeViewState
}.

Definition MAX_PINNED_ROOTS : nat := 10.

(** what a rebuild reads from outside the provider: the taxon setting, the
    file system ([None]: [readFileSync] throws), and the tree id of the active
    editor ([path.basename(fileName, '.tree')] when the file name ends in
    [.tree], [null] otherwise) *)
Record Env := mkEnv {
  taxonCustomization : Utils.TaxonSettings;
  readFileSync : string -> option string;
  activeTreeId : option string
}.

(** *** buildGraph, first pass *)

(** [/(https?:\/\/)/.test(t)] *)
Definition looksLikeUrl (t : string) : bool :=
  Js.includes "http://" t || Js.includes "https://" t.

(** [!entry.title || /(https?:\/\/)/.test(entry.title) ? entry.uri : entry.title] *)
Definition baseTitle (entry : ForesterTree) (u : string) : string :=
  match title entry with
  | Some t => if negb (Js.truthy (Some t)) || looksLikeUrl t then u else t
  | None => u
  end.

Definition displayTitle (settings : Utils.TaxonSettings) (entry : ForesterTree)
  (u : string) : string :=
  let taxonPrefix := Utils.getTaxonAbbreviation settings (taxon entry) in
  let separator := if Utils.abbreviationTruthy taxonPrefix then ": " else "" in
  (Utils.abbreviationText taxonPrefix ++ separator ++ baseTitle entry u)%string.

Definition makeNode (settings : Utils.TaxonSettings) (entry : ForesterTree)
  (u : string) : TreeNode :=
  mkNode u (displayTitle settings entry u) (taxon entry) (tags entry)
         (route entry) (metas entry) (sourcePath entry) [] [].

(** the loop over [forestData]; it throws at the first entry without a uri,
    with the nodes set so far left in the map *)
Fixpoint resolutionMap (settings : Utils.TaxonSettings) (forestData : Forest)
  (g : Nodes) : Completion Nodes :=
  match forestData with
  | [] => Normal g
  | entry :: rest =>
      match uri entry with
      | Some u =>
          if Js.truthy (Some u)
          then resolutionMap settings rest (Js.set g u (makeNode settings entry u))
          else Throw g "Unexpected lack of uri"
      | None => Throw g "Unexpected lack of uri"
      end
  end.

(** *** buildGraph, second pass *)

Definition directive : string := "\transclude{".

Definition closing : ascii := "}"%char.

(** the longest run of characters other than [}] and what follows it *)
Fixpoint spanId (s : string) : string * string :=
  match s with
  | EmptyString => (EmptyString, EmptyString)
  | String c r =>
      if Ascii.eqb c closing then (EmptyString, s)
      else let (i, rest) := spanId r in (String c i, rest)
  end.

Fixpoint dropChars (n : nat) (s : string) : string :=
  match n, s with
  | 0, _ => s
  | S k, EmptyString => EmptyString
  | S k, String _ r => dropChars k r
  end.

(** the match of [\\transclude\{([^}]+)\}] anchored at the start of [s]: its group *)
Definition matchHere (s : string) : option string :=
  if Js.startsWith directive s then
    let (i, rest) := spanId (dropChars (String.length directive) s) in
    match i, rest with
    | String _ _, String _ _ => Some i
    | _, _ => None
    end
  else None.

(** [line.matchAll(/\\transclude\{([^}]+)\}/g)], the groups of the successive
    matches; [skip] characters of the last match remain to be passed *)
Fixpoint matchAllFrom (skip : nat) (s : string) : list string :=
  match s with
  | EmptyString => []
  | String _ r =>
      match skip with
      | S k => matchAllFrom k r
      | 0 =>
          match matchHere s with
          | Some i => i :: matchAllFrom (String.length directive + String.length i) r
          | None => matchAllFrom 0 r
          end
      end
  end.

Definition matchAll (line : string) : list string := matchAllFrom 0 line.

(** the targets named by the lines of a file that are not comments *)
Definition transclusionsOf (content : string) : list string :=
  flat_map (fun line =>
              if Js.startsWith "%" (Js.trimStart line) then [] else matchAll line)
           (Js.split_newline content).

(** mutate the node stored under [k] *)
Fixpoint update (g : Nodes) (k : string) (f : TreeNode -> TreeNode) : Nodes :=
  match g with
  | [] => []
  | (k', n) :: r => if String.eqb k' k then (k', f n) :: r else (k', n) :: update r k f
  end.

Definition addTranscludes (t : string) (n : TreeNode) : TreeNode :=
  mkNode (n_uri n) (n_title n) (n_taxon n) (n_tags n) (n_route n) (n_metas n)
         (n_sourcePath n) (Js.add t (transcludes n)) (transcludedBy n).

Definition addTranscludedBy (u : string) (n : TreeNode) : TreeNode :=
  mkNode (n_uri n) (n_title n) (n_taxon n) (n_tags n) (n_route n) (n_metas n)
         (n_sourcePath n) (transcludes n) (Js.add u (transcludedBy n)).

(** one match: both edge sets are updated when the target is a known node *)
Definition addEdge (u : string) (g : Nodes) (targetId : string) : Nodes :=
  match Js.get g targetId with
  | Some _ => update (update g u (addTranscludes targetId)) targetId (addTranscludedBy u)
  | None => g
  end.

(** the body of the second loop for the node under [u]; a read error is caught *)
Definition parseNode (env : Env) (g : Nodes) (u : string) : Nodes :=
  match Js.get g u with
  | Some node =>
      match readFileSync env (n_sourcePath node) with
      | Some content => fold_left (addEdge u) (transclusionsOf content) g
      | None => g
      end
  | None => g
  end.

Definition parseTransclusions (env : Env) (g : Nodes) : Nodes :=
  fold_left (parseNode env) (Js.keys g) g.

(** *** findRoot *)

(** the [while (true)] loop, run for at most [fuel] iterations *)
Fixpoint findRootLoop (g : Nodes) (treeId : string) (fuel : nat)
  (visited : list string) (current : string) : option string :=
  match fuel with
  | 0 => None
  | S fuel' =>
      if Js.has current visited then Some treeId
      else
        match Js.get g current with
        | None => Some current
        | Some currentNode =>
            match transcludedBy currentNode with
            | [] => Some current
            | parent :: _ => findRootLoop g treeId fuel' (Js.add current visited) parent
            end
        end
  end.

(** [None] would mean the loop is still running after [length g + 1] iterations *)
Definition findRoot (g : Nodes) (treeId : string) : option string :=
  match Js.get g treeId with
  | None => Some treeId
  | Some node =>
      match transcludedBy node with
      | [] => Some treeId
      | _ :: _ => findRootLoop g treeId (S (List.length g)) [] treeId
      end
  end.

(** *** buildGraph *)

(** [currentRootIds]: the pinned roots, then the root of the active tree *)
Definition determineRoots (g : Nodes) (pinned : list string)
  (currentTreeId : option string) : option (list string) :=
  match currentTreeId with
  | Some id =>
      if Js.truthy (Some id) then
        let direct :=
          match Js.get g id with
          | Some node => Nat.eqb (List.length (transcludedBy node)) 0 && negb (Js.has id pinned)
          | None => false
          end in
        if direct then Some (pinned ++ [id])
        else
          match findRoot g id with
          | Some rootNode =>
              Some (if Js.has rootNode pinned then pinned else pinned ++ [rootNode])
          | None => None
          end
      else Some pinned
  | None => Some pinned
  end.

Definition addAll (ids : list string) (s : list string) : list string :=
  fold_left (fun acc id => Js.add id acc) ids s.

(** the default expansion of the first load, when nothing was saved *)
Definition initialExpansion (v : View) (roots : list string) : list string :=
  if initialLoad v then
    match workspaceState v with
    | Some saved =>
        if Nat.eqb (List.length (s_expandedNodes saved)) 0
        then addAll roots (expandedNodes v) else expandedNodes v
    | None => addAll roots (expandedNodes v)
    end
  else expandedNodes v.

(** [buildGraph] once [getForest()] has resolved to [forestData]; [None] only
    if [findRoot] overran its iteration bound *)
Definition buildGraph (env : Env) (forestData : Forest) (v : View)
  : option (Completion View) :=
  match resolutionMap (taxonCustomization env) forestData [] with
  | Throw g msg =>
      Some (Throw (mkView g (expandedNodes v) (currentRootIds v) (pinnedRootIds v)
                          (focusMode v) (initialLoad v) (selectedNodeId v)
                          (workspaceState v)) msg)
  | Normal g0 =>
      let g := parseTransclusions env g0 in
      match determineRoots g (pinnedRootIds v) (activeTreeId env) with
      | Some roots =>
          Some (Normal (mkView g (initialExpansion v roots) roots (pinnedRootIds v)
                               (focusMode v) false (selectedNodeId v)
                               (workspaceState v)))
      | None => None
      end
  end.

(** *** nodeContainsChild and findRootForNode *)

(** the search shares one [visited] set along all its branches; the result
    carries the set as the call leaves it *)
Fixpoint nodeContainsChild (g : Nodes) (fuel : nat) (parentId targetId : string)
  (visited : list string) : option (bool * list string) :=
  match fuel with
  | 0 => None
  | S fuel' =>
      if String.eqb parentId targetId then Some (true, visited)
      else if Js.has parentId visited then Some (false, visited)
      else
        let visited1 := Js.add parentId visited in
        match Js.get g parentId with
        | None => Some (false, visited1)
        | Some parent =>
            (fix children (cs : list string) (vis : list string) :=
               match cs with
               | [] => Some (false, vis)
               | childId :: cs' =>
                   match nodeContainsChild g fuel' childId targetId vis with
                   | Some (true, vis') => Some (true, vis')
                   | Some (false, vis') => children cs' vis'
                   | None => None
                   end
               end) (transcludes parent) visited1
        end
  end.

Fixpoint firstContaining (g : Nodes) (roots : list string) (nodeId : string)
  : option (option string) :=
  match roots with
  | [] => Some None
  | rootId :: rest =>
      match nodeContainsChild g (S (List.length g)) rootId nodeId [] with
      | Some (true, _) => Some (Some rootId)
      | Some (false, _) => firstContaining g rest nodeId
      | None => None
      end
  end.

Definition findRootForNode (v : View) (nodeId : string) : option (option string) :=
  if Js.has nodeId (currentRootIds v) then Some (Some nodeId)
  else firstContaining (nodes v) (currentRootIds v) nodeId.

(** *** effects and view-state updates *)

Inductive Effect : Type :=
| SetContextPinned (b : bool)
| OpenCommand (path : string)
| RenameTreeById (u : string)
| ShowWarningMessage (m : string)
| ShowInformationMessage (m : string)
| PostUpdate
| Refresh.

Definition setPinned (v : View) (pinned expanded : list string) : View :=
  mkView (nodes v) expanded (currentRootIds v) pinned (focusMode v)
         (initialLoad v) (selectedNodeId v) (workspaceState v).

Definition setExpanded (v : View) (expanded : list string) : View :=
  setPinned v (pinnedRootIds v) expanded.

Definition setSelected (v : View) (sel : option string) : View :=
  mkView (nodes v) (expandedNodes v) (currentRootIds v) (pinnedRootIds v)
         (focusMode v) (initialLoad v) sel (workspaceState v).

Definition saveState (v : View) : View :=
  mkView (nodes v) (expandedNodes v) (currentRootIds v) (pinnedRootIds v)
         (focusMode v) (initialLoad v) (selectedNodeId v)
         (Some (mkSaved (expandedNodes v) (pinnedRootIds v) (focusMode v)
                        (selectedNodeId v))).

Definition autoPinOnInteraction (v : View) (nodeId : string)
  : option (View * list Effect) :=
  match findRootForNode v nodeId with
  | Some (Some root) =>
      if Js.truthy (Some root) && negb (Js.has root (pinnedRootIds v))
      then Some (setPinned v (pinnedRootIds v ++ [root]) (Js.add root (expandedNodes v)),
                 [SetContextPinned true])
      else Some (v, [])
  | Some None => Some (v, [])
  | None => None
  end.

Inductive Message : Type :=
| Toggle (nodeId : string)
| OpenFile (nodeId : string)
| TogglePin (nodeId : string)
| RenameTree (nodeId : string).

Definition pinLimitWarning : string :=
  ("Cannot pin more than " ++ Js.showNat MAX_PINNED_ROOTS ++ " roots")%string.

(** the [togglePin] case of the message handler *)
Definition togglePin (v : View) (nodeId : string) : View * list Effect :=
  let (v1, eff) :=
    if Js.has nodeId (pinnedRootIds v) then
      let pinned := Js.delete nodeId (pinnedRootIds v) in
      (setPinned v pinned (expandedNodes v),
       [SetContextPinned (Nat.ltb 0 (List.length pinned))])
    else if Nat.leb MAX_PINNED_ROOTS (List.length (pinnedRootIds v)) then
      (v, [ShowWarningMessage pinLimitWarning])
    else
      (setPinned v (pinnedRootIds v ++ [nodeId]) (Js.add nodeId (expandedNodes v)),
       [SetContextPinned true]) in
  (saveState v1, eff ++ [Refresh]).

(** the [onDidReceiveMessage] handler *)
Definition onDidReceiveMessage (v : View) (data : Message)
  : option (View * list Effect) :=
  match data with
  | Toggle nodeId =>
      let v1 := setExpanded v (if Js.has nodeId (expandedNodes v)
                               then Js.delete nodeId (expandedNodes v)
                               else Js.add nodeId (expandedNodes v)) in
      match autoPinOnInteraction v1 nodeId with
      | Some (v2, eff) => Some (saveState v2, eff ++ [PostUpdate])
      | None => None
      end
  | OpenFile nodeId =>
      let node := Js.get (nodes v) nodeId in
      let eff0 :=
        match node with
        | Some n => if Js.truthy (Some (n_sourcePath n))
                    then [OpenCommand (n_sourcePath n)] else []
        | None => []
        end in
      let v1 :=
        match node with
        | Some n => if Nat.ltb 0 (List.length (transcludes n))
                    then setExpanded v (Js.add nodeId (expandedNodes v)) else v
        | None => v
        end in
      let v2 := setSelected v1 (Some nodeId) in
      match autoPinOnInteraction v2 nodeId with
      | Some (v3, eff) => Some (saveState v3, eff0 ++ eff ++ [PostUpdate])
      | None => None
      end
  | TogglePin nodeId => Some (togglePin v nodeId)
  | RenameTree nodeId =>
      match Js.get (nodes v) nodeId with
      | Some n => Some (v, [RenameTreeById (n_uri n)])
      | None => Some (v, [])
      end
  end.

Definition titleOr (g : Nodes) (id : string) : string :=
  match Js.get g id with
  | Some n => if Js.truthy (Some (n_title n)) then n_title n else id
  | None => id
  end.

(** [pinToCurrentFile], with the active editor's tree id as in [Env] *)
Definition pinToCurrentFile (env : Env) (v : View) : option (View * list Effect) :=
  match activeTreeId env with
  | None => Some (v, [])
  | Some treeId =>
      match Js.get (nodes v) treeId with
      | None => Some (v, [ShowWarningMessage "Tree not found in forest"])
      | Some node =>
          match (if Nat.ltb 0 (List.length (transcludedBy node))
                 then findRoot (nodes v) treeId else Some treeId) with
          | None => None
          | Some rootId =>
              if Js.truthy (Some rootId) && negb (Js.has rootId (pinnedRootIds v))
              then
                let v1 := setPinned v (pinnedRootIds v ++ [rootId])
                                    (Js.add rootId (expandedNodes v)) in
                Some (saveState v1,
                      [Refresh;
                       ShowInformationMessage ("Pinned: " ++ titleOr (nodes v) rootId)])
              else Some (v, [])
          end
      end
  end.

Definition unpin (v : View) : View * list Effect :=
  match List.rev (pinnedRootIds v) with
  | [] => (v, [])
  | unpinned :: _ =>
      (saveState (setPinned v (removelast (pinnedRootIds v)) (expandedNodes v)),
       [Refresh; ShowInformationMessage ("Unpinned: " ++ unpinned)])
  end.

Definition expandAll (v : View) : View * list Effect :=
  let withChildren :=
    map fst (filter (fun kn => Nat.ltb 0 (List.length (transcludes (snd kn)))) (nodes v)) in
  (saveState (setExpanded v (addAll withChildren (expandedNodes v))), [Refresh]).

Definition collapseAll (v : View) : View * list Effect :=
  (saveState (setExpanded v (addAll (currentRootIds v) [])), [Refresh]).

Definition toggleFocusMode (v : View) : View * list Effect :=
  let v1 := mkView (nodes v) (expandedNodes v) (currentRootIds v) (pinnedRootIds v)
                   (negb (focusMode v)) (initialLoad v) (selectedNodeId v)
                   (workspaceState v) in
  (saveState v1,
   [Refresh; ShowInformationMessage
               ("Focus mode " ++ (if focusMode v1 then "enabled" else "disabled"))]).

(** [refresh] once the forest is there: a rebuild, then an update of the page *)
Definition refresh (env : Env) (forestData : Forest) (v : View)
  : option (Completion View * list Effect) :=
  match buildGraph env forestData v with
  | Some (Normal v') => Some (Normal v', [PostUpdate])
  | Some (Throw v' msg) => Some (Throw v' msg, [])
  | None => None
  end.

(** *** rendering *)

(** one [<div class="tree-item ...">] of the page, by what it shows: a cycle
    terminator, or a node with its depth ([padding-left]), the [selected] and
    [root] classes, the chevron (present, expanded), the pin button (root
    items only) and the lower-cased label *)
Inductive Item : Type :=
| EmptyNotice
| CycleItem (depth : nat) (label : string)
| TreeItem (nodeId : string) (depth : nat) (selected isRoot hasChildren isExpanded : bool)
           (pinButton : option bool) (titleText : string).

Definition labelOf (node : TreeNode) (nodeId : string) : string :=
  if Js.truthy (Some (n_title node)) then n_title node else nodeId.

Definition isSelected (v : View) (nodeId : string) : bool :=
  match selectedNodeId v with
  | Some s => String.eqb s nodeId
  | None => false
  end.

Definition treeItem (v : View) (node : TreeNode) (nodeId : string) (depth : nat) : Item :=
  TreeItem nodeId depth (isSelected v nodeId) (Nat.eqb depth 0)
           (Nat.ltb 0 (List.length (transcludes node)))
           (Js.has nodeId (expandedNodes v))
           (if Nat.eqb depth 0 then Some (Js.has nodeId (pinnedRootIds v)) else None)
           (Js.toLowerCase (labelOf node nodeId)).

(** [renderNode], to a call depth of at most [fuel]; every child is given
    its own copy of [visited] *)
Fixpoint renderNode (v : View) (fuel : nat) (nodeId : string) (depth : nat)
  (visited : list string) : option (list Item) :=
  match fuel with
  | 0 => None
  | S fuel' =>
      match Js.get (nodes v) nodeId with
      | None => Some []
      | Some node =>
          if Js.has nodeId visited then Some [CycleItem depth (labelOf node nodeId)]
          else
            let visited1 := Js.add nodeId visited in
            let html := [treeItem v node nodeId depth] in
            if Nat.ltb 0 (List.length (transcludes node)) && Js.has nodeId (expandedNodes v)
            then
              (fix children (cs : list string) (html : list Item) :=
                 match cs with
                 | [] => Some html
                 | childId :: cs' =>
                     match renderNode v fuel' childId (S depth) visited1 with
                     | Some h => children cs' (html ++ h)
                     | None => None
                     end
                 end) (transcludes node) html
            else Some html
      end
  end.

Fixpoint renderRoots (v : View) (fuel : nat) (roots : list string) (html : list Item)
  : option (list Item) :=
  match roots with
  | [] => Some html
  | rootId :: rest =>
      match renderNode v fuel rootId 0 [] with
      | Some h => renderRoots v fuel rest (html ++ h)
      | None => None
      end
  end.

(** [_getTreeHtml]; [None] would mean a call depth above [length nodes + 1] *)
Definition _getTreeHtml (v : View) : option (list Item) :=
  match currentRootIds v with
  | [] => Some [EmptyNotice]
  | _ :: _ => renderRoots v (S (List.length (nodes v))) (currentRootIds v) []
  end.

(** *** revealNode *)

(** [findPath], to a call depth of at most [fuel]; [None]: the bound is exceeded *)
Fixpoint findPath (v : View) (fuel : nat) (targetId : string) : option (list string) :=
  match fuel with
  | 0 => None
  | S fuel' =>
      if Js.has targetId (currentRootIds v) then Some [targetId]
      else
        (fix entries (es : Nodes) :=
           match es with
           | [] => Some []
           | (parentId, parentNode) :: rest =>
               if Js.has targetId (transcludes parentNode) then
                 match findPath v fuel' parentId with
                 | None => None
                 | Some [] => entries rest
                 | Some parentPath => Some (parentPath ++ [targetId])
                 end
               else entries rest
           end) (nodes v)
  end.

Definition revealNode (v : View) (fuel : nat) (nodeId : string) : option View :=
  match findPath v fuel nodeId with
  | Some path => Some (setExpanded v (addAll (removelast path) (expandedNodes v)))
  | None => None
  end.

(** [updateSelectionFromEditor] for an editor on the tree [treeId] *)
Definition updateSelectionFromEditor (v : View) (fuel : nat) (treeId : option string)
  : option View :=
  match treeId with
  | None => Some v
  | Some id =>
      match Js.get (nodes v) id with
      | None => Some v
      | Some _ =>
          match revealNode (setSelected v (Some id)) fuel id with
          | Some v' => Some (saveState v')
          | None => None
          end
      end
  end.

(** *** sequences of gestures *)

Inductive Op : Type :=
| Receive (data : Message)
| PinToCurrentFile (env : Env)
| Unpin
| ToggleFocusMode
| ExpandAll
| CollapseAll
| Rebuild (env : Env) (forestData : Forest).

Definition perform (v : View) (op : Op) : option View :=
  match op with
  | Receive data => option_map fst (onDidReceiveMessage v data)
  | PinToCurrentFile env => option_map fst (pinToCurrentFile env v)
  | Unpin => Some (fst (unpin v))
  | ToggleFocusMode => Some (fst (toggleFocusMode v))
  | ExpandAll => Some (fst (expandAll v))
  | CollapseAll => Some (fst (collapseAll v))
  | Rebuild env forestData =>
      match refresh env forestData v with
      | Some (Normal v', _) => Some v'
      | Some (Throw v' _, _) => Some v'
      | None => None
      end
  end.

Fixpoint performAll (v : View) (ops : list Op) : option View :=
  match ops with
  | [] => Some v
  | op :: rest =>
      match perform v op with
      | Some v' => performAll v' rest
      | None => None
      end
  end.

(** the provider as constructed, with nothing saved in the workspace *)
Definition initialView : View := mkView [] [] [] [] false true None None.

(** *** loadState *)

(** [new Set(array)] *)
Definition setOf (l : list string) : list string := addAll l [].

(** [loadState]: the saved state, when there is one, replaces the four fields *)
Definition loadState (v : View) : View * list Effect :=
  match workspaceState v with
  | Some savedState =>
      (mkView (nodes v) (setOf (s_expandedNodes savedState)) (currentRootIds v)
              (s_pinnedRootIds savedState) (s_focusMode savedState) (initialLoad v)
              (s_selectedNodeId savedState) (workspaceState v),
       [SetContextPinned (Nat.ltb 0 (List.length (s_pinnedRootIds savedState)))])
  | None => (v, [])
  end.

(** the provider as its constructor leaves it, given the workspace memento *)
Definition construct (memento : option TreeViewState) : View :=
  fst (loadState (mkView [] [] [] [] false true None memento)).

End ForestStructureView.

(** ** edit-forest.ts: renaming a tree *)
Module EditForest.
Import GetForest.

(** *** renameTreeById: the value offered in the input box *)

(** [tree.taxon || ''] *)
Definition currentTaxon (tree : ForesterTree) : string :=
  match taxon tree with
  | Some t => t
  | None => ""
  end.

(** [tree.title || tree.uri]; [getTree] found the tree by its uri, so that
    the uri is a string *)
Definition currentTitle (tree : ForesterTree) : string :=
  if Js.truthy (title tree) then
    match title tree with
    | Some t => t
    | None => ""
    end
  else match uri tree with
       | Some u => u
       | None => ""
       end.

Definition currentValue (tree : ForesterTree) : string :=
  if Js.truthy (Some (currentTaxon tree))
  then (currentTaxon tree ++ ": " ++ currentTitle tree)%string
  else currentTitle tree.

(** *** renameTreeById: the lines of the file *)

(** the three indices of the scan; [None] is the [-1] of the source *)
Record LineScan := mkScan {
  titleLineIndex : option nat;
  taxonLineIndex : option nat;
  lastMetadataLine : option nat
}.

Definition isTitleLine (line : string) : bool := Js.startsWith "\title{" line.

Definition isTaxonLine (line : string) : bool := Js.startsWith "\taxon{" line.

Definition isOtherMetadata (line : string) : bool :=
  Js.startsWith "\date{" line || Js.startsWith "\author{" line
  || Js.startsWith "\import{" line || Js.startsWith "\export{" line.

(** the [for] loop over the lines, from index [i] on *)
Fixpoint scanLines (lines : list string) (i : nat) (found : LineScan) : LineScan :=
  match lines with
  | [] => found
  | line :: rest =>
      scanLines rest (S i)
        (if isTitleLine line then mkScan (Some i) (taxonLineIndex found) (Some i)
         else if isTaxonLine line then mkScan (titleLineIndex found) (Some i) (Some i)
         else if isOtherMetadata line
              then mkScan (titleLineIndex found) (taxonLineIndex found) (Some i)
         else found)
  end.

(** [lines[i] = value]; past the end JavaScript leaves holes, which [join]
    writes as empty lines *)
Fixpoint assign (lines : list string) (i : nat) (value : string) : list string :=
  match i, lines with
  | 0, [] => [value]
  | 0, _ :: rest => value :: rest
  | S k, [] => "" :: assign [] k value
  | S k, line :: rest => line :: assign rest k value
  end.

(** [lines.splice(i, 0, value)] *)
Fixpoint spliceIn (lines : list string) (i : nat) (value : string) : list string :=
  match i, lines with
  | 0, _ => value :: lines
  | S _, [] => [value]
  | S k, line :: rest => line :: spliceIn rest k value
  end.

(** [lines.splice(i, 1)] *)
Fixpoint spliceOut (lines : list string) (i : nat) : list string :=
  match i, lines with
  | _, [] => []
  | 0, _ :: rest => rest
  | S k, line :: rest => line :: spliceOut rest k
  end.

Definition titleLine (newTitle : string) : string := ("\title{" ++ newTitle ++ "}")%string.

Definition taxonLine (newTaxon : string) : string := ("\taxon{" ++ newTaxon ++ "}")%string.

(** from the scan to [lines.join]: the title line is replaced or put first,
    the taxon line is replaced, inserted or removed *)
Definition updateLines (lines : list string) (newTaxon : option string)
  (newTitle : string) : list string :=
  let found := scanLines lines 0 (mkScan None None None) in
  let '(lines1, taxonIndex) :=
    match titleLineIndex found with
    | Some i => (assign lines i (titleLine newTitle), taxonLineIndex found)
    | None => (titleLine newTitle :: lines, option_map S (taxonLineIndex found))
    end in
  match newTaxon with
  | Some t =>
      match taxonIndex with
      | Some j => assign lines1 j (taxonLine t)
      | None =>
          let insertIndex :=
            match titleLineIndex found with
            | Some i => i + 1
            | None => 0
            end in
          spliceIn lines1 insertIndex (taxonLine t)
      end
  | None =>
      match taxonIndex with
      | Some j => spliceOut lines1 j
      | None => lines1
      end
  end.

(** the text written back for the text read *)
Definition updatedContent (text : string) (newTaxon : option string)
  (newTitle : string) : string :=
  Js.join_newline (updateLines (Js.split_newline text) newTaxon newTitle).

(** *** collectTitleInput *)

Record TitleInputResult := mkTitleInput {
  r_taxon : Utils.ParsedTaxon;
  r_title : string;
  originalInput : string
}.

(** [onDidAccept]: a validation message, or the value the promise is
    resolved with *)
Definition onDidAccept (value : string) : string + string :=
  if String.eqb value "" || String.eqb (Js.trim value) "" then
    inl "Title cannot be empty"
  else
    let title := snd (Utils.parseTaxonAndTitle value) in
    if String.eqb title "" || String.eqb (Js.trim title) "" then
      inl "Title cannot be empty after taxon"
    else inr value.

(** what the user does with the input box *)
Inductive InputEvent : Type :=
| Accept (value : string)
| Hide.

(** the promise of the input box: [None] while it is pending, [Some None]
    when it resolved with [undefined] *)
Fixpoint titleInput (events : list InputEvent) : option (option string) :=
  match events with
  | [] => None
  | Accept value :: rest =>
      match onDidAccept value with
      | inr resolved => Some (Some resolved)
      | inl _ => titleInput rest
      end
  | Hide :: _ => Some None
  end.

Definition collectTitleInput (events : list InputEvent)
  : option (option TitleInputResult) :=
  match titleInput events with
  | None => None
  | Some None => Some None
  | Some (Some input) =>
      if String.eqb input "" then Some None
      else
        let parsed := Utils.parseTaxonAndTitle input in
        Some (Some (mkTitleInput (fst parsed) (snd parsed) input))
  end.

(** *** findTranscludeReferenceAtCursor *)

(** the commands of [\\(transclude|import|export)\{], in the order of the
    alternation *)
Definition referenceCommands : list string :=
  [ "\transclude{"; "\import{"; "\export{" ].

(** the match of one alternative anchored at the start of [s]: the matched
    text and its second group *)
Definition execCommand (command s : string) : option (string * string) :=
  if Js.startsWith command s then
    let (i, rest) :=
      ForestStructureView.spanId
        (ForestStructureView.dropChars (String.length command) s) in
    match i, rest with
    | String _ _, String _ _ => Some ((command ++ i ++ "}")%string, i)
    | _, _ => None
    end
  else None.

Fixpoint execAny (commands : list string) (s : string) : option (string * string) :=
  match commands with
  | [] => None
  | command :: rest =>
      match execCommand command s with
      | Some m => Some m
      | None => execAny rest s
      end
  end.

(** [position.character > braceOpenIndex && position.character < braceCloseIndex],
    with [indexOf] and [lastIndexOf] answering [-1] as [None] *)
Definition insideBraces (index : nat) (match0 : string) (character : nat) : bool :=
  (match Js.indexOf "{" match0 with
   | Some k => Nat.ltb (index + k) character
   | None => Nat.leb index character
   end)
  && (match Js.lastIndexOf "}" match0 with
      | Some k => Nat.ltb character (index + k + 1)
      | None => Nat.ltb character index
      end).

(** the [while] loop over [transcludePattern.exec(line)]: [s] is the line
    from [index] on, and [skip] characters of the last match remain to be
    passed *)
Fixpoint execLoop (skip index : nat) (s : string) (character : nat) : option string :=
  match s with
  | EmptyString => None
  | String _ r =>
      match skip with
      | S k => execLoop k (S index) r character
      | 0 =>
          match execAny referenceCommands s with
          | Some (match0, treeId) =>
              if insideBraces index match0 character then Some treeId
              else execLoop (String.length match0 - 1) (S index) r character
          | None => execLoop 0 (S index) r character
          end
      end
  end.

Definition findTranscludeReferenceAtCursor (line : string) (character : nat)
  : option string :=
  execLoop 0 0 line character.

End EditForest.

Import GetForest ForestStructureView.

(** ** Definitions used to state the properties, and the data of the examples *)

(** *** findRoot: the chain of first parents *)

(** the parent [findRoot] moves to from [x], and the node it has reached after [k] moves *)
Definition parentOf (g : Nodes) (x : string) : option string :=
  match Js.get g x with
  | Some node => hd_error (transcludedBy node)
  | None => None
  end.

Fixpoint ancestor (g : Nodes) (k : nat) (x : string) : option string :=
  match k with
  | 0 => Some x
  | S k' =>
      match parentOf g x with
      | Some p => ancestor g k' p
      | None => None
      end
  end.

Definition ringNode (u parent : string) : TreeNode :=
  mkNode u u None [] "" [] "" [] [parent].

Definition ring : Nodes :=
  [("a", ringNode "a" "c"); ("b", ringNode "b" "a"); ("c", ringNode "c" "b")].

(** *** trees, files and gestures of the examples *)

Definition plainTree (u : string) : ForesterTree :=
  mkTree None None [] "" [] (u ++ ".tree") (Some u).

Definition noFiles (path : string) : option string := None.

Definition editing (treeId : option string) : Env := mkEnv [] noFiles treeId.

Definition elevenIds : list string :=
  ["t0"; "t1"; "t2"; "t3"; "t4"; "t5"; "t6"; "t7"; "t8"; "t9"; "t10"].

Definition tenIds : list string := removelast elevenIds.

(** eleven trees that nothing transcludes, the last of which transcludes [leaf] *)
Definition elevenRoots : Forest := map plainTree (elevenIds ++ ["leaf"]).

Definition elevenRootsFiles (path : string) : option string :=
  if String.eqb path "t10.tree" then Some "\transclude{leaf}" else None.

Definition opening (treeId : string) : Env := mkEnv [] elevenRootsFiles (Some treeId).

(** for each of [t0] ... [t9]: the editor moves to the tree, the view is
    rebuilt, and the pin button of the root shown for it is clicked; then the
    editor moves to [t10] and the view is rebuilt *)
Definition pinTen : list Op :=
  flat_map (fun id => [Rebuild (opening id) elevenRoots; Receive (TogglePin id)]) tenIds
  ++ [Rebuild (opening "t10") elevenRoots].

Definition twoCycleFiles (path : string) : option string :=
  if String.eqb path "A.tree" then Some "\transclude{B}"
  else if String.eqb path "B.tree" then Some "\transclude{A}"
  else None.

(** the trees [A] and [B] transclude each other; no editor is on a tree and
    nothing is pinned when the graph is built *)
Definition twoCycleView : View := Eval vm_compute in
  match buildGraph (mkEnv [] twoCycleFiles None) [plainTree "A"; plainTree "B"] initialView with
  | Some (Normal v) => v
  | _ => initialView
  end.

(** *** the display title *)

(** the display title as the specification words it: the uri stands in when
    the title is null or absent or looks like a URL, and a taxon that is
    present gives the prefix and the separator *)
Definition claimedBaseTitle (entry : ForesterTree) (u : string) : string :=
  match title entry with
  | None => u
  | Some t => if looksLikeUrl t then u else t
  end.

Definition claimedTitle (settings : Utils.TaxonSettings) (entry : ForesterTree)
  (u : string) : string :=
  match taxon entry with
  | Some t =>
      (Utils.abbreviationText (Utils.getTaxonAbbreviation settings (Some t)) ++ ": "
       ++ claimedBaseTitle entry u)%string
  | None => claimedBaseTitle entry u
  end.

(** the same with the empty string counted as no title and as no taxon *)
Definition amendedBaseTitle (entry : ForesterTree) (u : string) : string :=
  match title entry with
  | None => u
  | Some t => if String.eqb t "" then u else if looksLikeUrl t then u else t
  end.

Definition amendedTitle (settings : Utils.TaxonSettings) (entry : ForesterTree)
  (u : string) : string :=
  match taxon entry with
  | Some t =>
      if String.eqb t "" then amendedBaseTitle entry u
      else (Utils.abbreviationText (Utils.getTaxonAbbreviation settings (Some t)) ++ ": "
            ++ amendedBaseTitle entry u)%string
  | None => amendedBaseTitle entry u
  end.

Definition emptyTitled : ForesterTree :=
  mkTree (Some "") (Some "theorem") [] "" [] "a.tree" (Some "a").

Definition emptyUri : ForesterTree :=
  mkTree (Some "Untitled") None [] "" [] "x.tree" (Some "").

(** a tree with a title and a taxon, and the view built from a forest that
    holds it *)
Definition stokes : ForesterTree :=
  mkTree (Some "Stokes") (Some "Theorem") [] "" [] "s.tree" (Some "s").

Definition stokesView : View := Eval vm_compute in
  match buildGraph (editing None) [plainTree "a"; stokes] initialView with
  | Some (Normal v) => v
  | _ => initialView
  end.

Definition sameTitles (g g' : Nodes) : Prop :=
  forall k, option_map n_title (Js.get g' k) = option_map n_title (Js.get g k).

(** *** one fetch, and bursts of invalidations *)

(** the adapter failed, in one of the four ways the specification lists: the
    timer fired, the process could not run, it ended on a signal or with a
    code other than 0, or its output is not JSON *)
Definition adapterFailed (run : AdapterRun) : Prop :=
  match event run with
  | TimedOut => True
  | ProcessError _ => True
  | Closed code signal parsed => signal <> None \/ code <> Some 0 \/ parsed = None
  end.

(** the fallback as the specification words it: the artifact counts when it
    is an array whose elements all have a non-empty string for uri *)
Definition claimedArtifact (artifact : option ArtifactRead) : option Forest :=
  match artifact with
  | Some (ParsedTo (AnArray data)) =>
      if forallb (fun tree => Js.truthy (uri tree)) data then Some data else None
  | _ => None
  end.

Definition claimedFallback (lastGood : option Forest) (artifact : option ArtifactRead)
  : Forest :=
  match lastGood with
  | Some forest => forest
  | None =>
      match claimedArtifact artifact with
      | Some data => data
      | None => []
      end
  end.

(** the same with any string, the empty one too, accepted for uri *)
Definition amendedArtifact (artifact : option ArtifactRead) : option Forest :=
  match artifact with
  | Some (ParsedTo (AnArray data)) =>
      if forallb (fun tree => isSome (uri tree)) data then Some data else None
  | _ => None
  end.

Definition amendedFallback (lastGood : option Forest) (artifact : option ArtifactRead)
  : Forest :=
  match lastGood with
  | Some forest => forest
  | None =>
      match amendedArtifact artifact with
      | Some data => data
      | None => []
      end
  end.

Definition timedOut : AdapterRun := mkRun TimedOut "" "".

Definition printedNull : AdapterRun := mkRun (Closed (Some 0) None (Some QNull)) "null" "".

(** a run that ends well with the forest [forest] in the new format *)
Definition succeeds (forest : Forest) : AdapterRun :=
  mkRun (Closed (Some 0) None (Some (QArray forest))) "[]" "".

(** a forced read, then [n] file-change events while its fetch is in flight *)
Definition burst (n : nat) : list Event :=
  CallGetForest 0 true false :: map CallForestUpdatedOnDisk (seq 1 n).

Definition afterBurst (n : nat) : Cache :=
  mkCache (Some 0) None true statusUpdating [] [AwaitingAdapter]
          ((0, GetForestOwner 0) :: map (fun c => (0, ForestUpdatedOnDisk c)) (seq 1 n))
          [].

(** *** rendering *)

Definition threeCycleFiles (path : string) : option string :=
  if String.eqb path "A.tree" then Some "\transclude{B}"
  else if String.eqb path "B.tree" then Some "\transclude{C}"
  else if String.eqb path "C.tree" then Some "\transclude{A}"
  else None.

Definition threeCycleForest : Forest := [plainTree "A"; plainTree "B"; plainTree "C"].

(** the view after the first rebuild with the editor on [A], all nodes expanded *)
Definition threeCycleView : View := Eval vm_compute in
  match buildGraph (mkEnv [] threeCycleFiles (Some "A")) threeCycleForest initialView with
  | Some (Normal v) => fst (expandAll v)
  | _ => initialView
  end.




(** the keys of the graph that a traversal has not yet put in [visited] *)
Definition unvisited (g : Nodes) (visited : list string) : nat :=
  List.length (filter (fun k => negb (Js.has k visited)) (Js.keys g)).



(** the loop of [nodeContainsChild] over the children *)
Fixpoint containsAmong (g : Nodes) (fuel : nat) (targetId : string) (cs : list string)
  (vis : list string) : option (bool * list string) :=
  match cs with
  | [] => Some (false, vis)
  | childId :: cs' =>
      match nodeContainsChild g fuel childId targetId vis with
      | Some (true, vis') => Some (true, vis')
      | Some (false, vis') => containsAmong g fuel targetId cs' vis'
      | None => None
      end
  end.

(** the loop of [renderNode] over the children *)
Fixpoint renderChildren (v : View) (fuel : nat) (depth : nat) (visited : list string)
  (cs : list string) (html : list Item) : option (list Item) :=
  match cs with
  | [] => Some html
  | childId :: cs' =>
      match renderNode v fuel childId (S depth) visited with
      | Some h => renderChildren v fuel depth visited cs' (html ++ h)
      | None => None
      end
  end.

(** *** coalesced reads *)









(** *** the edges of the graph *)

(** [x] transcludes [y] according to the node of [x]; [y] is transcluded by
    [x] according to the node of [y] *)
Definition transcludesEdge (g : Nodes) (x y : string) : Prop :=
  exists n, Js.get g x = Some n /\ In y (transcludes n).

Definition transcludedByEdge (g : Nodes) (x y : string) : Prop :=
  exists n, Js.get g y = Some n /\ In x (transcludedBy n).

(** the second pass changes the edge sets and nothing else *)
Definition sameEntries (g g' : Nodes) : Prop :=
  Js.keys g' = Js.keys g
  /\ forall k, option_map n_sourcePath (Js.get g' k) = option_map n_sourcePath (Js.get g k).

(** no edge set lists a uri twice *)
Definition edgeSetsNoDup (g : Nodes) : Prop :=
  forall x n, Js.get g x = Some n -> NoDup (transcludes n) /\ NoDup (transcludedBy n).

(** [y] can be reached from [x] along transclusions *)
Inductive reaches (g : Nodes) : string -> string -> Prop :=
| reaches_here (x : string) : reaches g x x
| reaches_step (x y z : string) : transcludesEdge g x y -> reaches g y z -> reaches g x z.

(** the targets named by the file of the node under [u]; none when the node
    is unknown or its file cannot be read *)
Definition targetsOf (env : Env) (g : Nodes) (u : string) : list string :=
  match Js.get g u with
  | Some node =>
      match readFileSync env (n_sourcePath node) with
      | Some content => transclusionsOf content
      | None => []
      end
  | None => []
  end.

(** what an answer [false] leaves in [visited]: the nodes it added have all
    their transclusions in the set, and none of these is the target *)
Definition explored (g : Nodes) (t : string) (vis vis' : list string) : Prop :=
  incl vis vis'
  /\ forall x, In x vis' -> ~ In x vis ->
               forall y, transcludesEdge g x y -> In y vis' /\ y <> t.

(** *** the text of a tree file *)

(** the character [c] does not occur in [s] *)
Definition lacks (c : ascii) (s : string) : Prop := ~ In c (list_ascii_of_string s).

Definition backslash : ascii := "\"%char.

(** the text [\transclude{id}] followed by [rest] *)
Definition transcludeOf (id rest : string) : string :=
  (directive ++ id ++ String closing rest)%string.

(** a line made of directives, each preceded by some text, and a tail *)
Fixpoint embed (items : list (string * string)) (tail : string) : string :=
  match items with
  | [] => tail
  | (sep, id) :: rest => (sep ++ transcludeOf id (embed rest tail))%string
  end.

(** the targets a single line contributes *)
Definition lineTargets (line : string) : list string :=
  if Js.startsWith "%" (Js.trimStart line) then [] else matchAll line.

(** the comment test of the second pass: the first character after the
    leading white space is [%] *)
Definition isCommentLine (line : string) : bool :=
  Js.startsWith "%" (Js.trimStart line).

(** the depth an item is drawn at *)
Definition itemDepth (i : Item) : nat :=
  match i with
  | EmptyNotice => 0
  | CycleItem depth _ => depth
  | TreeItem _ depth _ _ _ _ _ _ => depth
  end.

Definition isCycleItem (i : Item) : bool :=
  match i with
  | CycleItem _ _ => true
  | _ => false
  end.

(** *** the persisted view state *)

(** the gestures whose handler ends by saving the state, whatever it did *)
Definition savesState (op : Op) : bool :=
  match op with
  | Receive (Toggle _) | Receive (OpenFile _) | Receive (TogglePin _) => true
  | ToggleFocusMode | ExpandAll | CollapseAll => true
  | _ => false
  end.

(** the four persisted fields of two views agree *)
Definition sameViewState (v v' : View) : Prop :=
  expandedNodes v' = expandedNodes v
  /\ pinnedRootIds v' = pinnedRootIds v
  /\ focusMode v' = focusMode v
  /\ selectedNodeId v' = selectedNodeId v.

(** *** invariants of the cache under all events *)

(** every suspended function waits on a fetch that is still in flight, and
    [queryInProgressPromise], when set, is the promise of a fetch made *)
Definition noneStranded (s : Cache) : Prop :=
  (forall p k, In (p, k) (waiting s) ->
     exists ph, nth_error (fetches s) p = Some ph /\ pending ph = true)
  /\ (forall p, queryInProgressPromise s = Some p -> p < List.length (fetches s)).

(** the status reads updating only while the fetch started last still
    awaits its adapter *)
Definition updatingMeansFetching (s : Cache) : Prop :=
  forestStatus s = statusUpdating ->
  exists fs, fetches s = fs ++ [AwaitingAdapter].

Definition cached (s : Cache) : Prop := mostRecentQueryResult s <> None.

(** a settings object whose keys are written in lower case *)
Definition lowerCaseKeys (settings : Utils.TaxonSettings) : Utils.TaxonSettings :=
  map (fun kv => (Js.toLowerCase (fst kv), snd kv)) settings.

(** the uris of a forest, in order, entries without one left out *)
Definition urisOf (forest : Forest) : list string :=
  flat_map (fun e => match uri e with Some u => [u] | None => [] end) forest.

(** the forest [queryForest] makes of an answer in the old format *)
Definition oldFormat (entries : list (string * TreeBody)) : Forest :=
  map (fun ie => withUri (fst ie) (snd ie)) entries.

(** a run that ends well with an object in the old format *)
Definition succeedsOld (entries : list (string * TreeBody)) : AdapterRun :=
  mkRun (Closed (Some 0) None (Some (QObject entries))) "{}" "".

Definition plainBody (path : string) : TreeBody := mkBody None None [] "" [] path.

(** a line that is neither a title line nor a taxon line *)
Definition isOtherLine (line : string) : bool :=
  negb (EditForest.isTitleLine line) && negb (EditForest.isTaxonLine line).

(** the index, counted from [i], of the last line of [lines] that satisfies
    [p]; [d] when there is none *)
Fixpoint lastIndex (p : string -> bool) (lines : list string) (i : nat)
  (d : option nat) : option nat :=
  match lines with
  | [] => d
  | line :: rest => lastIndex p rest (S i) (if p line then Some i else d)
  end.

(** line [k] is the last line that satisfies [p] *)
Definition lastAt (p : string -> bool) (lines : list string) (k : nat) : Prop :=
  exists x, nth_error lines k = Some x /\ p x = true
            /\ forall m y, k < m -> nth_error lines m = Some y -> p y = false.

Definition count (p : string -> bool) (lines : list string) : nat :=
  List.length (filter p lines).

(** line [k] is [v], the last line that satisfies [p] *)
Definition lastIs (p : string -> bool) (lines : list string) (k : nat) (v : string) : Prop :=
  nth_error lines k = Some v /\ p v = true
  /\ forall m y, k < m -> nth_error lines m = Some y -> p y = false.

(** the text [command id }] followed by [rest], for a command such as
    [\import{] *)
Definition referenceOf (command id rest : string) : string :=
  (command ++ id ++ String closing rest)%string.

(** a line made of references, each preceded by some text, and a tail *)
Fixpoint references (items : list (string * string * string)) (tail : string) : string :=
  match items with
  | [] => tail
  | (sep, command, id) :: rest =>
      (sep ++ referenceOf command id (references rest tail))%string
  end.

(** ** Helper lemmas on the collection primitives *)

Lemma has_true_iff (x : string) (l : list string) : Js.has x l = true <-> In x l.
Proof.
  unfold Js.has. rewrite existsb_exists. split.
  - intros [y [Hy He]]. apply String.eqb_eq in He. now subst.
  - intros H. exists x. split; [assumption | apply String.eqb_refl].
Qed.

Lemma has_false_iff (x : string) (l : list string) : Js.has x l = false <-> ~ In x l.
Proof.
  rewrite <- has_true_iff. destruct (Js.has x l); split; intros; congruence.
Qed.

Lemma delete_not_in (x : string) (l : list string) : ~ In x (Js.delete x l).
Proof.
  unfold Js.delete. rewrite filter_In. intros [_ H].
  rewrite String.eqb_refl in H. discriminate.
Qed.

Lemma delete_keeps (x y : string) (l : list string) :
  y <> x -> In y l -> In y (Js.delete x l).
Proof.
  intros Hne Hin. unfold Js.delete. rewrite filter_In. split; [assumption|].
  apply String.eqb_neq in Hne. now rewrite Hne.
Qed.

Lemma get_in_keys {A} (g : list (string * A)) (k : string) (v : A) :
  Js.get g k = Some v -> In k (Js.keys g).
Proof.
  induction g as [|[k' v'] r IH]; simpl; [discriminate|].
  destruct (String.eqb k' k) eqn:E.
  - apply String.eqb_eq in E. intros _. now left.
  - intros H. right. now apply IH.
Qed.

(** ** findRoot *)

Lemma findRootLoop_finishes (g : Nodes) (treeId : string) :
  forall fuel visited current,
    NoDup visited -> incl visited (Js.keys g) ->
    List.length (Js.keys g) < fuel + List.length visited ->
    exists r, findRootLoop g treeId fuel visited current = Some r.
Proof.
  induction fuel as [|fuel IH]; intros visited current Hnd Hincl Hlen.
  - pose proof (NoDup_incl_length Hnd Hincl). simpl in Hlen. lia.
  - simpl. destruct (Js.has current visited) eqn:Hv; [eauto|].
    destruct (Js.get g current) as [node|] eqn:Hg; [|eauto].
    destruct (transcludedBy node) as [|parent rest]; [eauto|].
    apply has_false_iff in Hv.
    apply IH.
    + unfold Js.add. apply has_false_iff in Hv. rewrite Hv.
      apply NoDup_app; [assumption | repeat constructor; simpl; tauto |].
      intros x Hx [Hy|[]]. subst. apply has_false_iff in Hv. tauto.
    + unfold Js.add. apply has_false_iff in Hv. rewrite Hv.
      apply incl_app; [assumption|]. intros x [Hx|[]]. subst.
      eapply get_in_keys; eauto.
    + unfold Js.add. apply has_false_iff in Hv. rewrite Hv.
      rewrite length_app. simpl. lia.
Qed.

Lemma findRoot_finishes (g : Nodes) (treeId : string) :
  exists r, findRoot g treeId = Some r.
Proof.
  unfold findRoot. destruct (Js.get g treeId) as [node|]; [|eauto].
  destruct (transcludedBy node); [eauto|].
  apply findRootLoop_finishes; [constructor | intros x [] |].
  unfold Js.keys. rewrite length_map. simpl. lia.
Qed.
Lemma ancestor_add (g : Nodes) (a b : nat) (x y : string) :
  ancestor g a x = Some y -> ancestor g (a + b) x = ancestor g b y.
Proof.
  revert x. induction a as [|a IH]; simpl; intros x H.
  - now inversion H.
  - destruct (parentOf g x); [now apply IH | discriminate].
Qed.

Lemma ancestor_prefix (g : Nodes) (a b : nat) (x : string) :
  ancestor g (a + b) x <> None -> ancestor g a x <> None.
Proof.
  revert x. induction a as [|a IH]; simpl; intros x H; [discriminate|].
  destruct (parentOf g x); [now apply IH | assumption].
Qed.

Lemma ancestor_succ (g : Nodes) (k : nat) (x y : string) :
  ancestor g k x = Some y -> ancestor g (S k) x = parentOf g y.
Proof.
  intros H. replace (S k) with (k + 1) by lia.
  rewrite (ancestor_add _ _ _ _ _ H). simpl. now destruct (parentOf g y).
Qed.

Lemma ancestor_loop_forever (g : Nodes) (d : nat) (y : string) :
  0 < d -> ancestor g d y = Some y -> forall k, ancestor g k y <> None.
Proof.
  intros Hd Hloop.
  assert (Hn : forall n, ancestor g (n * d) y = Some y).
  { induction n as [|n IH]; [reflexivity|].
    replace (S n * d) with (n * d + d) by lia.
    now rewrite (ancestor_add _ _ _ _ _ IH). }
  intros k. apply (ancestor_prefix g k (k * d - k)).
  replace (k + (k * d - k)) with (k * d) by nia.
  rewrite Hn. discriminate.
Qed.

Lemma ancestor_revisit_forever (g : Nodes) (i j : nat) (x y : string) :
  i < j -> ancestor g i x = Some y -> ancestor g j x = Some y ->
  forall k, ancestor g k x <> None.
Proof.
  intros Hij Hi Hj k.
  assert (Hloop : ancestor g (j - i) y = Some y).
  { rewrite <- (ancestor_add _ _ _ _ _ Hi). now replace (i + (j - i)) with j by lia. }
  destruct (Nat.le_gt_cases k i) as [Hk|Hk].
  - apply (ancestor_prefix g k (i - k)). replace (k + (i - k)) with i by lia.
    rewrite Hi. discriminate.
  - replace k with (i + (k - i)) by lia. rewrite (ancestor_add _ _ _ _ _ Hi).
    apply ancestor_loop_forever with (d := j - i); [lia | assumption].
Qed.

(** the loop answers the origin, or a node of the chain that has no parent *)
Lemma findRootLoop_answer (g : Nodes) (treeId : string) :
  forall fuel visited current r,
    findRootLoop g treeId fuel visited current = Some r ->
    r = treeId \/ exists k, ancestor g k current = Some r /\ parentOf g r = None.
Proof.
  induction fuel as [|fuel IH]; simpl; intros visited current r H; [discriminate|].
  destruct (Js.has current visited); [left; congruence|].
  destruct (Js.get g current) as [node|] eqn:Hg.
  - destruct (transcludedBy node) as [|parent rest] eqn:Ht.
    + inversion H; subst. right. exists 0. split; [reflexivity|].
      unfold parentOf. now rewrite Hg, Ht.
    + destruct (IH _ _ _ H) as [->|[k [Hk Hp]]]; [now left|].
      right. exists (S k). split; [|assumption].
      simpl. unfold parentOf. now rewrite Hg, Ht.
  - inversion H; subst. right. exists 0. split; [reflexivity|].
    unfold parentOf. now rewrite Hg.
Qed.

(** C7. [findRoot] ends within [length g + 1] iterations of its loop on every
    graph; a node without incoming reference is its own root; and when the
    chain of first parents comes back to a node already walked, the answer
    is the origin of the walk. *)
Theorem findRoot_bounded_and_cycle_safe (g : Nodes) (treeId : string) :
  (exists r, findRoot g treeId = Some r)
  /\ (forall node, Js.get g treeId = Some node -> transcludedBy node = [] ->
        findRoot g treeId = Some treeId)
  /\ (forall i j y, i < j -> ancestor g i treeId = Some y ->
        ancestor g j treeId = Some y -> findRoot g treeId = Some treeId).
Proof.
  split; [apply findRoot_finishes|]. split.
  - intros node Hg Ht. unfold findRoot. now rewrite Hg, Ht.
  - intros i j y Hij Hi Hj.
    destruct (findRoot_finishes g treeId) as [r Hr]. rewrite Hr. f_equal.
    unfold findRoot in Hr.
    destruct (Js.get g treeId) as [node|]; [|congruence].
    destruct (transcludedBy node); [congruence|].
    destruct (findRootLoop_answer _ _ _ _ _ _ Hr) as [->|[k [Hk Hp]]]; [reflexivity|].
    exfalso. apply (ancestor_revisit_forever g i j treeId y Hij Hi Hj (S k)).
    now rewrite (ancestor_succ _ _ _ _ Hk).
Qed.

Lemma findRoot_bounded_and_cycle_safe_witness :
  findRoot ring "a" = Some "a".
Proof.
  apply (proj2 (proj2 (findRoot_bounded_and_cycle_safe ring "a")) 0 3 "a");
    [lia | reflexivity | reflexivity].
Defined.

(** ** Pinning *)

(** C6. An explicit [togglePin] of a node that is not pinned leaves the pins
    as they are and shows the capacity warning when [MAX_PINNED_ROOTS] pins
    are held, and appends the node and expands it when fewer are held; on a
    pinned node it removes the node and keeps the other pins. *)
Theorem togglePin_capacity (v : View) (nodeId : string) :
  exists v' effects,
    onDidReceiveMessage v (TogglePin nodeId) = Some (v', effects)
    /\ (Js.has nodeId (pinnedRootIds v) = false ->
        MAX_PINNED_ROOTS <= List.length (pinnedRootIds v) ->
        pinnedRootIds v' = pinnedRootIds v
        /\ expandedNodes v' = expandedNodes v
        /\ In (ShowWarningMessage "Cannot pin more than 10 roots") effects)
    /\ (Js.has nodeId (pinnedRootIds v) = false ->
        List.length (pinnedRootIds v) < MAX_PINNED_ROOTS ->
        pinnedRootIds v' = pinnedRootIds v ++ [nodeId]
        /\ List.length (pinnedRootIds v') <= MAX_PINNED_ROOTS
        /\ In nodeId (expandedNodes v')
        /\ (forall m, ~ In (ShowWarningMessage m) effects))
    /\ (Js.has nodeId (pinnedRootIds v) = true ->
        ~ In nodeId (pinnedRootIds v')
        /\ (forall id, id <> nodeId -> In id (pinnedRootIds v) -> In id (pinnedRootIds v'))
        /\ (forall m, ~ In (ShowWarningMessage m) effects)).
Proof.
  simpl. unfold togglePin.
  destruct (Js.has nodeId (pinnedRootIds v)) eqn:Hpin.
  - eexists. eexists. split; [reflexivity|].
    split; [discriminate|]. split; [discriminate|]. intros _. simpl.
    split; [apply delete_not_in|]. split.
    + intros id Hne Hin. now apply delete_keeps.
    + intros m [H|[H|[]]]; discriminate.
  - destruct (Nat.leb MAX_PINNED_ROOTS (List.length (pinnedRootIds v))) eqn:Hfull.
    + eexists. eexists. split; [reflexivity|].
      apply Nat.leb_le in Hfull.
      split; [|split; [intros _ Hlt; lia | discriminate]].
      intros _ _. simpl. repeat split; try reflexivity. now left.
    + eexists. eexists. split; [reflexivity|].
      apply Nat.leb_gt in Hfull.
      split; [intros _ Hle; lia|]. split; [|discriminate].
      intros _ _. simpl. split; [reflexivity|]. split.
      * rewrite length_app. simpl. lia.
      * split.
        -- unfold Js.add. destruct (Js.has nodeId (expandedNodes v)) eqn:He.
           ++ now apply has_true_iff.
           ++ apply in_or_app. right. now left.
        -- intros m [H|[H|[]]]; discriminate.
Qed.

Lemma togglePin_capacity_witness :
  exists v' effects,
    onDidReceiveMessage (setPinned initialView tenIds []) (TogglePin "t10") = Some (v', effects)
    /\ pinnedRootIds v' = tenIds
    /\ In (ShowWarningMessage "Cannot pin more than 10 roots") effects.
Proof.
  destruct (togglePin_capacity (setPinned initialView tenIds []) "t10")
    as [v' [effects [H [Hfull _]]]].
  exists v', effects. split; [exact H|].
  destruct (Hfull eq_refl) as [Hp [_ Hw]]; [vm_compute; lia|].
  split; [exact Hp | exact Hw].
Defined.

(** C5, at the failing input. With ten roots pinned and the unpinned root
    [t10] of the active document on display, a click on the chevron of [t10]
    or on its label has [autoPinOnInteraction] pin an eleventh root;
    [pinToCurrentFile] does the same. *)
Theorem autoPin_exceeds_limit :
  exists v,
    performAll initialView pinTen = Some v
    /\ pinnedRootIds v = tenIds
    /\ List.length (pinnedRootIds v) = MAX_PINNED_ROOTS
    /\ currentRootIds v = elevenIds
    /\ (exists v', perform v (Receive (Toggle "t10")) = Some v'
                   /\ pinnedRootIds v' = elevenIds
                   /\ MAX_PINNED_ROOTS < List.length (pinnedRootIds v'))
    /\ (exists v', perform v (Receive (OpenFile "t10")) = Some v'
                   /\ MAX_PINNED_ROOTS < List.length (pinnedRootIds v'))
    /\ (exists v', perform v (PinToCurrentFile (opening "t10")) = Some v'
                   /\ MAX_PINNED_ROOTS < List.length (pinnedRootIds v')).
Proof.
  eexists. split; [vm_compute; reflexivity|].
  split; [reflexivity|]. split; [reflexivity|]. split; [reflexivity|].
  repeat split; eexists; (split; [vm_compute; reflexivity|]);
    repeat split; vm_compute; lia.
Qed.

(** ** revealNode *)

Lemma findPath_twoCycle_diverges (v : View) :
  nodes v = nodes twoCycleView -> currentRootIds v = [] ->
  forall fuel, findPath v fuel "A" = None /\ findPath v fuel "B" = None.
Proof.
  intros Hn Hr. induction fuel as [|fuel [IHa IHb]]; [split; reflexivity|].
  split; cbn [findPath]; rewrite Hr, Hn; cbn; [now rewrite IHb | now rewrite IHa].
Qed.

(** C8, at the failing input. On the graph where [A] and [B] transclude each
    other and neither is under a current root, [findPath] calls itself on
    [B], on [A], on [B], ... without end: no call depth is enough for
    [revealNode] to return. *)
Theorem revealNode_diverges_on_cycle :
  buildGraph (mkEnv [] twoCycleFiles None) [plainTree "A"; plainTree "B"] initialView
    = Some (Normal twoCycleView)
  /\ Js.get (nodes twoCycleView) "A" <> None
  /\ currentRootIds twoCycleView = []
  /\ forall fuel,
       revealNode twoCycleView fuel "A" = None
       /\ updateSelectionFromEditor twoCycleView fuel (Some "A") = None.
Proof.
  split; [vm_compute; reflexivity|].
  split; [vm_compute; discriminate|]. split; [reflexivity|].
  intros fuel. split.
  - unfold revealNode.
    now rewrite (proj1 (findPath_twoCycle_diverges twoCycleView eq_refl eq_refl fuel)).
  - unfold updateSelectionFromEditor, revealNode.
    destruct (Js.get (nodes twoCycleView) "A") eqn:Hg; [|vm_compute in Hg; discriminate].
    now rewrite (proj1 (findPath_twoCycle_diverges
                          (setSelected twoCycleView (Some "A")) eq_refl eq_refl fuel)).
Qed.

(** ** buildGraph: the resolution map *)

Lemma get_set_same {A} (g : list (string * A)) (k : string) (v : A) :
  Js.get (Js.set g k v) k = Some v.
Proof.
  induction g as [|[k' v'] r IH]; simpl.
  - now rewrite String.eqb_refl.
  - destruct (String.eqb k' k) eqn:E; simpl; now rewrite E.
Qed.

Lemma get_set_other {A} (g : list (string * A)) (k k0 : string) (v : A) :
  k <> k0 -> Js.get (Js.set g k v) k0 = Js.get g k0.
Proof.
  intros Hne. induction g as [|[k' v'] r IH]; simpl.
  - apply String.eqb_neq in Hne. now rewrite Hne.
  - destruct (String.eqb k' k) eqn:E; simpl.
    + apply String.eqb_eq in E. subst k'.
      apply String.eqb_neq in Hne. now rewrite Hne.
    + destruct (String.eqb k' k0); [reflexivity | exact IH].
Qed.

Lemma truthy_false (o : option string) :
  Js.truthy o = false <-> o = None \/ o = Some "".
Proof.
  destruct o as [s|]; simpl.
  - destruct (String.eqb s "") eqn:E; simpl.
    + apply String.eqb_eq in E. subst. intuition.
    + apply String.eqb_neq in E. split; [discriminate|].
      intros [H|H]; [discriminate | inversion H; contradiction].
  - intuition.
Qed.

Lemma truthy_true (o : option string) :
  Js.truthy o = true <-> exists s, o = Some s /\ s <> "".
Proof.
  destruct o as [s|]; simpl.
  - destruct (String.eqb s "") eqn:E; simpl.
    + apply String.eqb_eq in E. subst. split; [discriminate|].
      intros [s [H Hn]]. inversion H. subst. contradiction.
    + apply String.eqb_neq in E. split; [eauto | reflexivity].
  - split; [discriminate | intros [s [H _]]; discriminate].
Qed.

Lemma resolutionMap_app (settings : Utils.TaxonSettings) (l1 l2 : Forest) :
  forall g,
    resolutionMap settings (l1 ++ l2) g =
    match resolutionMap settings l1 g with
    | Normal g1 => resolutionMap settings l2 g1
    | Throw g1 m => Throw g1 m
    end.
Proof.
  induction l1 as [|e l1 IH]; intros g; cbn [resolutionMap app]; [reflexivity|].
  destruct (uri e) as [u|]; [|reflexivity].
  destruct (Js.truthy (Some u)); [apply IH | reflexivity].
Qed.

Lemma resolutionMap_completes (settings : Utils.TaxonSettings) (l : Forest) :
  (forall e, In e l -> Js.truthy (uri e) = true) ->
  forall g, exists g', resolutionMap settings l g = Normal g'.
Proof.
  induction l as [|e l IH]; intros Hall g; cbn [resolutionMap]; [eauto|].
  pose proof (Hall e (or_introl eq_refl)) as He.
  destruct (uri e) as [u|]; [|discriminate]. rewrite He.
  apply IH. intros e' H'. apply Hall. now right.
Qed.

Lemma first_without_uri (l : Forest) :
  (exists e, In e l /\ Js.truthy (uri e) = false) ->
  exists pre bad post,
    l = pre ++ bad :: post
    /\ (forall e, In e pre -> Js.truthy (uri e) = true)
    /\ Js.truthy (uri bad) = false.
Proof.
  induction l as [|x l IH]; intros [e [Hin He]]; [destruct Hin|].
  destruct (Js.truthy (uri x)) eqn:Hx.
  - destruct Hin as [->|Hin]; [congruence|].
    destruct IH as [pre [bad [post [Hl [Hpre Hbad]]]]]; [eauto|].
    exists (x :: pre), bad, post. subst l. split; [reflexivity|]. split; [|assumption].
    intros e' [->|H']; [assumption | now apply Hpre].
  - exists [], x, l. split; [reflexivity|]. split; [intros ? []|assumption].
Qed.

Lemma resolutionMap_throws_at (settings : Utils.TaxonSettings) (bad : ForesterTree)
  (post : Forest) (g : Nodes) :
  Js.truthy (uri bad) = false ->
  resolutionMap settings (bad :: post) g = Throw g "Unexpected lack of uri".
Proof.
  intros H. cbn [resolutionMap]. destruct (uri bad) as [u|]; [|reflexivity]. now rewrite H.
Qed.

(** every node of the map comes from the map before or from an entry read *)
Lemma resolutionMap_nodes (settings : Utils.TaxonSettings) (l : Forest) :
  forall g g' u node,
    resolutionMap settings l g = Normal g' ->
    Js.get g' u = Some node ->
    Js.get g u = Some node
    \/ exists e, In e l /\ uri e = Some u /\ node = makeNode settings e u.
Proof.
  induction l as [|e l IH]; cbn [resolutionMap In]; intros g g' u node Hr Hg.
  - inversion Hr; subst. now left.
  - destruct (uri e) as [u0|] eqn:Hu; [|discriminate].
    destruct (Js.truthy (Some u0)); [|discriminate].
    destruct (IH _ _ _ _ Hr Hg) as [H|[e' [Hin [Hu' Hn]]]].
    + destruct (String.eqb u0 u) eqn:E.
      * apply String.eqb_eq in E. subst u0. rewrite get_set_same in H.
        inversion H. right. exists e. auto.
      * apply String.eqb_neq in E. rewrite get_set_other in H by assumption. now left.
    + right. exists e'. auto.
Qed.

(** the last entry read for a uri decides the node stored under it *)
Lemma resolutionMap_last (settings : Utils.TaxonSettings) (post : Forest) :
  forall g g' u,
    resolutionMap settings post g = Normal g' ->
    (forall e, In e post -> uri e <> Some u) ->
    Js.get g' u = Js.get g u.
Proof.
  induction post as [|e l IH]; cbn [resolutionMap]; intros g g' u Hr Hno.
  - now inversion Hr.
  - destruct (uri e) as [u0|] eqn:Hu; [|discriminate].
    destruct (Js.truthy (Some u0)); [|discriminate].
    rewrite (IH _ _ _ Hr) by (intros e' H'; apply Hno; now right).
    apply get_set_other. intros ->. apply (Hno e); [now left | assumption].
Qed.

(** ** buildGraph: the second pass keeps what the first pass stored *)

Lemma get_update (g : Nodes) (k k0 : string) (f : TreeNode -> TreeNode) :
  Js.get (update g k f) k0 =
  match Js.get g k0 with
  | Some n => Some (if String.eqb k k0 then f n else n)
  | None => None
  end.
Proof.
  induction g as [|[k' n] r IH]; simpl; [reflexivity|].
  destruct (String.eqb k' k) eqn:E; simpl.
  - apply String.eqb_eq in E. subst k'.
    destruct (String.eqb k k0); [reflexivity | now destruct (Js.get r k0)].
  - destruct (String.eqb k' k0) eqn:E0; [|exact IH].
    apply String.eqb_eq in E0. subst k'.
    assert (Hk : String.eqb k k0 = false).
    { apply String.eqb_neq. apply String.eqb_neq in E. congruence. }
    now rewrite Hk.
Qed.

Lemma sameTitles_refl (g : Nodes) : sameTitles g g.
Proof. intros k. reflexivity. Qed.

Lemma sameTitles_trans (g1 g2 g3 : Nodes) :
  sameTitles g1 g2 -> sameTitles g2 g3 -> sameTitles g1 g3.
Proof. intros H12 H23 k. now rewrite H23, H12. Qed.

Lemma update_sameTitles (g : Nodes) (k : string) (f : TreeNode -> TreeNode) :
  (forall n, n_title (f n) = n_title n) -> sameTitles g (update g k f).
Proof.
  intros Hf k0. rewrite get_update. destruct (Js.get g k0) as [n|]; [|reflexivity].
  simpl. destruct (String.eqb k k0); [now rewrite Hf | reflexivity].
Qed.

Lemma addEdge_sameTitles (u : string) (g : Nodes) (t : string) :
  sameTitles g (addEdge u g t).
Proof.
  unfold addEdge. destruct (Js.get g t); [|apply sameTitles_refl].
  eapply sameTitles_trans; apply update_sameTitles; reflexivity.
Qed.

Lemma fold_sameTitles {A} (f : Nodes -> A -> Nodes) (l : list A) :
  (forall g a, sameTitles g (f g a)) ->
  forall g, sameTitles g (fold_left f l g).
Proof.
  intros Hf. induction l as [|a l IH]; intros g; simpl; [apply sameTitles_refl|].
  eapply sameTitles_trans; [apply Hf | apply IH].
Qed.

Lemma parseTransclusions_sameTitles (env : Env) (g : Nodes) :
  sameTitles g (parseTransclusions env g).
Proof.
  unfold parseTransclusions. apply fold_sameTitles. intros g0 u.
  unfold parseNode. destruct (Js.get g0 u) as [node|]; [|apply sameTitles_refl].
  destruct (readFileSync env (n_sourcePath node)); [|apply sameTitles_refl].
  apply fold_sameTitles. intros g1 t. apply addEdge_sameTitles.
Qed.

(** ** The display title *)

Lemma abbreviation_nonempty (settings : Utils.TaxonSettings) (t : string) :
  t <> "" -> Utils.abbreviationTruthy (Utils.getTaxonAbbreviation settings (Some t)) = true.
Proof.
  intros Ht. unfold Utils.getTaxonAbbreviation.
  apply String.eqb_neq in Ht. rewrite Ht.
  destruct (Js.truthy (Utils.customAbbreviation settings (Js.toLowerCase t))) eqn:Hc.
  - destruct (Utils.customAbbreviation settings (Js.toLowerCase t)); [exact Hc | discriminate].
  - destruct (Utils.propertyTruthy (Utils.lookup Utils.TAXON_MAP (Js.toLowerCase t))) eqn:Hm.
    + destruct (Utils.lookup Utils.TAXON_MAP (Js.toLowerCase t));
        [exact Hm | reflexivity | reflexivity].
    + destruct t as [|c r]; [discriminate | reflexivity].
Qed.

Lemma baseTitle_amended (entry : ForesterTree) (u : string) :
  baseTitle entry u = amendedBaseTitle entry u.
Proof.
  unfold baseTitle, amendedBaseTitle. destruct (title entry) as [t|]; [|reflexivity].
  simpl. destruct (String.eqb t ""); reflexivity.
Qed.

Lemma displayTitle_amended (settings : Utils.TaxonSettings) (entry : ForesterTree)
  (u : string) :
  displayTitle settings entry u = amendedTitle settings entry u.
Proof.
  unfold displayTitle, amendedTitle. rewrite baseTitle_amended.
  destruct (taxon entry) as [t|]; [|reflexivity].
  destruct (String.eqb t "") eqn:E.
  - apply String.eqb_eq in E. subst t. reflexivity.
  - apply String.eqb_neq in E. now rewrite (abbreviation_nonempty settings t E).
Qed.

(** a taxon that names a property [TAXON_MAP] inherits is shown by the text
    of the inherited value *)
Lemma displayTitle_constructor :
  displayTitle [] (mkTree (Some "T") (Some "constructor") [] "" [] "c.tree" (Some "c")) "c"
  = "function Object() { [native code] }: T".
Proof. reflexivity. Qed.

(** C9, as amended. When the rebuild completes, the node stored under the
    uri of a tree (the last tree of the forest with that uri, should several
    share it) has for title the base title, preceded by what
    [getTaxonAbbreviation] returns for the taxon, written as text, and by
    [": "] when the taxon is a non-empty string; the base title is the uri
    when the title is null, absent, empty or contains [http://] or
    [https://], and the title otherwise. *)
Theorem buildGraph_display_title (env : Env) (forest pre post : Forest)
  (e : ForesterTree) (u : string) (v v' : View) :
  buildGraph env forest v = Some (Normal v') ->
  forest = pre ++ e :: post ->
  uri e = Some u ->
  (forall e', In e' post -> uri e' <> Some u) ->
  exists node,
    Js.get (nodes v') u = Some node
    /\ n_title node = amendedTitle (taxonCustomization env) e u.
Proof.
  intros Hb Hf Hu Hlast. unfold buildGraph in Hb.
  destruct (resolutionMap (taxonCustomization env) forest []) as [g0|g0 m] eqn:Hr;
    [|inversion Hb].
  destruct (determineRoots _ _ _) as [roots|]; [|discriminate].
  inversion Hb; subst v'; clear Hb. cbn [nodes].
  subst forest. rewrite resolutionMap_app in Hr.
  destruct (resolutionMap (taxonCustomization env) pre []) as [g1|g1 m] eqn:Hpre;
    [|discriminate].
  cbn [resolutionMap] in Hr. rewrite Hu in Hr.
  destruct (Js.truthy (Some u)); [|discriminate].
  pose proof (resolutionMap_last _ _ _ _ u Hr Hlast) as Hg0.
  rewrite get_set_same in Hg0.
  pose proof (parseTransclusions_sameTitles env g0 u) as Ht.
  rewrite Hg0 in Ht. simpl in Ht.
  destruct (Js.get (parseTransclusions env g0) u) as [node|]; [|discriminate].
  exists node. split; [reflexivity|].
  simpl in Ht. inversion Ht as [Hn]. rewrite Hn. apply displayTitle_amended.
Qed.

Lemma buildGraph_display_title_witness :
  (exists node,
     Js.get (nodes stokesView) "s" = Some node
     /\ n_title node = amendedTitle [] stokes "s")
  /\ amendedTitle [] stokes "s" = "thm: Stokes".
Proof.
  split; [|reflexivity].
  apply (buildGraph_display_title (editing None) [plainTree "a"; stokes]
           [plainTree "a"] [] stokes "s" initialView stokesView).
  - vm_compute. reflexivity.
  - reflexivity.
  - reflexivity.
  - intros e' [].
Defined.

(** C9 as stated fails on a tree whose title is the empty string: the claim
    gives it the title [thm: ] and the node shows [thm: a]. *)
Lemma display_title_empty_string :
  exists v' node,
    buildGraph (editing None) [emptyTitled] initialView = Some (Normal v')
    /\ Js.get (nodes v') "a" = Some node
    /\ n_title node = "thm: a"
    /\ claimedTitle [] emptyTitled "a" = "thm: "
    /\ n_title node <> claimedTitle [] emptyTitled "a".
Proof.
  eexists. eexists. split; [vm_compute; reflexivity|].
  split; [vm_compute; reflexivity|].
  split; [reflexivity|]. split; [reflexivity|]. vm_compute. discriminate.
Qed.

(** ** buildGraph and the uri of the entries *)

Lemma determineRoots_finishes (g : Nodes) (pinned : list string) (cur : option string) :
  exists roots, determineRoots g pinned cur = Some roots.
Proof.
  unfold determineRoots. destruct cur as [id|]; [|eauto].
  destruct (Js.truthy (Some id)); [|eauto].
  destruct (match Js.get g id with
            | Some node => _
            | None => false
            end); [eauto|].
  destruct (findRoot_finishes g id) as [r Hr]. rewrite Hr. eauto.
Qed.

(** C10. [buildGraph] throws as soon as it reads an entry whose uri is
    missing or empty: the map then holds the edge-less nodes of the entries
    before that one and nothing for the entries from it on, and the roots and
    the rest of the view state are as before. On a forest whose entries all
    have a non-empty uri it completes. A build artifact with an empty uri
    passes [getForestFromBuild] and makes [buildGraph] throw. *)
Theorem buildGraph_uri_guard (env : Env) (forest : Forest) (v : View) :
  ((exists e, In e forest /\ (uri e = None \/ uri e = Some "")) ->
   exists pre bad post v',
     forest = pre ++ bad :: post
     /\ (forall e, In e pre -> exists u, uri e = Some u /\ u <> "")
     /\ (uri bad = None \/ uri bad = Some "")
     /\ buildGraph env forest v = Some (Throw v' "Unexpected lack of uri")
     /\ resolutionMap (taxonCustomization env) pre [] = Normal (nodes v')
     /\ (forall u node, Js.get (nodes v') u = Some node ->
           transcludes node = [] /\ transcludedBy node = []
           /\ exists e, In e pre /\ uri e = Some u)
     /\ currentRootIds v' = currentRootIds v
     /\ expandedNodes v' = expandedNodes v
     /\ pinnedRootIds v' = pinnedRootIds v)
  /\ ((forall e, In e forest -> exists u, uri e = Some u /\ u <> "") ->
      exists v', buildGraph env forest v = Some (Normal v'))
  /\ (exists v', getForestFromBuild (Some (ParsedTo (AnArray [emptyUri]))) = Some [emptyUri]
                 /\ buildGraph env [emptyUri] v = Some (Throw v' "Unexpected lack of uri")).
Proof.
  split; [|split].
  - intros [e [Hin He]].
    destruct (first_without_uri forest) as [pre [bad [post [Hf [Hpre Hbad]]]]].
    { exists e. split; [assumption | now apply truthy_false]. }
    destruct (resolutionMap_completes (taxonCustomization env) pre Hpre []) as [g1 Hg1].
    exists pre, bad, post. eexists.
    split; [exact Hf|].
    split; [intros e' He'; apply truthy_true; now apply Hpre|].
    split; [now apply truthy_false|].
    unfold buildGraph. subst forest. rewrite resolutionMap_app, Hg1.
    rewrite (resolutionMap_throws_at _ _ _ _ Hbad).
    split; [reflexivity|]. cbn [nodes currentRootIds expandedNodes pinnedRootIds].
    split; [reflexivity|]. split; [|auto].
    intros u node Hg.
    destruct (resolutionMap_nodes _ _ _ _ _ _ Hg1 Hg) as [H|[e' [Hin' [Hu Hn]]]];
      [discriminate|].
    subst node. simpl. eauto.
  - intros Hall.
    destruct (resolutionMap_completes (taxonCustomization env) forest) with (g := @nil (string * TreeNode))
      as [g0 Hg0].
    { intros e He. apply truthy_true. now apply Hall. }
    unfold buildGraph. rewrite Hg0.
    destruct (determineRoots_finishes (parseTransclusions env g0) (pinnedRootIds v)
                (activeTreeId env)) as [roots Hr].
    rewrite Hr. eauto.
  - eexists. split; reflexivity.
Qed.

Lemma buildGraph_uri_guard_witness :
  exists v', buildGraph (editing None) [plainTree "a"] initialView = Some (Normal v').
Proof.
  apply (proj1 (proj2 (buildGraph_uri_guard (editing None) [plainTree "a"] initialView))).
  intros e [<-|[]]. exists "a". split; [reflexivity | discriminate].
Defined.

(** ** queryForest *)

Lemma resolution_failed (run : AdapterRun) :
  adapterFailed run -> exists message, resolution run = inr message.
Proof.
  unfold adapterFailed, resolution. destruct (event run) as [|m|code signal parsed].
  - eauto.
  - eauto.
  - intros H. destruct signal as [sg|]; [eauto|].
    destruct code as [[|n]|]; simpl; eauto.
    destruct parsed; [|eauto]. destruct H as [H|[H|H]]; congruence.
Qed.

(** C3, as amended. A fetch that got as far as spawning the process, with a
    workspace folder open, and whose adapter failed returns, and does not
    throw: the cached result if there is one, else the build artifact if it
    is an array whose elements all have a string for uri (the empty string
    passes), else the empty forest; the status becomes invalid with the
    reason. A fetch whose adapter succeeded with an array or an id-keyed
    object returns a forest and the status becomes valid. *)
Theorem queryForest_fallback (workspaceFolders : list string) (status : Status)
  (lastGood : option Forest) (run : AdapterRun) (artifact : option ArtifactRead) :
  workspaceFolders <> [] ->
  (adapterFailed run ->
   exists message,
     resolution run = inr message
     /\ queryForest workspaceFolders status (Some run) lastGood artifact =
        (statusInvalid (errorMessageOf run message),
         Returns (amendedFallback lastGood artifact)))
  /\ (forall data, event run = Closed (Some 0) None (Some data) -> data <> QNull ->
      exists forest,
        queryForest workspaceFolders status (Some run) lastGood artifact
        = (statusValid, Returns forest)).
Proof.
  intro Hw. destruct workspaceFolders as [|root folders]; [contradiction|].
  unfold queryForest. cbn [getRoot]. split.
  - intros Hf. destruct (resolution_failed run Hf) as [message Hm].
    exists message. split; [assumption|].
    unfold awaitAdapter, afterAdapter. rewrite Hm.
    unfold amendedFallback, amendedArtifact.
    destruct lastGood as [forest|]; [reflexivity|].
    destruct artifact as [read|]; [|reflexivity]. simpl.
    unfold afterArtifact, readBuild.
    destruct read as [| |[|data]]; reflexivity.
  - intros data He Hd. unfold awaitAdapter, afterAdapter, resolution. rewrite He. simpl.
    destruct data as [forest|entries|]; [eauto | eauto | contradiction].
Qed.

Lemma queryForest_fallback_witness :
  exists message,
    resolution timedOut = inr message
    /\ queryForest ["/forest"] statusUpdating (Some timedOut) None
                   (Some (ParsedTo (AnArray [plainTree "a"])))
       = (statusInvalid (errorMessageOf timedOut message), Returns [plainTree "a"]).
Proof.
  apply (proj1 (queryForest_fallback ["/forest"] statusUpdating None timedOut
                  (Some (ParsedTo (AnArray [plainTree "a"]))) ltac:(discriminate))).
  exact I.
Defined.

(** C3 as stated fails: an artifact whose element has the empty string for
    uri is returned, where the claim falls through to the empty forest. And
    [queryForest] does throw: when the process prints [null] and exits with
    0, when no workspace folder is open, and when the process cannot be
    spawned; in the last two cases the status is left as it was. *)
Lemma queryForest_claim_fails :
  adapterFailed timedOut
  /\ queryForest ["/forest"] statusUpdating (Some timedOut) None
                 (Some (ParsedTo (AnArray [emptyUri])))
     = (statusInvalid "Forester timed out after 30s", Returns [emptyUri])
  /\ claimedFallback None (Some (ParsedTo (AnArray [emptyUri]))) = []
  /\ snd (queryForest ["/forest"] statusUpdating (Some timedOut) None
                      (Some (ParsedTo (AnArray [emptyUri]))))
     <> Returns (claimedFallback None (Some (ParsedTo (AnArray [emptyUri]))))
  /\ queryForest ["/forest"] statusUpdating (Some printedNull) None None
     = (statusValid, Throws)
  /\ queryForest [] statusValid (Some (succeeds [plainTree "a"])) None None
     = (statusValid, Throws)
  /\ queryForest ["/forest"] statusValid None (Some [plainTree "a"]) None
     = (statusValid, Throws).
Proof.
  split; [exact I|]. split; [reflexivity|]. split; [reflexivity|].
  split; [discriminate|]. split; [reflexivity|]. split; reflexivity.
Qed.

(** ** Invalidation bursts *)

Lemma run_app (s : Cache) (l1 l2 : list Event) :
  run s (l1 ++ l2) = run (run s l1) l2.
Proof. unfold run. apply fold_left_app. Qed.

Lemma burst_state (n : nat) : run initialCache (burst n) = afterBurst n.
Proof.
  induction n as [|n IH]; [reflexivity|].
  unfold burst in *. rewrite seq_S, map_app.
  change (CallGetForest 0 true false
          :: map CallForestUpdatedOnDisk (seq 1 n) ++ map CallForestUpdatedOnDisk [1 + n])
    with ((CallGetForest 0 true false :: map CallForestUpdatedOnDisk (seq 1 n))
          ++ [CallForestUpdatedOnDisk (1 + n)]).
  rewrite run_app, IH. unfold afterBurst. rewrite seq_S, map_app. reflexivity.
Qed.

Lemma forced_getForest (s : Cache) (c : Caller) :
  getForest s c true false = startFetch s c.
Proof.
  unfold getForest. simpl. now rewrite !andb_false_r.
Qed.

(** every invalidator that wakes starts a fetch of its own *)
Lemma woken_invalidators (forest : Forest) (cs : list Caller) :
  forall s,
    invocations (fold_left (resume (Fulfilled forest)) (map ForestUpdatedOnDisk cs) s)
      = invocations s + List.length cs
    /\ inFlight (fold_left (resume (Fulfilled forest)) (map ForestUpdatedOnDisk cs) s)
      = inFlight s + List.length cs.
Proof.
  induction cs as [|c cs IH]; intros s; simpl; [lia|].
  rewrite forced_getForest.
  destruct (IH (startFetch s c)) as [Hi Hf]. rewrite Hi, Hf.
  unfold invocations, inFlight, startFetch. simpl.
  rewrite filter_app, !length_app. simpl. lia.
Qed.

(** C2, at the failing inputs. When [n] file changes arrive during a forced
    fetch and the fetch then completes, every one of the [n] waiting
    invalidators starts a fetch: [queryForest] has run [n + 1] times, and [n]
    fetches are in flight together. *)
Theorem invalidation_burst_fetches (n : nat) (forest : Forest) :
  invocations (run initialCache (burst n)) = 1
  /\ inFlight (run initialCache (burst n)) = 1
  /\ invocations (run initialCache (burst n ++ [AdapterDone 0 (succeeds forest) false]))
     = n + 1
  /\ inFlight (run initialCache (burst n ++ [AdapterDone 0 (succeeds forest) false]))
     = n.
Proof.
  rewrite run_app, burst_state.
  split; [reflexivity|]. split; [reflexivity|].
  assert (Hmine : filter (fun w : nat * Continuation => Nat.eqb (fst w) 0)
                    (map (fun c => (0, ForestUpdatedOnDisk c)) (seq 1 n))
                  = map (fun c => (0, ForestUpdatedOnDisk c)) (seq 1 n)).
  { induction (seq 1 n) as [|c l IHl]; simpl; [reflexivity | now rewrite IHl]. }
  unfold run, afterBurst. cbn [fold_left step nth_error fetches].
  unfold afterAdapter, resolution, settlePromise. 
  cbn [succeeds event isZero mostRecentQueryResult waiting filter fst Nat.eqb].
  rewrite Hmine. cbn [map snd fold_left settledOf]. rewrite map_map. cbn [snd].
  match goal with
  | |- context [fold_left _ ?l ?s0] =>
      destruct (woken_invalidators forest (seq 1 n) s0) as [Hi Hf];
      change l with (map ForestUpdatedOnDisk (seq 1 n))
  end.
  rewrite Hi, Hf, length_seq.
  split; [|reflexivity]. simpl. lia.
Qed.

(** ** Rendering *)

Lemma renderNode_unfold (v : View) (fuel : nat) (nodeId : string) (depth : nat)
  (visited : list string) :
  renderNode v (S fuel) nodeId depth visited =
  match Js.get (nodes v) nodeId with
  | None => Some []
  | Some node =>
      if Js.has nodeId visited then Some [CycleItem depth (labelOf node nodeId)]
      else if Nat.ltb 0 (List.length (transcludes node)) && Js.has nodeId (expandedNodes v)
           then renderChildren v fuel depth (Js.add nodeId visited) (transcludes node)
                               [treeItem v node nodeId depth]
           else Some [treeItem v node nodeId depth]
  end.
Proof.
  cbn [renderNode]. destruct (Js.get (nodes v) nodeId) as [node|]; [|reflexivity].
  destruct (Js.has nodeId visited); [reflexivity|].
  destruct (Nat.ltb 0 (List.length (transcludes node)) && Js.has nodeId (expandedNodes v));
    [|reflexivity].
  generalize [treeItem v node nodeId depth].
  induction (transcludes node) as [|c cs IH]; intros html; [reflexivity|].
  cbn [renderChildren].
  destruct (renderNode v fuel c (S depth) (Js.add nodeId visited)); [apply IH | reflexivity].
Qed.

Lemma unvisited_add (g : Nodes) (visited : list string) (x : string) (node : TreeNode) :
  Js.get g x = Some node -> Js.has x visited = false ->
  unvisited g (Js.add x visited) < unvisited g visited.
Proof.
  intros Hg Hv. unfold unvisited, Js.add. rewrite Hv.
  apply get_in_keys in Hg. induction (Js.keys g) as [|k ks IH]; [destruct Hg|].
  assert (Hle : forall l, List.length (filter (fun k => negb (Js.has k (visited ++ [x]))) l)
                          <= List.length (filter (fun k => negb (Js.has k visited)) l)).
  { induction l as [|a l IHl]; simpl; [lia|].
    destruct (Js.has a visited) eqn:Ha.
    - assert (Js.has a (visited ++ [x]) = true) as ->.
      { apply has_true_iff, in_or_app. left. now apply has_true_iff. }
      simpl. exact IHl.
    - simpl. destruct (Js.has a (visited ++ [x])); simpl; lia. }
  simpl. destruct Hg as [->|Hin].
  - rewrite Hv. assert (Js.has x (visited ++ [x]) = true) as ->.
    { apply has_true_iff, in_or_app. right. now left. }
    simpl. specialize (Hle ks). lia.
  - specialize (IH Hin).
    destruct (Js.has k visited) eqn:Hk.
    + assert (Js.has k (visited ++ [x]) = true) as ->.
      { apply has_true_iff, in_or_app. left. now apply has_true_iff. }
      simpl. exact IH.
    + simpl. destruct (Js.has k (visited ++ [x])); simpl; lia.
Qed.

Lemma unvisited_antitone (g : Nodes) (vis1 vis2 : list string) :
  incl vis1 vis2 -> unvisited g vis2 <= unvisited g vis1.
Proof.
  intros Hincl. unfold unvisited.
  induction (Js.keys g) as [|k ks IH]; simpl; [lia|].
  destruct (Js.has k vis1) eqn:H1.
  - assert (Js.has k vis2 = true) as ->.
    { apply has_true_iff, Hincl. now apply has_true_iff. }
    simpl. exact IH.
  - simpl. destruct (Js.has k vis2); simpl; lia.
Qed.

Lemma unvisited_le (g : Nodes) (visited : list string) :
  unvisited g visited <= List.length g.
Proof.
  unfold unvisited.
  pose proof (filter_length_le (fun k => negb (Js.has k visited)) (Js.keys g)) as Hle.
  unfold Js.keys in *. now rewrite length_map in Hle.
Qed.












(** ** The gestures always complete, and never pin a root twice *)

Lemma nodeContainsChild_unfold (g : Nodes) (fuel : nat) (parentId targetId : string)
  (visited : list string) :
  nodeContainsChild g (S fuel) parentId targetId visited =
  if String.eqb parentId targetId then Some (true, visited)
  else if Js.has parentId visited then Some (false, visited)
  else match Js.get g parentId with
       | None => Some (false, Js.add parentId visited)
       | Some parent =>
           containsAmong g fuel targetId (transcludes parent) (Js.add parentId visited)
       end.
Proof.
  cbn [nodeContainsChild]. destruct (String.eqb parentId targetId); [reflexivity|].
  destruct (Js.has parentId visited); [reflexivity|].
  destruct (Js.get g parentId) as [parent|]; [|reflexivity].
  generalize (Js.add parentId visited).
  induction (transcludes parent) as [|c cs IH]; intros vis; [reflexivity|].
  cbn [containsAmong].
  destruct (nodeContainsChild g fuel c targetId vis) as [[[|] vis']|];
    [reflexivity | apply IH | reflexivity].
Qed.

Lemma incl_add (x : string) (l : list string) : incl l (Js.add x l).
Proof.
  unfold Js.add. destruct (Js.has x l); [apply incl_refl|].
  intros y Hy. apply in_or_app. now left.
Qed.

(** a call depth above the number of unvisited nodes is never exceeded, and
    the shared [visited] set only grows *)
Lemma nodeContainsChild_total (g : Nodes) (targetId : string) :
  forall fuel parentId visited,
    unvisited g visited < fuel ->
    exists b vis',
      nodeContainsChild g fuel parentId targetId visited = Some (b, vis')
      /\ incl visited vis'.
Proof.
  induction fuel as [|fuel IH]; intros parentId visited Hlt; [lia|].
  rewrite nodeContainsChild_unfold.
  destruct (String.eqb parentId targetId); [eauto using incl_refl|].
  destruct (Js.has parentId visited) eqn:Hv; [eauto using incl_refl|].
  destruct (Js.get g parentId) as [parent|] eqn:Hg; [|eauto using incl_add].
  pose proof (unvisited_add g visited parentId parent Hg Hv) as Hdec.
  assert (Hloop : forall cs vis,
             incl (Js.add parentId visited) vis ->
             exists b vis',
               containsAmong g fuel targetId cs vis = Some (b, vis') /\ incl vis vis').
  { induction cs as [|c cs IHcs]; intros vis Hvis; simpl; [eauto using incl_refl|].
    destruct (IH c vis) as [b [vis1 [Hc Hi]]].
    { pose proof (unvisited_antitone g _ _ Hvis). lia. }
    rewrite Hc. destruct b; [eauto|].
    destruct (IHcs vis1) as [b' [vis2 [Hc' Hi']]].
    { eapply incl_tran; eassumption. }
    exists b', vis2. split; [assumption | eapply incl_tran; eassumption]. }
  destruct (Hloop (transcludes parent) (Js.add parentId visited) (incl_refl _))
    as [b [vis' [Hc Hi]]].
  exists b, vis'. split; [assumption|].
  eapply incl_tran; [apply incl_add | exact Hi].
Qed.

Lemma findRootForNode_total (v : View) (nodeId : string) :
  exists r, findRootForNode v nodeId = Some r.
Proof.
  unfold findRootForNode. destruct (Js.has nodeId (currentRootIds v)); [eauto|].
  induction (currentRootIds v) as [|r roots IH]; cbn [firstContaining]; [eauto|].
  destruct (nodeContainsChild_total (nodes v) nodeId (S (List.length (nodes v))) r [])
    as [b [vis [Hc _]]].
  { pose proof (unvisited_le (nodes v) []). lia. }
  rewrite Hc. destruct b; [eauto | exact IH].
Qed.

Lemma autoPin_total (v : View) (nodeId : string) :
  exists v' eff,
    autoPinOnInteraction v nodeId = Some (v', eff)
    /\ (pinnedRootIds v' = pinnedRootIds v
        \/ exists root, Js.has root (pinnedRootIds v) = false
                        /\ pinnedRootIds v' = pinnedRootIds v ++ [root]).
Proof.
  unfold autoPinOnInteraction.
  destruct (findRootForNode_total v nodeId) as [[root|] Hr]; rewrite Hr; [|eauto].
  destruct (Js.truthy (Some root)); simpl; [|eauto].
  destruct (Js.has root (pinnedRootIds v)) eqn:Hp; simpl; [eauto|].
  eexists. eexists. split; [reflexivity|]. right. exists root. auto.
Qed.

Lemma NoDup_snoc (l : list string) (x : string) :
  NoDup l -> Js.has x l = false -> NoDup (l ++ [x]).
Proof.
  intros Hnd Hx. apply has_false_iff in Hx.
  apply NoDup_app; [assumption | repeat constructor; simpl; tauto |].
  intros y Hy [<-|[]]. contradiction.
Qed.

Lemma NoDup_removelast (l : list string) : NoDup l -> NoDup (removelast l).
Proof.
  induction l as [|x l IH]; intros Hnd; [constructor|].
  destruct l as [|y l]; [constructor|].
  inversion Hnd as [|? ? Hx Hl]; subst.
  change (removelast (x :: y :: l)) with (x :: removelast (y :: l)).
  constructor; [|now apply IH].
  intros Hin. apply Hx.
  assert (Hsub : forall (m : list string) z, In z (removelast m) -> In z m).
  { induction m as [|a m IHm]; intros z Hz; [destruct Hz|].
    destruct m as [|b m]; [destruct Hz|].
    change (removelast (a :: b :: m)) with (a :: removelast (b :: m)) in Hz.
    destruct Hz as [->|Hz]; [now left | right; now apply IHm]. }
  now apply Hsub.
Qed.

(** every gesture completes, and the pinned roots stay free of duplicates *)
Lemma perform_total_nodup (v : View) (op : Op) :
  exists v',
    perform v op = Some v'
    /\ (NoDup (pinnedRootIds v) -> NoDup (pinnedRootIds v')).
Proof.
  destruct op as [[nodeId|nodeId|nodeId|nodeId]|env| | | | |env forestData];
    cbn [perform onDidReceiveMessage].
  - match goal with
    | |- context [autoPinOnInteraction ?w nodeId] =>
        destruct (autoPin_total w nodeId) as [v' [eff [Ha Hp]]]
    end.
    rewrite Ha. eexists. split; [reflexivity|]. simpl.
    destruct Hp as [->|[root [Hr ->]]]; simpl; [auto|].
    intros Hnd. now apply NoDup_snoc.
  - match goal with
    | |- context [autoPinOnInteraction ?w nodeId] =>
        destruct (autoPin_total w nodeId) as [v' [eff [Ha Hp]]];
        assert (Hw : pinnedRootIds w = pinnedRootIds v)
    end.
    { destruct (Js.get (nodes v) nodeId) as [n|]; [|reflexivity].
      destruct (Nat.ltb 0 (List.length (transcludes n))); reflexivity. }
    rewrite Ha. eexists. split; [reflexivity|]. simpl.
    destruct Hp as [->|[root [Hr ->]]]; rewrite Hw in *; [auto|].
    intros Hnd. now apply NoDup_snoc.
  - eexists. split; [reflexivity|]. unfold togglePin.
    destruct (Js.has nodeId (pinnedRootIds v)) eqn:Hp;
      [|destruct (Nat.leb MAX_PINNED_ROOTS (List.length (pinnedRootIds v)))]; simpl.
    + intros Hnd. unfold Js.delete. now apply NoDup_filter.
    + auto.
    + intros Hnd. now apply NoDup_snoc.
  - destruct (Js.get (nodes v) nodeId); eexists; split; reflexivity || auto.
  - unfold pinToCurrentFile. destruct (activeTreeId env) as [treeId|]; [|simpl; eauto].
    destruct (Js.get (nodes v) treeId) as [node|]; [|simpl; eauto].
    assert (Hroot : exists rootId,
               (if Nat.ltb 0 (List.length (transcludedBy node))
                then findRoot (nodes v) treeId else Some treeId) = Some rootId).
    { destruct (Nat.ltb 0 (List.length (transcludedBy node)));
        [apply findRoot_finishes | eauto]. }
    destruct Hroot as [rootId ->].
    destruct (Js.truthy (Some rootId)); simpl; [|eauto].
    destruct (Js.has rootId (pinnedRootIds v)) eqn:Hp; simpl; [eauto|].
    eexists. split; [reflexivity|]. simpl. intros Hnd. now apply NoDup_snoc.
  - eexists. split; [reflexivity|]. unfold unpin.
    destruct (List.rev (pinnedRootIds v)); simpl; [auto|]. apply NoDup_removelast.
  - eexists. split; [reflexivity|]. simpl. auto.
  - eexists. split; [reflexivity|]. simpl. auto.
  - eexists. split; [reflexivity|]. simpl. auto.
  - unfold refresh, buildGraph.
    destruct (resolutionMap (taxonCustomization env) forestData []) as [g0|g0 m].
    + destruct (determineRoots_finishes (parseTransclusions env g0) (pinnedRootIds v)
                  (activeTreeId env)) as [roots ->].
      eexists. split; [reflexivity|]. simpl. auto.
    + eexists. split; [reflexivity|]. simpl. auto.
Qed.

Lemma performAll_total_nodup (ops : list Op) :
  forall v,
    exists v',
      performAll v ops = Some v'
      /\ (NoDup (pinnedRootIds v) -> NoDup (pinnedRootIds v')).
Proof.
  induction ops as [|op ops IH]; intros v; simpl; [eauto|].
  destruct (perform_total_nodup v op) as [v1 [H1 Hn1]]. rewrite H1.
  destruct (IH v1) as [v' [H' Hn']]. eauto.
Qed.

(** ** Coalesced reads *)





















(** ** buildGraph: the edges *)

Lemma in_keys_get {A} (g : list (string * A)) (k : string) :
  In k (Js.keys g) -> exists v, Js.get g k = Some v.
Proof.
  induction g as [|[k' v'] r IH]; simpl; [intros []|].
  destruct (String.eqb k' k) eqn:E; [eauto|].
  intros [H|H]; [apply String.eqb_neq in E; contradiction | now apply IH].
Qed.

Lemma keys_update (g : Nodes) (k : string) (f : TreeNode -> TreeNode) :
  Js.keys (update g k f) = Js.keys g.
Proof.
  induction g as [|[k' n] r IH]; simpl; [reflexivity|].
  destruct (String.eqb k' k); simpl; [reflexivity | now rewrite IH].
Qed.

Lemma in_add_iff (x y : string) (l : list string) :
  In y (Js.add x l) <-> In y l \/ y = x.
Proof.
  unfold Js.add. destruct (Js.has x l) eqn:H.
  - apply has_true_iff in H. split; [auto | intros [Hy | Hy]; [assumption | now subst]].
  - rewrite in_app_iff. simpl. intuition.
Qed.

Lemma NoDup_add (x : string) (l : list string) : NoDup l -> NoDup (Js.add x l).
Proof.
  intros Hnd. unfold Js.add. destruct (Js.has x l) eqn:H; [assumption|].
  now apply NoDup_snoc.
Qed.

Lemma sameEntries_refl (g : Nodes) : sameEntries g g.
Proof. split; [reflexivity | intros k; reflexivity]. Qed.

Lemma sameEntries_trans (g1 g2 g3 : Nodes) :
  sameEntries g1 g2 -> sameEntries g2 g3 -> sameEntries g1 g3.
Proof.
  intros [K12 S12] [K23 S23]. split; [congruence|].
  intros k. now rewrite S23, S12.
Qed.

Lemma update_sameEntries (g : Nodes) (k : string) (f : TreeNode -> TreeNode) :
  (forall n, n_sourcePath (f n) = n_sourcePath n) -> sameEntries g (update g k f).
Proof.
  intros Hf. split; [apply keys_update|].
  intros k0. rewrite get_update. destruct (Js.get g k0) as [n|]; [|reflexivity].
  simpl. destruct (String.eqb k k0); [now rewrite Hf | reflexivity].
Qed.

Lemma addEdge_sameEntries (u : string) (g : Nodes) (t : string) :
  sameEntries g (addEdge u g t).
Proof.
  unfold addEdge. destruct (Js.get g t); [|apply sameEntries_refl].
  eapply sameEntries_trans; apply update_sameEntries; reflexivity.
Qed.

Lemma fold_sameEntries {A} (f : Nodes -> A -> Nodes) (l : list A) :
  (forall g a, sameEntries g (f g a)) ->
  forall g, sameEntries g (fold_left f l g).
Proof.
  intros Hf. induction l as [|a l IH]; intros g; simpl; [apply sameEntries_refl|].
  eapply sameEntries_trans; [apply Hf | apply IH].
Qed.

Lemma parseNode_sameEntries (env : Env) (g : Nodes) (u : string) :
  sameEntries g (parseNode env g u).
Proof.
  unfold parseNode. destruct (Js.get g u) as [node|]; [|apply sameEntries_refl].
  destruct (readFileSync env (n_sourcePath node)); [|apply sameEntries_refl].
  apply fold_sameEntries. intros g1 t. apply addEdge_sameEntries.
Qed.

Lemma sameEntries_known (g g' : Nodes) (k : string) :
  sameEntries g g' -> (In k (Js.keys g') <-> In k (Js.keys g)).
Proof. intros [K _]. now rewrite K. Qed.

(** one match adds the edge to both sets when the target is known *)
Lemma addEdge_transcludes (u : string) (g : Nodes) (t x y : string) :
  In u (Js.keys g) ->
  (transcludesEdge (addEdge u g t) x y
   <-> transcludesEdge g x y \/ (x = u /\ y = t /\ In t (Js.keys g))).
Proof.
  intros Hu. unfold addEdge, transcludesEdge.
  destruct (Js.get g t) as [nt|] eqn:Ht.
  - split.
    + intros [n [Hg Hy]]. rewrite !get_update in Hg.
      destruct (Js.get g x) as [nx|] eqn:Hx; [|discriminate].
      inversion Hg; subst n; clear Hg.
      assert (Hin : In y (transcludes (if String.eqb u x then addTranscludes t nx else nx))).
      { destruct (String.eqb t x); exact Hy. }
      destruct (String.eqb u x) eqn:E.
      * apply String.eqb_eq in E. subst x. simpl in Hin. apply in_add_iff in Hin.
        destruct Hin as [Hin| ->]; [left; eauto|].
        right. repeat split. eapply get_in_keys; eauto.
      * left. eauto.
    + intros [[n [Hg Hy]]|[-> [-> _]]].
      * rewrite !get_update, Hg. eexists. split; [reflexivity|].
        destruct (String.eqb t x), (String.eqb u x); simpl; try apply in_add_iff; auto.
      * destruct (in_keys_get g u Hu) as [nu Hnu].
        rewrite !get_update, Hnu, String.eqb_refl. eexists. split; [reflexivity|].
        destruct (String.eqb t u); simpl; apply in_add_iff; auto.
  - split; [auto|]. intros [H|[_ [_ Hk]]]; [assumption|].
    destruct (in_keys_get g t Hk) as [v Hv]. congruence.
Qed.

Lemma addEdge_transcludedBy (u : string) (g : Nodes) (t x y : string) :
  (transcludedByEdge (addEdge u g t) x y
   <-> transcludedByEdge g x y \/ (x = u /\ y = t /\ In t (Js.keys g))).
Proof.
  unfold addEdge, transcludedByEdge.
  destruct (Js.get g t) as [nt|] eqn:Ht.
  - split.
    + intros [n [Hg Hx]]. rewrite !get_update in Hg.
      destruct (Js.get g y) as [ny|] eqn:Hy; [|discriminate].
      inversion Hg; subst n; clear Hg.
      destruct (String.eqb t y) eqn:E.
      * apply String.eqb_eq in E. subst y.
        assert (Hin : In x (Js.add u (transcludedBy ny))).
        { destruct (String.eqb u t); exact Hx. }
        apply in_add_iff in Hin. destruct Hin as [Hin| ->]; [left; eauto|].
        right. repeat split. eapply get_in_keys; eauto.
      * left. exists ny. split; [reflexivity|]. destruct (String.eqb u y); exact Hx.
    + intros [[n [Hg Hx]]|[-> [-> _]]].
      * rewrite !get_update, Hg. eexists. split; [reflexivity|].
        destruct (String.eqb t y), (String.eqb u y); simpl; try apply in_add_iff; auto.
      * rewrite !get_update, Ht, String.eqb_refl. eexists. split; [reflexivity|].
        destruct (String.eqb u t); simpl; apply in_add_iff; auto.
  - split; [auto|]. intros [H|[_ [_ Hk]]]; [assumption|].
    destruct (in_keys_get g t Hk) as [v Hv]. congruence.
Qed.

Lemma addEdge_nodup (u : string) (g : Nodes) (t : string) :
  edgeSetsNoDup g -> edgeSetsNoDup (addEdge u g t).
Proof.
  intros Hnd x n Hg. unfold addEdge in Hg.
  destruct (Js.get g t); [|exact (Hnd x n Hg)].
  rewrite !get_update in Hg. destruct (Js.get g x) as [nx|] eqn:Hx; [|discriminate].
  inversion Hg; subst n. destruct (Hnd x nx Hx) as [H1 H2].
  destruct (String.eqb t x), (String.eqb u x); simpl; split;
    assumption || now apply NoDup_add.
Qed.

Lemma targetsOf_sameEntries (env : Env) (g g' : Nodes) (u : string) :
  sameEntries g g' -> targetsOf env g' u = targetsOf env g u.
Proof.
  intros [_ S]. specialize (S u). unfold targetsOf.
  destruct (Js.get g' u) as [n'|], (Js.get g u) as [n|]; simpl in S; try discriminate;
    [|reflexivity].
  inversion S as [E]. now rewrite E.
Qed.

Lemma fold_addEdge_edges (u : string) (targets : list string) :
  forall g x y,
    In u (Js.keys g) ->
    (transcludesEdge (fold_left (addEdge u) targets g) x y
     <-> transcludesEdge g x y \/ (x = u /\ In y targets /\ In y (Js.keys g)))
    /\ (transcludedByEdge (fold_left (addEdge u) targets g) x y
        <-> transcludedByEdge g x y \/ (x = u /\ In y targets /\ In y (Js.keys g))).
Proof.
  induction targets as [|t targets IH]; intros g x y Hu; simpl.
  - split; (split; [auto | intros [H|[_ [[] _]]]; assumption]).
  - pose proof (addEdge_sameEntries u g t) as Hs.
    assert (Hu' : In u (Js.keys (addEdge u g t))) by now apply (sameEntries_known _ _ u Hs).
    destruct (IH (addEdge u g t) x y Hu') as [IH1 IH2].
    rewrite IH1, IH2, (addEdge_transcludes u g t x y Hu), (addEdge_transcludedBy u g t x y).
    rewrite (sameEntries_known _ _ y Hs).
    split; split; intros H.
    + destruct H as [[H|[-> [-> Hk]]]|[-> [Hy Hk]]]; auto 6.
    + destruct H as [H|[-> [[->|Hy] Hk]]]; auto 6.
    + destruct H as [[H|[-> [-> Hk]]]|[-> [Hy Hk]]]; auto 6.
    + destruct H as [H|[-> [[->|Hy] Hk]]]; auto 6.
Qed.

Lemma parseNode_edges (env : Env) (g : Nodes) (u x y : string) :
  In u (Js.keys g) ->
  (transcludesEdge (parseNode env g u) x y
   <-> transcludesEdge g x y \/ (x = u /\ In y (targetsOf env g u) /\ In y (Js.keys g)))
  /\ (transcludedByEdge (parseNode env g u) x y
      <-> transcludedByEdge g x y \/ (x = u /\ In y (targetsOf env g u) /\ In y (Js.keys g))).
Proof.
  intros Hu. unfold parseNode, targetsOf.
  destruct (Js.get g u) as [node|].
  - destruct (readFileSync env (n_sourcePath node)) as [content|].
    + now apply fold_addEdge_edges.
    + split; (split; [auto | intros [H|[_ [[] _]]]; assumption]).
  - split; (split; [auto | intros [H|[_ [[] _]]]; assumption]).
Qed.

Lemma fold_parseNode_edges (env : Env) (us : list string) :
  forall g x y,
    incl us (Js.keys g) ->
    (transcludesEdge (fold_left (parseNode env) us g) x y
     <-> transcludesEdge g x y \/ (In x us /\ In y (targetsOf env g x) /\ In y (Js.keys g)))
    /\ (transcludedByEdge (fold_left (parseNode env) us g) x y
        <-> transcludedByEdge g x y
            \/ (In x us /\ In y (targetsOf env g x) /\ In y (Js.keys g))).
Proof.
  induction us as [|u us IH]; intros g x y Hincl; simpl.
  - split; (split; [auto | intros [H|[[] _]]; assumption]).
  - pose proof (parseNode_sameEntries env g u) as Hs.
    assert (Hu : In u (Js.keys g)) by (apply Hincl; now left).
    assert (Hincl' : incl us (Js.keys (parseNode env g u))).
    { intros k Hk. apply (sameEntries_known _ _ k Hs). apply Hincl. now right. }
    destruct (IH (parseNode env g u) x y Hincl') as [IH1 IH2].
    destruct (parseNode_edges env g u x y Hu) as [P1 P2].
    rewrite IH1, IH2, P1, P2, (targetsOf_sameEntries env _ _ x Hs),
      (sameEntries_known _ _ y Hs).
    split; split; intros H.
    + destruct H as [[H|[-> [Hy Hk]]]|[Hx [Hy Hk]]]; auto 6.
    + destruct H as [H|[[->|Hx] [Hy Hk]]]; auto 6.
    + destruct H as [[H|[-> [Hy Hk]]]|[Hx [Hy Hk]]]; auto 6.
    + destruct H as [H|[[->|Hx] [Hy Hk]]]; auto 6.
Qed.

Lemma fold_nodup {A} (f : Nodes -> A -> Nodes) (l : list A) :
  (forall g a, edgeSetsNoDup g -> edgeSetsNoDup (f g a)) ->
  forall g, edgeSetsNoDup g -> edgeSetsNoDup (fold_left f l g).
Proof.
  intros Hf. induction l as [|a l IH]; intros g Hg; simpl; [assumption|].
  apply IH, Hf, Hg.
Qed.

Lemma parseTransclusions_nodup (env : Env) (g : Nodes) :
  edgeSetsNoDup g -> edgeSetsNoDup (parseTransclusions env g).
Proof.
  unfold parseTransclusions. apply fold_nodup. intros g0 u H0.
  unfold parseNode. destruct (Js.get g0 u) as [node|]; [|assumption].
  destruct (readFileSync env (n_sourcePath node)); [|assumption].
  apply fold_nodup; [|assumption]. intros g1 t. apply addEdge_nodup.
Qed.

(** the first pass stores nodes without edges *)
Lemma resolutionMap_edgeless (settings : Utils.TaxonSettings) (l : Forest) (g : Nodes)
  (x : string) (n : TreeNode) :
  resolutionMap settings l [] = Normal g -> Js.get g x = Some n ->
  transcludes n = [] /\ transcludedBy n = [].
Proof.
  intros Hr Hg.
  destruct (resolutionMap_nodes _ _ _ _ _ _ Hr Hg) as [H|[e [_ [_ ->]]]];
    [discriminate | split; reflexivity].
Qed.

Lemma parseTransclusions_sameEntries (env : Env) (g : Nodes) :
  sameEntries g (parseTransclusions env g).
Proof.
  unfold parseTransclusions. apply fold_sameEntries. intros g0 u.
  apply parseNode_sameEntries.
Qed.

(** X1. In the graph a rebuild leaves, [x] transcludes [y] exactly when both
    are nodes and a line of the file of [x] that is not a comment names [y]
    in a [\transclude{...}]; the [transcludedBy] sets are the transpose of the
    [transcludes] sets; and no set lists a uri twice. References to unknown
    trees and unreadable files leave no edge. *)
Theorem buildGraph_edges (env : Env) (forest : Forest) (v v' : View) :
  buildGraph env forest v = Some (Normal v') ->
  (forall x y,
     transcludesEdge (nodes v') x y
     <-> exists nx ny content,
           Js.get (nodes v') x = Some nx /\ Js.get (nodes v') y = Some ny
           /\ readFileSync env (n_sourcePath nx) = Some content
           /\ In y (transclusionsOf content))
  /\ (forall x y, transcludedByEdge (nodes v') x y <-> transcludesEdge (nodes v') x y)
  /\ edgeSetsNoDup (nodes v').
Proof.
  intros Hb. unfold buildGraph in Hb.
  destruct (resolutionMap (taxonCustomization env) forest []) as [g0|g0 m] eqn:Hr;
    [|inversion Hb].
  destruct (determineRoots _ _ _) as [roots|]; [|discriminate].
  inversion Hb; subst v'; clear Hb. cbn [nodes].
  pose proof (parseTransclusions_sameEntries env g0) as Hs.
  assert (Hno : forall x y, ~ transcludesEdge g0 x y).
  { intros x y [n [Hg Hy]]. destruct (resolutionMap_edgeless _ _ _ _ _ Hr Hg) as [E _].
    rewrite E in Hy. destruct Hy. }
  assert (Hno' : forall x y, ~ transcludedByEdge g0 x y).
  { intros x y [n [Hg Hy]]. destruct (resolutionMap_edgeless _ _ _ _ _ Hr Hg) as [_ E].
    rewrite E in Hy. destruct Hy. }
  assert (Hedges : forall x y,
             (transcludesEdge (parseTransclusions env g0) x y
              <-> In x (Js.keys g0) /\ In y (targetsOf env g0 x) /\ In y (Js.keys g0))
             /\ (transcludedByEdge (parseTransclusions env g0) x y
                 <-> In x (Js.keys g0) /\ In y (targetsOf env g0 x) /\ In y (Js.keys g0))).
  { intros x y. unfold parseTransclusions.
    destruct (fold_parseNode_edges env (Js.keys g0) g0 x y (incl_refl _)) as [E1 E2].
    rewrite E1, E2. split; (split; [intros [H|H]; [|exact H] | auto]).
    - now apply Hno in H.
    - now apply Hno' in H. }
  split; [|split].
  - intros x y. rewrite (proj1 (Hedges x y)).
    rewrite <- (targetsOf_sameEntries env _ _ x Hs).
    rewrite <- (sameEntries_known _ _ x Hs), <- (sameEntries_known _ _ y Hs).
    unfold targetsOf. split.
    + intros [Hx [Hy Hk]].
      destruct (in_keys_get _ _ Hx) as [nx Hnx]. destruct (in_keys_get _ _ Hk) as [ny Hny].
      rewrite Hnx in Hy.
      destruct (readFileSync env (n_sourcePath nx)) as [content|] eqn:Hc; [|destruct Hy].
      exists nx, ny, content. auto.
    + intros [nx [ny [content [Hnx [Hny [Hc Hy]]]]]].
      rewrite Hnx, Hc. repeat split; [| assumption |]; eapply get_in_keys; eauto.
  - intros x y. rewrite (proj1 (Hedges x y)), (proj2 (Hedges x y)). reflexivity.
  - apply parseTransclusions_nodup. intros x n Hg.
    destruct (resolutionMap_edgeless _ _ _ _ _ Hr Hg) as [-> ->]. split; constructor.
Qed.

Lemma buildGraph_edges_witness : edgeSetsNoDup (nodes twoCycleView).
Proof.
  apply (buildGraph_edges (mkEnv [] twoCycleFiles None) [plainTree "A"; plainTree "B"]
           initialView twoCycleView).
  vm_compute. reflexivity.
Defined.

(** ** nodeContainsChild and findRootForNode: reachability *)

Lemma containsAmong_found (g : Nodes) (fuel : nat) (t : string) :
  (forall p vis vis', nodeContainsChild g fuel p t vis = Some (true, vis') -> reaches g p t) ->
  forall cs vis vis',
    containsAmong g fuel t cs vis = Some (true, vis') ->
    exists c, In c cs /\ reaches g c t.
Proof.
  intros IH. induction cs as [|c cs IHcs]; intros vis vis' H; simpl in H; [discriminate|].
  destruct (nodeContainsChild g fuel c t vis) as [[[|] vis1]|] eqn:Hc; [| |discriminate].
  - exists c. split; [now left | eapply IH; eassumption].
  - destruct (IHcs _ _ H) as [c' [Hin Hr]]. exists c'. split; [now right | assumption].
Qed.

(** an answer [true] comes with a chain of transclusions to the target *)
Lemma nodeContainsChild_sound (g : Nodes) (t : string) :
  forall fuel p vis vis',
    nodeContainsChild g fuel p t vis = Some (true, vis') -> reaches g p t.
Proof.
  induction fuel as [|fuel IH]; intros p vis vis' H; [discriminate|].
  rewrite nodeContainsChild_unfold in H.
  destruct (String.eqb p t) eqn:E.
  - apply String.eqb_eq in E. subst. constructor.
  - destruct (Js.has p vis); [discriminate|].
    destruct (Js.get g p) as [parent|] eqn:Hg; [|discriminate].
    destruct (containsAmong_found g fuel t IH _ _ _ H) as [c [Hin Hr]].
    apply reaches_step with (y := c); [|assumption]. exists parent. auto.
Qed.

Lemma explored_trans (g : Nodes) (t : string) (v1 v2 v3 : list string) :
  explored g t v1 v2 -> explored g t v2 v3 -> explored g t v1 v3.
Proof.
  intros [I12 C12] [I23 C23]. split; [eapply incl_tran; eassumption|].
  intros x Hx3 Hx1 y Hy. destruct (Js.has x v2) eqn:Hx2.
  - apply has_true_iff in Hx2. destruct (C12 x Hx2 Hx1 y Hy) as [Hin Hne]. auto.
  - apply has_false_iff in Hx2. exact (C23 x Hx3 Hx2 y Hy).
Qed.

Lemma containsAmong_explored (g : Nodes) (fuel : nat) (t : string) :
  (forall p vis vis',
     nodeContainsChild g fuel p t vis = Some (false, vis') ->
     explored g t vis vis' /\ In p vis' /\ p <> t) ->
  forall cs vis vis',
    containsAmong g fuel t cs vis = Some (false, vis') ->
    explored g t vis vis' /\ forall c, In c cs -> In c vis' /\ c <> t.
Proof.
  intros IH. induction cs as [|c cs IHcs]; intros vis vis' H; simpl in H.
  - inversion H; subst. split; [|intros c []].
    split; [apply incl_refl | intros x Hx Hn; contradiction].
  - destruct (nodeContainsChild g fuel c t vis) as [[[|] vis1]|] eqn:Hc; try discriminate.
    destruct (IH _ _ _ Hc) as [He [Hin Hne]].
    destruct (IHcs _ _ H) as [He' Hcs].
    split; [eapply explored_trans; eassumption|].
    intros c' [<-|Hc']; [|now apply Hcs].
    split; [apply (proj1 He'); assumption | assumption].
Qed.

Lemma nodeContainsChild_explored (g : Nodes) (t : string) :
  forall fuel p vis vis',
    nodeContainsChild g fuel p t vis = Some (false, vis') ->
    explored g t vis vis' /\ In p vis' /\ p <> t.
Proof.
  induction fuel as [|fuel IH]; intros p vis vis' H; [discriminate|].
  rewrite nodeContainsChild_unfold in H.
  destruct (String.eqb p t) eqn:E; [discriminate|]. apply String.eqb_neq in E.
  destruct (Js.has p vis) eqn:Hv.
  - inversion H; subst. apply has_true_iff in Hv.
    split; [|auto]. split; [apply incl_refl | intros x Hx Hn; contradiction].
  - assert (Hp : In p (Js.add p vis)) by (apply in_add_iff; now right).
    destruct (Js.get g p) as [parent|] eqn:Hg.
    + destruct (containsAmong_explored g fuel t IH _ _ _ H) as [[Hi Hc] Hcs].
      split; [|split; [apply Hi; exact Hp | exact E]].
      split; [eapply incl_tran; [apply incl_add | exact Hi]|].
      intros x Hx Hn y Hy. destruct (String.eqb x p) eqn:Ex.
      * apply String.eqb_eq in Ex. subst x. destruct Hy as [n [Hn' Hy]].
        rewrite Hg in Hn'. inversion Hn'; subst n. now apply Hcs.
      * apply String.eqb_neq in Ex. apply (Hc x Hx); [|assumption].
        intros Hadd. apply in_add_iff in Hadd. destruct Hadd; contradiction.
    + inversion H; subst. split; [|auto].
      split; [apply incl_add|]. intros x Hx Hn y [n [Hn' _]].
      apply in_add_iff in Hx. destruct Hx as [Hx | ->]; [contradiction | congruence].
Qed.

Lemma explored_unreachable (g : Nodes) (t : string) (vis' : list string) :
  explored g t [] vis' ->
  forall x, reaches g x t -> In x vis' -> x <> t -> False.
Proof.
  intros [_ Hc] x Hr. induction Hr as [x|x y z Hxy Hyz IH]; intros Hx Hne;
    [now apply Hne|].
  destruct (Hc x Hx (fun H => H) y Hxy) as [Hy Hyt]. now apply IH.
Qed.

(** the search decides reachability *)
Lemma nodeContainsChild_decides (g : Nodes) (rootId targetId : string) :
  exists b visited,
    nodeContainsChild g (S (List.length g)) rootId targetId [] = Some (b, visited)
    /\ (b = true <-> reaches g rootId targetId).
Proof.
  destruct (nodeContainsChild_total g targetId (S (List.length g)) rootId [])
    as [b [vis [H _]]].
  { pose proof (unvisited_le g []). lia. }
  exists b, vis. split; [assumption|]. destruct b.
  - split; [intros _; eapply nodeContainsChild_sound; eassumption | reflexivity].
  - split; [discriminate|]. intros Hr. exfalso.
    destruct (nodeContainsChild_explored g targetId _ _ _ _ H) as [He [Hin Hne]].
    exact (explored_unreachable g targetId vis He rootId Hr Hin Hne).
Qed.

(** X2. [nodeContainsChild(root, target, new Set())] always returns, within
    the call depth [length nodes + 1], and it answers [true] exactly when the
    target can be reached from the root along transclusions (a node reaches
    itself), on cyclic graphs too. *)
Theorem nodeContainsChild_reaches (g : Nodes) (rootId targetId : string) :
  exists b visited,
    nodeContainsChild g (S (List.length g)) rootId targetId [] = Some (b, visited)
    /\ (b = true <-> reaches g rootId targetId).
Proof. exact (nodeContainsChild_decides g rootId targetId). Qed.

(** X3. [findRootForNode] answers the node itself when it is a current
    root; otherwise a current root from which the node can be
    reached; and [null] exactly when no current root reaches it. *)
Theorem findRootForNode_contains (v : View) (nodeId : string) :
  exists r,
    findRootForNode v nodeId = Some r
    /\ (In nodeId (currentRootIds v) -> r = Some nodeId)
    /\ (forall root, r = Some root ->
          In root (currentRootIds v) /\ reaches (nodes v) root nodeId)
    /\ (r = None -> forall root, In root (currentRootIds v) ->
                                 ~ reaches (nodes v) root nodeId).
Proof.
  unfold findRootForNode. destruct (Js.has nodeId (currentRootIds v)) eqn:Hh.
  - apply has_true_iff in Hh. exists (Some nodeId). split; [reflexivity|].
    split; [reflexivity|]. split; [|discriminate].
    intros root E. inversion E; subst. split; [assumption | constructor].
  - apply has_false_iff in Hh.
    assert (H : exists r,
               firstContaining (nodes v) (currentRootIds v) nodeId = Some r
               /\ (forall root, r = Some root ->
                     In root (currentRootIds v) /\ reaches (nodes v) root nodeId)
               /\ (r = None -> forall root, In root (currentRootIds v) ->
                                            ~ reaches (nodes v) root nodeId)).
    { clear Hh. induction (currentRootIds v) as [|r0 roots IH]; cbn [firstContaining].
      - exists None. split; [reflexivity|]. split; [discriminate | intros _ root []].
      - destruct (nodeContainsChild_decides (nodes v) r0 nodeId) as [b [vis [Hc Hb]]].
        rewrite Hc. destruct b.
        + exists (Some r0). split; [reflexivity|]. split; [|discriminate].
          intros root E. inversion E; subst. split; [now left | now apply Hb].
        + destruct IH as [r [Hr [Hsome Hnone]]]. exists r. split; [assumption|]. split.
          * intros root E. destruct (Hsome root E). split; [now right | assumption].
          * intros E root [<-|Hin]; [|now apply Hnone].
            intros Hreach. apply Hb in Hreach. discriminate. }
    destruct H as [r [Hr [Hsome Hnone]]]. exists r. split; [assumption|].
    split; [intros Hin; contradiction | split; assumption].
Qed.

Lemma findRootForNode_contains_witness :
  exists r,
    findRootForNode threeCycleView "C" = Some r
    /\ r = Some "A".
Proof.
  destruct (findRootForNode_contains threeCycleView "C") as [r [Hr [_ [Hsome Hnone]]]].
  exists r. split; [exact Hr|].
  destruct r as [root|].
  - destruct (Hsome root eq_refl) as [[<-|[]] _]. reflexivity.
  - exfalso. apply (Hnone eq_refl "A"); [simpl; tauto|].
    apply reaches_step with (y := "B").
    { exists (mkNode "A" "A" None [] "" [] "A.tree" ["B"] ["C"]). split; [reflexivity | simpl; tauto]. }
    apply reaches_step with (y := "C"); [|constructor].
    exists (mkNode "B" "B" None [] "" [] "B.tree" ["C"] ["A"]). split; [reflexivity | simpl; tauto].
Defined.

(** ** The text of a tree file: lines and directives *)

Lemma string_app_assoc (a b c : string) : ((a ++ b) ++ c = a ++ (b ++ c))%string.
Proof. induction a as [|x a IH]; simpl; [reflexivity | now rewrite IH]. Qed.

Lemma string_app_nil_r (a : string) : (a ++ "" = a)%string.
Proof. induction a as [|x a IH]; simpl; [reflexivity | now rewrite IH]. Qed.

Lemma string_length_app (a b : string) :
  String.length (a ++ b) = String.length a + String.length b.
Proof. induction a as [|x a IH]; simpl; [reflexivity | now rewrite IH]. Qed.

Lemma lacks_cons (c x : ascii) (s : string) :
  lacks c (String x s) <-> x <> c /\ lacks c s.
Proof. unfold lacks. simpl. intuition. Qed.

Lemma startsWith_app (p x : string) : Js.startsWith p (p ++ x) = true.
Proof.
  induction p as [|a p IH]; simpl; [reflexivity|]. now rewrite Ascii.eqb_refl.
Qed.

Lemma dropChars_app (p x : string) : dropChars (String.length p) (p ++ x) = x.
Proof. induction p as [|a p IH]; simpl; [reflexivity | exact IH]. Qed.

Lemma spanId_app (id rest : string) :
  lacks closing id -> spanId (id ++ String closing rest) = (id, String closing rest).
Proof.
  induction id as [|a id IH]; intros Hl; simpl.
  - reflexivity.
  - apply lacks_cons in Hl. destruct Hl as [Ha Hl].
    apply Ascii.eqb_neq in Ha. rewrite Ha, (IH Hl). reflexivity.
Qed.

Lemma matchHere_transcludeOf (id rest : string) :
  id <> "" -> lacks closing id -> matchHere (transcludeOf id rest) = Some id.
Proof.
  intros Hne Hl. unfold matchHere, transcludeOf.
  rewrite startsWith_app, dropChars_app, (spanId_app id rest Hl).
  destruct id; [contradiction | reflexivity].
Qed.

Lemma matchAllFrom_skip (s rest : string) :
  matchAllFrom (String.length s) (s ++ rest) = matchAllFrom 0 rest.
Proof. induction s as [|a s IH]; simpl; [now destruct rest | exact IH]. Qed.

Lemma transcludeOf_shape (id rest : string) :
  transcludeOf id rest
  = String backslash (("transclude{" ++ id ++ String closing "") ++ rest)%string.
Proof.
  unfold transcludeOf, directive, backslash.
  rewrite !string_app_assoc. reflexivity.
Qed.

Lemma matchAllFrom_match (c : ascii) (m rest i : string) :
  matchHere (String c (m ++ rest)) = Some i ->
  String.length m = String.length directive + String.length i ->
  matchAllFrom 0 (String c (m ++ rest)) = i :: matchAllFrom 0 rest.
Proof.
  intros Hm Hlen. cbn [matchAllFrom]. rewrite Hm. f_equal.
  rewrite <- Hlen. apply matchAllFrom_skip.
Qed.

Lemma matchAll_transcludeOf (id rest : string) :
  id <> "" -> lacks closing id ->
  matchAll (transcludeOf id rest) = id :: matchAll rest.
Proof.
  intros Hne Hl. unfold matchAll.
  pose proof (matchHere_transcludeOf id rest Hne Hl) as Hm.
  rewrite transcludeOf_shape in *.
  apply matchAllFrom_match; [exact Hm|].
  rewrite !string_length_app. simpl. lia.
Qed.

Lemma matchHere_other (c : ascii) (s : string) :
  c <> backslash -> matchHere (String c s) = None.
Proof.
  intros Hc. unfold matchHere, directive. cbn [Js.startsWith].
  assert (E : Ascii.eqb backslash c = false).
  { apply Ascii.eqb_neq. congruence. }
  unfold backslash in E. now rewrite E.
Qed.

Lemma matchAll_text (sep rest : string) :
  lacks backslash sep -> matchAllFrom 0 (sep ++ rest) = matchAllFrom 0 rest.
Proof.
  induction sep as [|c sep IH]; intros Hl; [reflexivity|].
  apply lacks_cons in Hl. destruct Hl as [Hc Hl].
  cbn [append matchAllFrom]. rewrite (matchHere_other c _ Hc). now apply IH.
Qed.

(** X4. A line made of [\transclude{id}] directives separated by text
    without backslash gives back the ids, in order and with repetitions,
    provided each id is non-empty and has no closing brace. *)
Theorem matchAll_embed (items : list (string * string)) (tail : string) :
  (forall sep id, In (sep, id) items ->
     lacks backslash sep /\ id <> "" /\ lacks closing id) ->
  lacks backslash tail ->
  matchAll (embed items tail) = map snd items.
Proof.
  intros Hitems Htail. induction items as [|[sep id] items IH]; simpl.
  - unfold matchAll. rewrite <- (string_app_nil_r tail).
    rewrite (matchAll_text tail "" Htail). reflexivity.
  - destruct (Hitems sep id (or_introl eq_refl)) as [Hs [Hne Hl]].
    unfold matchAll. rewrite (matchAll_text _ _ Hs).
    change (matchAllFrom 0 (transcludeOf id (embed items tail)))
      with (matchAll (transcludeOf id (embed items tail))).
    rewrite (matchAll_transcludeOf _ _ Hne Hl). f_equal. apply IH.
    intros sep' id' Hin. apply Hitems. now right.
Qed.

Lemma matchAll_embed_witness :
  matchAll (embed [("see ", "a-1"); (" and ", "b")] " here") = ["a-1"; "b"].
Proof.
  apply (matchAll_embed [("see ", "a-1"); (" and ", "b")] " here").
  - intros sep id [E|[E|[]]]; inversion E; subst; unfold lacks; simpl;
      repeat split; try discriminate; intuition discriminate.
  - unfold lacks. simpl. intuition discriminate.
Defined.

Lemma startsWith_split (p s : string) :
  Js.startsWith p s = true -> s = (p ++ dropChars (String.length p) s)%string.
Proof.
  revert s. induction p as [|a p IH]; intros s H; [reflexivity|].
  destruct s as [|b s]; [discriminate|]. simpl in H.
  apply andb_prop in H. destruct H as [Hab Hp]. apply Ascii.eqb_eq in Hab. subst b.
  simpl. f_equal. now apply IH.
Qed.

Lemma spanId_split (s i rest : string) :
  spanId s = (i, rest) ->
  s = (i ++ rest)%string /\ lacks closing i
  /\ (rest = "" \/ exists r, rest = String closing r).
Proof.
  revert i rest. induction s as [|c s IH]; intros i rest H; simpl in H.
  - inversion H; subst. repeat split; [intros [] | now left].
  - destruct (Ascii.eqb c closing) eqn:E.
    + inversion H; subst. apply Ascii.eqb_eq in E. subst c.
      repeat split; [intros [] | right; eauto].
    + destruct (spanId s) as [i0 rest0]. inversion H; subst.
      destruct (IH i0 rest eq_refl) as [Hs [Hl Hr]]. apply Ascii.eqb_neq in E.
      repeat split; [simpl; now f_equal | apply lacks_cons; auto | assumption].
Qed.

Lemma matchHere_some (s i : string) :
  matchHere s = Some i ->
  exists rest, s = transcludeOf i rest /\ i <> "" /\ lacks closing i.
Proof.
  unfold matchHere. intros H.
  destruct (Js.startsWith directive s) eqn:Hs; [|discriminate].
  apply startsWith_split in Hs.
  destruct (spanId (dropChars (String.length directive) s)) as [i0 rest0] eqn:Hsp.
  destruct (spanId_split _ _ _ Hsp) as [Hd [Hl Hr]].
  destruct i0 as [|a i0]; [discriminate|]. destruct rest0 as [|b rest0]; [discriminate|].
  inversion H; subst i. destruct Hr as [Hr|[r Hr]]; [discriminate|].
  inversion Hr; subst. exists r. split; [|split; [discriminate | assumption]].
  unfold transcludeOf. rewrite Hs at 1. now rewrite Hd.
Qed.

Lemma includes_app (p x : string) : Js.includes p (p ++ x) = true.
Proof.
  destruct (p ++ x)%string eqn:E; simpl; rewrite <- E, startsWith_app; reflexivity.
Qed.

Lemma includes_cons (p : string) (c : ascii) (s : string) :
  Js.includes p s = true -> Js.includes p (String c s) = true.
Proof. intros H. simpl. rewrite H. apply orb_true_r. Qed.

(** X5. Every id that [matchAll] yields is non-empty, has no closing
    brace, and is written in the line as [\transclude{id}]. *)
Theorem matchAll_sound (line id : string) :
  In id (matchAll line) ->
  id <> "" /\ lacks closing id /\ Js.includes (transcludeOf id "") line = true.
Proof.
  unfold matchAll. generalize 0. induction line as [|c line IH]; intros skip Hin;
    [destruct Hin|].
  cbn [matchAllFrom] in Hin. destruct skip as [|k].
  - destruct (matchHere (String c line)) as [i|] eqn:Hm.
    + destruct Hin as [<-|Hin].
      * destruct (matchHere_some _ _ Hm) as [rest [Hs [Hne Hl]]].
        split; [assumption|]. split; [assumption|]. rewrite Hs.
        replace (transcludeOf i rest) with (transcludeOf i "" ++ rest)%string.
        -- apply includes_app.
        -- unfold transcludeOf. rewrite !string_app_assoc. reflexivity.
      * destruct (IH _ Hin) as [H1 [H2 H3]]. auto using includes_cons.
    + destruct (IH _ Hin) as [H1 [H2 H3]]. auto using includes_cons.
  - destruct (IH _ Hin) as [H1 [H2 H3]]. auto using includes_cons.
Qed.

Lemma matchAll_sound_witness :
  "b" <> "" /\ lacks closing "b"
  /\ Js.includes (transcludeOf "b" "") "x \transclude{b} y" = true.
Proof.
  apply (matchAll_sound "x \transclude{b} y" "b"). vm_compute. now left.
Defined.

Lemma splitLines_line (l rest cur : string) :
  lacks Js.newline l ->
  Js.splitLines cur (l ++ rest) = Js.splitLines (cur ++ l) rest.
Proof.
  revert cur. induction l as [|c l IH]; intros cur Hl; simpl.
  - now rewrite string_app_nil_r.
  - apply lacks_cons in Hl. destruct Hl as [Hc Hl].
    apply Ascii.eqb_neq in Hc. rewrite Hc, (IH _ Hl), string_app_assoc. reflexivity.
Qed.

Lemma split_join (lines : list string) :
  lines <> [] ->
  (forall l, In l lines -> lacks Js.newline l) ->
  Js.split_newline (Js.join_newline lines) = lines.
Proof.
  intros Hne Hall.
  unfold Js.split_newline. induction lines as [|l lines IH]; [contradiction|].
  destruct lines as [|l2 lines].
  - simpl. rewrite <- (string_app_nil_r l) at 1.
    rewrite splitLines_line by (apply Hall; now left). reflexivity.
  - change (Js.join_newline (l :: l2 :: lines))
      with (l ++ String Js.newline (Js.join_newline (l2 :: lines)))%string.
    rewrite splitLines_line by (apply Hall; now left).
    cbn [Js.splitLines append]. rewrite Ascii.eqb_refl. f_equal.
    apply IH; [discriminate|]. intros l' Hl'. apply Hall. now right.
Qed.

(** ** buildGraph: the current roots *)

Lemma findRoot_parentless (g : Nodes) (id : string) (node : TreeNode) :
  Js.get g id = Some node -> transcludedBy node = [] -> findRoot g id = Some id.
Proof. intros Hg Ht. unfold findRoot. now rewrite Hg, Ht. Qed.

(** X7. After a rebuild the current roots are the pinned roots, in their
    order, followed by at most one more: the root [findRoot] gives for the
    tree of the active editor, unless that root is pinned already. A rebuild
    does not change the pinned roots. *)
Theorem buildGraph_roots (env : Env) (forest : Forest) (v v' : View) :
  buildGraph env forest v = Some (Normal v') ->
  pinnedRootIds v' = pinnedRootIds v
  /\ (Js.truthy (activeTreeId env) = false -> currentRootIds v' = pinnedRootIds v)
  /\ (forall id, activeTreeId env = Some id -> id <> "" ->
        exists r,
          findRoot (nodes v') id = Some r
          /\ (In r (pinnedRootIds v) -> currentRootIds v' = pinnedRootIds v)
          /\ (~ In r (pinnedRootIds v) -> currentRootIds v' = pinnedRootIds v ++ [r]))
  /\ (NoDup (pinnedRootIds v) -> NoDup (currentRootIds v')).
Proof.
  intros Hb. unfold buildGraph in Hb.
  destruct (resolutionMap (taxonCustomization env) forest []) as [g0|g0 m]; [|inversion Hb].
  destruct (determineRoots (parseTransclusions env g0) (pinnedRootIds v) (activeTreeId env))
    as [roots|] eqn:Hd; [|discriminate].
  inversion Hb; subst v'; clear Hb. cbn [nodes currentRootIds pinnedRootIds].
  set (g := parseTransclusions env g0) in *.
  unfold determineRoots in Hd.
  split; [reflexivity|]. split; [|split].
  - intros Hf. destruct (activeTreeId env) as [id|]; [|now inversion Hd].
    rewrite Hf in Hd. now inversion Hd.
  - intros id Hid Hne. rewrite Hid in Hd.
    assert (Ht : Js.truthy (Some id) = true).
    { apply truthy_true. eauto. }
    rewrite Ht in Hd.
    destruct (Js.get g id) as [node|] eqn:Hg.
    + destruct (Nat.eqb (List.length (transcludedBy node)) 0) eqn:Hz.
      * apply Nat.eqb_eq in Hz. apply length_zero_iff_nil in Hz.
        exists id. split; [now apply findRoot_parentless with (node := node)|].
        destruct (Js.has id (pinnedRootIds v)) eqn:Hp; simpl in Hd.
        -- rewrite (findRoot_parentless g id node Hg Hz), Hp in Hd. inversion Hd.
           apply has_true_iff in Hp. split; [reflexivity | contradiction].
        -- inversion Hd. apply has_false_iff in Hp. split; [contradiction | reflexivity].
      * simpl in Hd. destruct (findRoot g id) as [r|]; [|discriminate].
        exists r. split; [reflexivity|].
        destruct (Js.has r (pinnedRootIds v)) eqn:Hp; inversion Hd.
        -- apply has_true_iff in Hp. split; [reflexivity | contradiction].
        -- apply has_false_iff in Hp. split; [contradiction | reflexivity].
    + destruct (findRoot g id) as [r|]; [|discriminate].
      exists r. split; [reflexivity|].
      destruct (Js.has r (pinnedRootIds v)) eqn:Hp; inversion Hd.
      * apply has_true_iff in Hp. split; [reflexivity | contradiction].
      * apply has_false_iff in Hp. split; [contradiction | reflexivity].
  - intros Hnd. destruct (activeTreeId env) as [id|]; [|now inversion Hd].
    destruct (Js.truthy (Some id)); [|now inversion Hd].
    destruct (match Js.get g id with
              | Some node => _
              | None => false
              end) eqn:Hdirect.
    + inversion Hd. apply NoDup_snoc; [assumption|].
      destruct (Js.get g id) as [node|]; [|discriminate].
      apply andb_prop in Hdirect. destruct Hdirect as [_ Hp].
      now apply negb_true_iff in Hp.
    + destruct (findRoot g id) as [r|]; [|discriminate].
      destruct (Js.has r (pinnedRootIds v)) eqn:Hp; inversion Hd; [assumption|].
      now apply NoDup_snoc.
Qed.

Lemma buildGraph_roots_witness :
  currentRootIds twoCycleView = pinnedRootIds initialView.
Proof.
  apply (buildGraph_roots (mkEnv [] twoCycleFiles None) [plainTree "A"; plainTree "B"]
           initialView twoCycleView).
  - vm_compute. reflexivity.
  - reflexivity.
Defined.

(** ** Rendering: depths and cycle terminators *)

Lemma renderChildren_items (v : View) (fuel depth : nat) (visited cs : list string) :
  forall html items,
    renderChildren v fuel depth visited cs html = Some items ->
    forall i, In i items ->
      In i html
      \/ exists c h, In c cs /\ renderNode v fuel c (S depth) visited = Some h /\ In i h.
Proof.
  induction cs as [|c cs IH]; simpl; intros html items H i Hi.
  - inversion H; subst. now left.
  - destruct (renderNode v fuel c (S depth) visited) as [h|] eqn:Hh; [|discriminate].
    destruct (IH _ _ H i Hi) as [Hin|[c' [h' [Hc [Hr Hin]]]]].
    + apply in_app_or in Hin. destruct Hin as [Hin|Hin]; [now left|].
      right. exists c, h. auto.
    + right. exists c', h'. auto.
Qed.

Lemma renderNode_depths (v : View) :
  forall fuel nodeId depth visited items,
    renderNode v fuel nodeId depth visited = Some items ->
    forall i, In i items ->
      depth <= itemDepth i <= depth + unvisited (nodes v) visited
      /\ (isCycleItem i = true -> itemDepth i = depth -> In nodeId visited).
Proof.
  induction fuel as [|fuel IH]; intros nodeId depth visited items H i Hi; [discriminate|].
  rewrite renderNode_unfold in H.
  destruct (Js.get (nodes v) nodeId) as [node|] eqn:Hg; [|inversion H; subst; destruct Hi].
  destruct (Js.has nodeId visited) eqn:Hv.
  - inversion H; subst. destruct Hi as [<-|[]]. simpl.
    split; [lia|]. intros _ _. now apply has_true_iff.
  - assert (Hself : forall j, In j [treeItem v node nodeId depth] ->
               depth <= itemDepth j <= depth + unvisited (nodes v) visited
               /\ (isCycleItem j = true -> itemDepth j = depth -> In nodeId visited)).
    { intros j [<-|[]]. simpl. split; [lia | discriminate]. }
    destruct (Nat.ltb 0 (List.length (transcludes node)) && Js.has nodeId (expandedNodes v)).
    + destruct (renderChildren_items _ _ _ _ _ _ _ H i Hi) as [Hin|[c [h [Hc [Hr Hin]]]]];
        [now apply Hself|].
      destruct (IH _ _ _ _ Hr i Hin) as [Hd _].
      pose proof (unvisited_add (nodes v) visited nodeId node Hg Hv).
      split; [lia|]. intros _ E. lia.
    + inversion H; subst. now apply Hself.
Qed.

Lemma renderRoots_items (v : View) (fuel : nat) (roots : list string) :
  forall html items,
    renderRoots v fuel roots html = Some items ->
    forall i, In i items ->
      In i html \/ exists r h, In r roots /\ renderNode v fuel r 0 [] = Some h /\ In i h.
Proof.
  induction roots as [|r roots IH]; simpl; intros html items H i Hi.
  - inversion H; subst. now left.
  - destruct (renderNode v fuel r 0 []) as [h|] eqn:Hh; [|discriminate].
    destruct (IH _ _ H i Hi) as [Hin|[r' [h' [Hr' [Hr Hin]]]]].
    + apply in_app_or in Hin. destruct Hin as [Hin|Hin]; [now left|].
      right. exists r, h. auto.
    + right. exists r', h'. auto.
Qed.

(** X8. No item of the rendered view lies deeper than the number of nodes
    of the graph, however the transclusions cycle, and a cycle terminator is
    never drawn at depth 0: a root is always rendered as itself. *)
Theorem getTreeHtml_depths (v : View) (items : list Item) :
  _getTreeHtml v = Some items ->
  forall i, In i items ->
    itemDepth i <= List.length (nodes v)
    /\ (isCycleItem i = true -> 1 <= itemDepth i).
Proof.
  intros H i Hi. unfold _getTreeHtml in H.
  destruct (currentRootIds v) as [|r0 roots].
  - inversion H; subst. destruct Hi as [<-|[]]. simpl. split; [lia | discriminate].
  - destruct (renderRoots_items _ _ _ _ _ H i Hi) as [[]|[r [h [_ [Hr Hin]]]]].
    destruct (renderNode_depths v _ _ _ _ _ Hr i Hin) as [Hd Hc].
    pose proof (unvisited_le (nodes v) []).
    split; [lia|]. intros Hcy.
    destruct (Nat.eq_dec (itemDepth i) 0) as [E|E]; [|lia].
    destruct (Hc Hcy E).
Qed.

Lemma getTreeHtml_depths_witness :
  itemDepth (CycleItem 3 "A") <= List.length (nodes threeCycleView)
  /\ (isCycleItem (CycleItem 3 "A") = true -> 1 <= itemDepth (CycleItem 3 "A")).
Proof.
  apply (getTreeHtml_depths threeCycleView
           [TreeItem "A" 0 false true true true (Some false) "a";
            TreeItem "B" 1 false false true true None "b";
            TreeItem "C" 2 false false true true None "c";
            CycleItem 3 "A"]).
  - vm_compute. reflexivity.
  - simpl. tauto.
Defined.

(** ** The persisted view state *)

Lemma addAll_app (ids acc : list string) :
  NoDup ids -> (forall x, In x ids -> ~ In x acc) -> addAll ids acc = acc ++ ids.
Proof.
  revert acc. induction ids as [|x ids IH]; intros acc Hnd Hdis; unfold addAll in *; simpl.
  - now rewrite app_nil_r.
  - inversion Hnd as [|? ? Hx Hids]; subst.
    assert (Hacc : Js.has x acc = false).
    { apply has_false_iff. apply Hdis. now left. }
    unfold Js.add at 2. rewrite Hacc. rewrite IH; [now rewrite <- app_assoc | assumption |].
    intros y Hy Hin. apply in_app_or in Hin. destruct Hin as [Hin|[->|[]]].
    + apply (Hdis y); [now right | assumption].
    + contradiction.
Qed.

Lemma setOf_nodup (l : list string) : NoDup l -> setOf l = l.
Proof. intros Hnd. unfold setOf. now rewrite addAll_app. Qed.

Lemma addAll_nodup (ids acc : list string) : NoDup acc -> NoDup (addAll ids acc).
Proof.
  revert acc. induction ids as [|x ids IH]; intros acc Hnd; unfold addAll in *; simpl;
    [assumption|]. apply IH. now apply NoDup_add.
Qed.

Lemma in_addAll (ids acc : list string) (x : string) :
  In x (addAll ids acc) <-> In x ids \/ In x acc.
Proof.
  revert acc. induction ids as [|y ids IH]; intros acc; unfold addAll in *; simpl.
  - intuition.
  - rewrite IH, in_add_iff. intuition.
Qed.

Lemma NoDup_delete (x : string) (l : list string) : NoDup l -> NoDup (Js.delete x l).
Proof. intros H. unfold Js.delete. now apply NoDup_filter. Qed.

(** the expanded set stays a set under every gesture and rebuild *)
Lemma perform_expanded_nodup (v v' : View) (op : Op) :
  perform v op = Some v' -> NoDup (expandedNodes v) -> NoDup (expandedNodes v').
Proof.
  intros Hp Hnd.
  destruct op as [[nodeId|nodeId|nodeId|nodeId]|env| | | | |env forestData];
    cbn [perform onDidReceiveMessage] in Hp.
  - unfold autoPinOnInteraction in Hp.
    set (e1 := if Js.has nodeId (expandedNodes v)
               then Js.delete nodeId (expandedNodes v)
               else Js.add nodeId (expandedNodes v)) in *.
    assert (H1 : NoDup e1).
    { unfold e1. destruct (Js.has nodeId (expandedNodes v));
        [now apply NoDup_delete | now apply NoDup_add]. }
    destruct (findRootForNode (setExpanded v e1) nodeId) as [[root|]|]; [| |discriminate].
    + destruct (Js.truthy (Some root) && negb (Js.has root (pinnedRootIds (setExpanded v e1))));
        inversion Hp; subst; simpl; [now apply NoDup_add | assumption].
    + inversion Hp; subst. assumption.
  - unfold autoPinOnInteraction in Hp.
    set (v1 := match Js.get (nodes v) nodeId with
               | Some n => if Nat.ltb 0 (List.length (transcludes n))
                           then setExpanded v (Js.add nodeId (expandedNodes v)) else v
               | None => v
               end) in *.
    assert (H1 : NoDup (expandedNodes v1)).
    { unfold v1. destruct (Js.get (nodes v) nodeId) as [n|]; [|assumption].
      destruct (Nat.ltb 0 (List.length (transcludes n))); [|assumption].
      simpl. now apply NoDup_add. }
    destruct (findRootForNode (setSelected v1 (Some nodeId)) nodeId) as [[root|]|];
      [| |discriminate].
    + destruct (Js.truthy (Some root)
                && negb (Js.has root (pinnedRootIds (setSelected v1 (Some nodeId)))));
        inversion Hp; subst; simpl; [now apply NoDup_add | assumption].
    + inversion Hp; subst. assumption.
  - inversion Hp; subst. unfold togglePin.
    destruct (Js.has nodeId (pinnedRootIds v));
      [|destruct (Nat.leb MAX_PINNED_ROOTS (List.length (pinnedRootIds v)))]; simpl;
      try assumption. now apply NoDup_add.
  - destruct (Js.get (nodes v) nodeId); inversion Hp; subst; assumption.
  - unfold pinToCurrentFile in Hp. destruct (activeTreeId env) as [treeId|];
      [|inversion Hp; subst; assumption].
    destruct (Js.get (nodes v) treeId) as [node|]; [|inversion Hp; subst; assumption].
    destruct (if Nat.ltb 0 (List.length (transcludedBy node))
              then findRoot (nodes v) treeId else Some treeId) as [rootId|];
      [|discriminate].
    destruct (Js.truthy (Some rootId) && negb (Js.has rootId (pinnedRootIds v)));
      inversion Hp; subst; simpl; [now apply NoDup_add | assumption].
  - inversion Hp; subst. unfold unpin. destruct (List.rev (pinnedRootIds v)); assumption.
  - inversion Hp; subst. assumption.
  - inversion Hp; subst. simpl. now apply addAll_nodup.
  - inversion Hp; subst. simpl. apply addAll_nodup. constructor.
  - unfold refresh, buildGraph in Hp.
    destruct (resolutionMap (taxonCustomization env) forestData []) as [g0|g0 m].
    + destruct (determineRoots _ _ _) as [roots|]; [|discriminate].
      inversion Hp; subst. simpl. unfold initialExpansion.
      destruct (initialLoad v); [|assumption].
      destruct (workspaceState v) as [saved|]; [|now apply addAll_nodup].
      destruct (Nat.eqb (List.length (s_expandedNodes saved)) 0);
        [now apply addAll_nodup | assumption].
    + inversion Hp; subst. assumption.
Qed.

(** X9. Every gesture whose handler saves the state leaves in the workspace
    memento exactly the view state it ends with: a provider constructed from
    that memento has the same expanded nodes, pinned roots, focus mode and
    selection. *)
Theorem saved_state_round_trip (v v' : View) (op : Op) :
  NoDup (expandedNodes v) ->
  savesState op = true ->
  perform v op = Some v' ->
  workspaceState v'
    = Some (mkSaved (expandedNodes v') (pinnedRootIds v') (focusMode v') (selectedNodeId v'))
  /\ sameViewState v' (construct (workspaceState v')).
Proof.
  intros Hnd Hs Hp.
  pose proof (perform_expanded_nodup v v' op Hp Hnd) as Hnd'.
  assert (Hw : workspaceState v'
               = Some (mkSaved (expandedNodes v') (pinnedRootIds v') (focusMode v')
                               (selectedNodeId v'))).
  { destruct op as [[nodeId|nodeId|nodeId|nodeId]|env| | | | |env forestData];
      try discriminate; cbn [perform onDidReceiveMessage] in Hp.
    - destruct (autoPinOnInteraction _ nodeId) as [[v2 eff]|]; [|discriminate].
      inversion Hp; subst. reflexivity.
    - destruct (autoPinOnInteraction _ nodeId) as [[v3 eff]|]; [|discriminate].
      inversion Hp; subst. reflexivity.
    - inversion Hp; subst. unfold togglePin.
      destruct (Js.has nodeId (pinnedRootIds v));
        [|destruct (Nat.leb MAX_PINNED_ROOTS (List.length (pinnedRootIds v)))]; reflexivity.
    - inversion Hp; subst. reflexivity.
    - inversion Hp; subst. reflexivity.
    - inversion Hp; subst. reflexivity. }
  split; [exact Hw|]. rewrite Hw. unfold construct, loadState, sameViewState. simpl.
  rewrite (setOf_nodup _ Hnd'). auto.
Qed.

Lemma saved_state_round_trip_witness :
  sameViewState (fst (collapseAll threeCycleView))
                (construct (workspaceState (fst (collapseAll threeCycleView)))).
Proof.
  apply (saved_state_round_trip threeCycleView (fst (collapseAll threeCycleView)) CollapseAll).
  - repeat constructor; simpl; intuition discriminate.
  - reflexivity.
  - reflexivity.
Defined.

(** ** Pinning and unpinning compose *)

Lemma delete_snoc_fresh (x : string) (l : list string) :
  ~ In x l -> Js.delete x (l ++ [x]) = l.
Proof.
  intros Hx. unfold Js.delete. rewrite filter_app. simpl. rewrite String.eqb_refl. simpl.
  rewrite app_nil_r. induction l as [|y l IH]; [reflexivity|]. simpl.
  destruct (String.eqb y x) eqn:E.
  - apply String.eqb_eq in E. subst. exfalso. apply Hx. now left.
  - simpl. f_equal. apply IH. intros H. apply Hx. now right.
Qed.

(** X10. Pinning a root that is not pinned, below the limit, and then
    unpinning it, by a second click on its pin button or by the [unpin]
    command, gives back the pinned roots as they were; the root stays
    expanded. *)
Theorem pin_then_unpin (v : View) (nodeId : string) :
  ~ In nodeId (pinnedRootIds v) ->
  List.length (pinnedRootIds v) < MAX_PINNED_ROOTS ->
  pinnedRootIds (fst (togglePin (fst (togglePin v nodeId)) nodeId)) = pinnedRootIds v
  /\ pinnedRootIds (fst (unpin (fst (togglePin v nodeId)))) = pinnedRootIds v
  /\ In nodeId (expandedNodes (fst (togglePin (fst (togglePin v nodeId)) nodeId)))
  /\ In nodeId (expandedNodes (fst (unpin (fst (togglePin v nodeId))))).
Proof.
  intros Hn Hlt.
  assert (Hh : Js.has nodeId (pinnedRootIds v) = false) by now apply has_false_iff.
  assert (Hl : Nat.leb MAX_PINNED_ROOTS (List.length (pinnedRootIds v)) = false)
    by now apply Nat.leb_gt.
  assert (H1 : fst (togglePin v nodeId)
               = saveState (setPinned v (pinnedRootIds v ++ [nodeId])
                                      (Js.add nodeId (expandedNodes v)))).
  { unfold togglePin. rewrite Hh, Hl. reflexivity. }
  rewrite H1.
  assert (He : In nodeId (Js.add nodeId (expandedNodes v))) by (apply in_add_iff; now right).
  repeat split.
  - unfold togglePin. cbn [saveState setPinned pinnedRootIds].
    assert (Js.has nodeId (pinnedRootIds v ++ [nodeId]) = true) as ->.
    { apply has_true_iff, in_or_app. right. now left. }
    simpl. now apply delete_snoc_fresh.
  - unfold unpin. cbn [saveState setPinned pinnedRootIds].
    rewrite rev_app_distr. simpl. now rewrite removelast_last.
  - unfold togglePin. cbn [saveState setPinned pinnedRootIds expandedNodes].
    assert (Js.has nodeId (pinnedRootIds v ++ [nodeId]) = true) as ->.
    { apply has_true_iff, in_or_app. right. now left. }
    simpl. exact He.
  - unfold unpin. cbn [saveState setPinned pinnedRootIds].
    rewrite rev_app_distr. simpl. exact He.
Qed.

Lemma pin_then_unpin_witness :
  pinnedRootIds (fst (unpin (fst (togglePin threeCycleView "A"))))
  = pinnedRootIds threeCycleView.
Proof.
  apply (pin_then_unpin threeCycleView "A").
  - simpl. tauto.
  - vm_compute. lia.
Defined.

(** ** The cache under all events *)

Lemma afterAdapter_status (lastGood : option Forest) (r : AdapterRun) (ae : bool) :
  fst (afterAdapter lastGood r ae) <> statusUpdating.
Proof.
  unfold afterAdapter. destruct (resolution r) as [[f|es|]|m]; simpl; discriminate.
Qed.

Section CacheInvariant.

Variable P : Cache -> Prop.

Hypothesis P_settle : forall s c o, P s -> P (settle s c o).
Hypothesis P_suspend :
  forall s p k ph,
    P s -> nth_error (fetches s) p = Some ph -> pending ph = true -> P (suspend s p k).
Hypothesis P_start : forall s c, P s -> P (startFetch s c).
Hypothesis P_result : forall s r, P s -> P (setResult s r).
Hypothesis P_clear : forall s, P s -> P (clearInProgress s).
Hypothesis P_callbacks :
  forall s cbs,
    P s ->
    P (mkCache (queryInProgressPromise s) (mostRecentQueryResult s) (isInitialLoad s)
               (forestStatus s) cbs (fetches s) (waiting s) (settled s)).
Hypothesis P_read :
  forall s p status,
    P s -> nth_error (fetches s) p = Some AwaitingAdapter -> status <> statusUpdating ->
    P (withFetches s (setPhase (fetches s) p AwaitingArtifact) status (waiting s)).
Hypothesis P_done :
  forall s p ph status o,
    P s -> nth_error (fetches s) p = Some ph -> pending ph = true ->
    (status <> statusUpdating \/ (status = forestStatus s /\ ph = AwaitingArtifact)) ->
    P (withFetches s (setPhase (fetches s) p (phaseOfOutcome o)) status
         (filter (fun w => negb (Nat.eqb (fst w) p)) (waiting s))).

Lemma inv_await (s : Cache) (p : nat) (c : Caller) (k : Continuation) :
  P s -> P (await s p c k).
Proof.
  intros Hs. unfold await. destruct (nth_error (fetches s) p) as [ph|] eqn:Hp; [|assumption].
  destruct ph; try (now apply P_settle); eapply P_suspend; eauto.
Qed.

Lemma inv_getForest (s : Cache) (c : Caller) (force stale : bool) :
  P s -> P (getForest s c force stale).
Proof.
  intros Hs. unfold getForest.
  destruct ((negb (isSome (queryInProgressPromise s)) || stale)
            && isSome (mostRecentQueryResult s) && negb force); [now apply P_settle|].
  destruct (isSome (queryInProgressPromise s) && negb force); [|now apply P_start].
  destruct (queryInProgressPromise s); [now apply inv_await | assumption].
Qed.

Lemma inv_callbacks (cbs : list Caller) :
  forall s, P s -> P (fold_left (fun acc cb => getForest acc cb false false) cbs s).
Proof.
  induction cbs as [|c cbs IH]; intros s Hs; simpl; [assumption|].
  apply IH. now apply inv_getForest.
Qed.

Lemma inv_resume (o : Settled) (s : Cache) (k : Continuation) :
  P s -> P (resume o s k).
Proof.
  intros Hs. destruct k as [c|c|c], o as [f|]; simpl;
    try (now apply P_settle); try (now apply inv_getForest).
  apply P_settle, P_clear, inv_callbacks, P_result, Hs.
Qed.

Lemma inv_resumes (o : Settled) (ks : list Continuation) :
  forall s, P s -> P (fold_left (resume o) ks s).
Proof.
  induction ks as [|k ks IH]; intros s Hs; simpl; [assumption|].
  apply IH. now apply inv_resume.
Qed.

Lemma inv_step (s : Cache) (e : Event) : P s -> P (step s e).
Proof.
  intros Hs. destruct e as [c force stale|c|c|p r ae|p read]; cbn [step].
  - now apply inv_getForest.
  - unfold forestUpdatedOnDisk.
    destruct (queryInProgressPromise s) as [p|]; [|now apply inv_getForest].
    destruct (nth_error (fetches s) p) as [ph|] eqn:Hp; [|assumption].
    destruct ph; try (now apply inv_getForest); try (now apply P_settle);
      eapply P_suspend; eauto.
  - unfold onForestChange.
    match goal with
    | |- P (if _ then getForest ?s1 _ _ _ else _) => assert (H1 : P s1)
    end.
    { now apply P_callbacks. }
    destruct (isSome _); [now apply inv_getForest | assumption].
  - destruct (nth_error (fetches s) p) as [ph|] eqn:Hp; [|assumption].
    destruct ph; try assumption.
    pose proof (afterAdapter_status (mostRecentQueryResult s) r ae) as Hst.
    destruct (afterAdapter (mostRecentQueryResult s) r ae) as [status [o|]]; simpl in Hst.
    + unfold settlePromise. apply inv_resumes. eapply P_done; eauto.
    + now apply P_read.
  - destruct (nth_error (fetches s) p) as [ph|] eqn:Hp; [|assumption].
    destruct ph; try assumption.
    unfold settlePromise. apply inv_resumes. eapply P_done; eauto.
Qed.

Lemma inv_run (events : list Event) : forall s, P s -> P (run s events).
Proof.
  induction events as [|e events IH]; intros s Hs; [assumption|].
  change (run s (e :: events)) with (run (step s e) events).
  apply IH. now apply inv_step.
Qed.

End CacheInvariant.

Lemma setPhase_length (fs : list Phase) (p : nat) (ph : Phase) :
  List.length (setPhase fs p ph) = List.length fs.
Proof.
  revert p. induction fs as [|x fs IH]; intros [|p]; simpl; auto.
Qed.

Lemma setPhase_other (fs : list Phase) (p q : nat) (ph : Phase) :
  q <> p -> nth_error (setPhase fs p ph) q = nth_error fs q.
Proof.
  revert p q. induction fs as [|x fs IH]; intros [|p] [|q] Hne; simpl;
    try reflexivity; try congruence. apply IH. lia.
Qed.

Lemma setPhase_same (fs : list Phase) (p : nat) (ph ph0 : Phase) :
  nth_error fs p = Some ph0 -> nth_error (setPhase fs p ph) p = Some ph.
Proof.
  revert p. induction fs as [|x fs IH]; intros [|p] H; simpl in *; try discriminate; auto.
Qed.

Lemma setPhase_app (fs : list Phase) (x : Phase) (p : nat) (ph : Phase) :
  p < List.length fs -> setPhase (fs ++ [x]) p ph = setPhase fs p ph ++ [x].
Proof.
  revert p. induction fs as [|y fs IH]; intros [|p] H; simpl in *; try lia; auto.
  f_equal. apply IH. lia.
Qed.

Lemma noneStranded_run (events : list Event) : noneStranded (run initialCache events).
Proof.
  apply (inv_run noneStranded).
  - intros s c o [Hw Hq]. split; assumption.
  - intros s p k ph [Hw Hq] Hp Hpend. split; [|assumption].
    intros q k' Hin. simpl in Hin. apply in_app_or in Hin.
    destruct Hin as [Hin|[E|[]]]; [exact (Hw q k' Hin)|]. inversion E; subst. eauto.
  - intros s c [Hw Hq]. split.
    + intros q k Hin. simpl in *. apply in_app_or in Hin. destruct Hin as [Hin|[E|[]]].
      * destruct (Hw q k Hin) as [ph [Hp Hpend]]. exists ph. split; [|assumption].
        rewrite nth_error_app1; [assumption|]. apply nth_error_Some. congruence.
      * inversion E; subst. exists AwaitingAdapter. split; [|reflexivity].
        rewrite nth_error_app2, Nat.sub_diag; [reflexivity | lia].
    + intros p E. simpl in *. inversion E; subst. rewrite length_app. simpl. lia.
  - intros s r [Hw Hq]. split; assumption.
  - intros s [Hw Hq]. split; [assumption | discriminate].
  - intros s cbs [Hw Hq]. split; assumption.
  - intros s p status [Hw Hq] Hp _. split.
    + intros q k Hin. simpl in *. destruct (Nat.eq_dec q p) as [->|Hne].
      * exists AwaitingArtifact. split; [|reflexivity]. eapply setPhase_same; eauto.
      * rewrite setPhase_other by assumption. now apply Hw with (k := k).
    + intros q E. simpl in *. rewrite setPhase_length. now apply Hq.
  - intros s p ph status o [Hw Hq] Hp Hpend _. split.
    + intros q k Hin. simpl in *. apply filter_In in Hin. destruct Hin as [Hin Hne].
      simpl in Hne. apply negb_true_iff, Nat.eqb_neq in Hne.
      rewrite setPhase_other by assumption. now apply Hw with (k := k).
    + intros q E. simpl in *. rewrite setPhase_length. now apply Hq.
  - split; [intros p k [] | discriminate].
Qed.

(** X11. Whatever calls and completions arrive, in whatever order, every
    suspended caller waits on a fetch that is still in flight: when no fetch
    is in flight nobody is left waiting. *)
Theorem no_caller_stranded (events : list Event) :
  (forall p k, In (p, k) (waiting (run initialCache events)) ->
     exists ph, nth_error (fetches (run initialCache events)) p = Some ph
                /\ pending ph = true)
  /\ (inFlight (run initialCache events) = 0 -> waiting (run initialCache events) = []).
Proof.
  destruct (noneStranded_run events) as [Hw _]. split; [exact Hw|].
  intros Hz. destruct (waiting (run initialCache events)) as [|[p k] w] eqn:E;
    [reflexivity|]. exfalso.
  destruct (Hw p k (or_introl eq_refl)) as [ph [Hp Hpend]].
  apply nth_error_In in Hp.
  assert (Hin : In ph (filter pending (fetches (run initialCache events)))).
  { apply filter_In. split; assumption. }
  unfold inFlight in Hz. apply length_zero_iff_nil in Hz. rewrite Hz in Hin. destruct Hin.
Qed.

Lemma no_caller_stranded_witness :
  waiting (run initialCache
             [CallGetForest 0 false false; CallGetForest 1 false false;
              AdapterDone 0 (succeeds [plainTree "A"]) false]) = [].
Proof.
  apply (no_caller_stranded
           [CallGetForest 0 false false; CallGetForest 1 false false;
            AdapterDone 0 (succeeds [plainTree "A"]) false]).
  reflexivity.
Defined.

Lemma updatingMeansFetching_run (events : list Event) :
  updatingMeansFetching (run initialCache events).
Proof.
  apply (inv_run updatingMeansFetching); unfold updatingMeansFetching.
  - intros s c o H. exact H.
  - intros s p k ph H _ _. exact H.
  - intros s c _ _. simpl. eauto.
  - intros s r H. exact H.
  - intros s H. exact H.
  - intros s cbs H. exact H.
  - intros s p status _ _ Hst E. simpl in E. contradiction.
  - intros s p ph status o H Hp _ [Hst|[Hst ->]] E; simpl in E; [contradiction|].
    subst status. destruct (H E) as [fs Hfs]. simpl. rewrite Hfs in *.
    assert (Hlt : p < List.length fs).
    { destruct (Nat.lt_ge_cases p (List.length fs)) as [L|L]; [assumption|].
      exfalso. rewrite nth_error_app2 in Hp by assumption.
      destruct (p - List.length fs) as [|d]; simpl in Hp; [discriminate|].
      destruct d; discriminate. }
    exists (setPhase fs p (phaseOfOutcome o)). now apply setPhase_app.
  - discriminate.
Qed.

(** X12. Whatever calls and completions arrive, the status reads updating
    only while a fetch is in flight, namely the one started last, which still
    awaits its adapter. *)
Theorem updating_only_while_fetching (events : list Event) :
  forestStatus (run initialCache events) = statusUpdating ->
  1 <= inFlight (run initialCache events)
  /\ nth_error (fetches (run initialCache events))
               (invocations (run initialCache events) - 1) = Some AwaitingAdapter.
Proof.
  intros E. destruct (updatingMeansFetching_run events E) as [fs Hfs].
  unfold inFlight, invocations. rewrite Hfs, filter_app, !length_app. simpl. split; [lia|].
  rewrite nth_error_app2 by lia.
  replace (List.length fs + 1 - 1 - List.length fs) with 0 by lia. reflexivity.
Qed.

Lemma updating_only_while_fetching_witness :
  1 <= inFlight (run initialCache (burst 2)).
Proof.
  apply (updating_only_while_fetching (burst 2)). reflexivity.
Defined.

Lemma cached_run (events : list Event) (s : Cache) : cached s -> cached (run s events).
Proof.
  apply (inv_run cached); unfold cached; simpl; try (intros; assumption); discriminate.
Qed.

(** X13. Once a fetch has given the cache a forest the cache is never
    emptied again, whatever happens afterwards: from then on a read with
    [fastReturnStale] is answered at once with the cached forest and starts
    no fetch, even while fetches are in flight. *)
Theorem stale_read_after_first_result (pre post : list Event) (c : Caller) :
  mostRecentQueryResult (run initialCache pre) <> None ->
  exists forest,
    mostRecentQueryResult (run initialCache (pre ++ post)) = Some forest
    /\ step (run initialCache (pre ++ post)) (CallGetForest c false true)
       = settle (run initialCache (pre ++ post)) c (Fulfilled forest).
Proof.
  intros Hpre. rewrite run_app.
  pose proof (cached_run post (run initialCache pre) Hpre) as Hc. unfold cached in Hc.
  destruct (mostRecentQueryResult (run (run initialCache pre) post)) as [forest|] eqn:E;
    [|contradiction].
  exists forest. split; [reflexivity|].
  cbn [step]. unfold getForest. rewrite E. simpl.
  now rewrite orb_true_r.
Qed.

Lemma stale_read_after_first_result_witness :
  exists forest,
    mostRecentQueryResult
      (run initialCache
         ([CallGetForest 0 false false; AdapterDone 0 (succeeds [plainTree "a"]) false]
          ++ [CallGetForest 1 true false])) = Some forest
    /\ step (run initialCache
               ([CallGetForest 0 false false; AdapterDone 0 (succeeds [plainTree "a"]) false]
                ++ [CallGetForest 1 true false]))
            (CallGetForest 2 false true)
       = settle (run initialCache
                   ([CallGetForest 0 false false;
                     AdapterDone 0 (succeeds [plainTree "a"]) false]
                    ++ [CallGetForest 1 true false]))
                2 (Fulfilled forest).
Proof.
  apply (stale_read_after_first_result
           [CallGetForest 0 false false; AdapterDone 0 (succeeds [plainTree "a"]) false]
           [CallGetForest 1 true false] 2).
  vm_compute. discriminate.
Defined.

(** ** parseTaxonAndTitle *)

Lemma wordChar_plain c :
  Utils.isWordChar c = true ->
  Js.lowerChar c = c /\ Js.isSpace c = false /\ Ascii.eqb c ":" = false.
Proof.
  destruct c as [b0 b1 b2 b3 b4 b5 b6 b7].
  destruct b0, b1, b2, b3, b4, b5, b6, b7; vm_compute; intro H;
    try discriminate H; repeat split.
Qed.

Lemma lowerChar_idem c : Js.lowerChar (Js.lowerChar c) = Js.lowerChar c.
Proof.
  destruct c as [b0 b1 b2 b3 b4 b5 b6 b7].
  destruct b0, b1, b2, b3, b4, b5, b6, b7; vm_compute; reflexivity.
Qed.

Lemma toLowerCase_idem s : Js.toLowerCase (Js.toLowerCase s) = Js.toLowerCase s.
Proof.
  induction s as [|c r IH]; cbn [Js.toLowerCase]; [reflexivity|].
  now rewrite lowerChar_idem, IH.
Qed.

Lemma word_lower s : Utils.allWordChars s = true -> Js.toLowerCase s = s.
Proof.
  induction s as [|c r IH]; cbn [Utils.allWordChars Js.toLowerCase]; intro H;
    [reflexivity|].
  apply andb_true_iff in H. destruct H as [Hc Hr].
  destruct (wordChar_plain c Hc) as [-> _]. now rewrite IH.
Qed.

Lemma word_no_colon s : Utils.allWordChars s = true -> Js.indexOf ":" s = None.
Proof.
  induction s as [|c r IH]; cbn [Utils.allWordChars Js.indexOf]; intro H;
    [reflexivity|].
  apply andb_true_iff in H. destruct H as [Hc Hr].
  destruct (wordChar_plain c Hc) as (_ & _ & ->). now rewrite IH.
Qed.

Lemma word_trimEnd s : Utils.allWordChars s = true -> Js.trimEnd s = s.
Proof.
  induction s as [|c r IH]; cbn [Utils.allWordChars Js.trimEnd]; intro H;
    [reflexivity|].
  apply andb_true_iff in H. destruct H as [Hc Hr].
  destruct (wordChar_plain c Hc) as (_ & -> & _). rewrite (IH Hr).
  now destruct r.
Qed.

Lemma word_trim s : Utils.allWordChars s = true -> Js.trim s = s.
Proof.
  intro H. unfold Js.trim.
  assert (Js.trimStart s = s) as ->.
  { destruct s as [|c r]; [reflexivity|]. cbn [Utils.allWordChars] in H.
    apply andb_true_iff in H. destruct H as [Hc _].
    cbn [Js.trimStart]. now destruct (wordChar_plain c Hc) as (_ & -> & _). }
  now apply word_trimEnd.
Qed.

Lemma indexOf_app p c r :
  Js.indexOf c p = None ->
  Js.indexOf c (p ++ String c r)%string = Some (String.length p).
Proof.
  induction p as [|a p IH]; cbn [Js.indexOf String.append String.length]; intro H.
  - now rewrite Ascii.eqb_refl.
  - destruct (Ascii.eqb a c); [discriminate|].
    destruct (Js.indexOf c p); [discriminate|]. now rewrite IH.
Qed.

Lemma substring_prefix p r : substring 0 (String.length p) (p ++ r)%string = p.
Proof.
  induction p as [|a p IH]; cbn [String.append String.length substring].
  - now destruct r.
  - now rewrite IH.
Qed.

Lemma substringFrom_suffix p c r :
  Js.substringFrom (String.length p + 1) (p ++ String c r)%string = r.
Proof.
  induction p as [|a p IH]; cbn [String.append String.length Nat.add Js.substringFrom].
  - reflexivity.
  - exact IH.
Qed.

Lemma trim_after_space s : Js.trim (String " " s) = Js.trim s.
Proof. reflexivity. Qed.

(** the input split at its first colon *)
Lemma parseTaxonAndTitle_split (p r : string) :
  Js.indexOf ":" p = None -> p <> "" -> String.length p < 30 ->
  Utils.parseTaxonAndTitle (p ++ String ":" r)%string =
  let potentialTaxon := Js.toLowerCase (Js.trim p) in
  let titlePart := Js.trim r in
  if Utils.propertyTruthy (Utils.lookup Utils.getAbbreviationToFullNameMap potentialTaxon) then
    match Utils.lookup Utils.getAbbreviationToFullNameMap potentialTaxon with
    | Utils.Own fullName => (Utils.TaxonName fullName, titlePart)
    | _ => (Utils.TaxonInherited potentialTaxon, titlePart)
    end
  else if Utils.propertyTruthy (Utils.lookup Utils.TAXON_MAP potentialTaxon) then
    (Utils.TaxonName potentialTaxon, titlePart)
  else if Utils.isTaxonWord potentialTaxon
          && Nat.leb (String.length potentialTaxon) 20 then
    (Utils.TaxonName potentialTaxon, titlePart)
  else (Utils.NoTaxon, (p ++ String ":" r)%string).
Proof.
  intros Hc Hp Hl. unfold Utils.parseTaxonAndTitle.
  rewrite (indexOf_app p ":" r Hc).
  assert (Nat.ltb 0 (String.length p) = true) as ->.
  { apply Nat.ltb_lt. destruct p; [congruence | cbn; lia]. }
  assert (Nat.ltb (String.length p) 30 = true) as -> by now apply Nat.ltb_lt.
  cbn [andb]. rewrite substring_prefix, substringFrom_suffix. reflexivity.
Qed.

Lemma lowered_wordChar c :
  Utils.isWordChar (Js.lowerChar c) = true ->
  Js.isSpace c = false /\ Ascii.eqb c ":" = false.
Proof.
  destruct c as [b0 b1 b2 b3 b4 b5 b6 b7].
  destruct b0, b1, b2, b3, b4, b5, b6, b7; vm_compute; intro H;
    try discriminate H; repeat split.
Qed.

(** a text whose lower-case form is a word has no colon and no blank *)
Lemma lowered_word s :
  Utils.allWordChars (Js.toLowerCase s) = true ->
  Js.indexOf ":" s = None /\ Js.trim s = s
  /\ String.length (Js.toLowerCase s) = String.length s.
Proof.
  intro H.
  assert (He : Js.indexOf ":" s = None /\ Js.trimEnd s = s
               /\ String.length (Js.toLowerCase s) = String.length s).
  { induction s as [|c r IH]; [repeat split|].
    cbn [Js.toLowerCase Utils.allWordChars] in H.
    apply andb_true_iff in H. destruct H as [Hc Hr].
    destruct (lowered_wordChar c Hc) as [Hs Hn].
    destruct (IH Hr) as (Hi & Ht & Hl).
    cbn [Js.indexOf Js.trimEnd Js.toLowerCase String.length].
    rewrite Hn, Hi, Ht, Hs, Hl. repeat split. now destruct r. }
  destruct He as (Hi & Ht & Hl). repeat split; try assumption.
  unfold Js.trim.
  assert (Js.trimStart s = s) as ->; [|exact Ht].
  destruct s as [|c r]; [reflexivity|].
  cbn [Js.toLowerCase Utils.allWordChars] in H.
  apply andb_true_iff in H. destruct H as [Hc _].
  cbn [Js.trimStart]. now destruct (lowered_wordChar c Hc) as [-> _].
Qed.

(** X14.  What [getTaxonAbbreviation] writes, [parseTaxonAndTitle] reads back:
    for every built-in taxon, in any capitalisation and without a custom
    abbreviation, the text made of its abbreviation, a colon, a space and a
    title parses to the taxon's full lower-case name and the trimmed title;
    the full name in place of the abbreviation parses to the same. *)
Theorem parseTaxonAndTitle_reads_abbreviation (taxon title : string) :
  Js.has (Js.toLowerCase taxon) (Js.keys Utils.TAXON_MAP) = true ->
  Utils.parseTaxonAndTitle
    (Utils.abbreviationText (Utils.getTaxonAbbreviation [] (Some taxon))
     ++ ": " ++ title)%string
    = (Utils.TaxonName (Js.toLowerCase taxon), Js.trim title)
  /\ Utils.parseTaxonAndTitle (taxon ++ ": " ++ title)%string
    = (Utils.TaxonName (Js.toLowerCase taxon), Js.trim title).
Proof.
  intro Hk.
  assert (Hne : taxon <> "").
  { intros ->. vm_compute in Hk. discriminate. }
  assert (Hw : Utils.allWordChars (Js.toLowerCase taxon) = true
               /\ String.length (Js.toLowerCase taxon) < 30).
  { apply has_true_iff in Hk. revert Hk. generalize (Js.toLowerCase taxon).
    intros k Hk. vm_compute in Hk.
    repeat (destruct Hk as [<- | Hk]; [split; [reflexivity | cbn; lia]|]).
    contradiction. }
  split.
  - unfold Utils.getTaxonAbbreviation.
    destruct (String.eqb_spec taxon ""); [contradiction|].
    change (Utils.customAbbreviation [] (Js.toLowerCase taxon)) with (@None string).
    cbn [Js.truthy].
    apply has_true_iff in Hk. revert Hk. generalize (Js.toLowerCase taxon).
    intros k Hk. vm_compute in Hk.
    repeat (destruct Hk as [<- | Hk]; [reflexivity|]). contradiction.
  - destruct Hw as [Hw Hl].
    destruct (lowered_word taxon Hw) as (Hc & Ht & Hlen).
    change (taxon ++ ": " ++ title)%string
      with (taxon ++ String ":" (String " " title))%string.
    rewrite (parseTaxonAndTitle_split taxon _ Hc Hne) by (rewrite <- Hlen; exact Hl).
    rewrite Ht, trim_after_space.
    apply has_true_iff in Hk. revert Hk. generalize (Js.toLowerCase taxon).
    intros k Hk. vm_compute in Hk.
    repeat (destruct Hk as [<- | Hk]; [reflexivity|]). contradiction.
Qed.

Lemma parseTaxonAndTitle_reads_abbreviation_witness :
  Utils.parseTaxonAndTitle "thm: Stokes" = (Utils.TaxonName "theorem", "Stokes")
  /\ Utils.parseTaxonAndTitle "Theorem: Stokes" = (Utils.TaxonName "theorem", "Stokes").
Proof.
  exact (parseTaxonAndTitle_reads_abbreviation "Theorem" "Stokes" eq_refl).
Defined.

Lemma get_Some_In {A} (m : list (string * A)) k v :
  Js.get m k = Some v -> In (k, v) m.
Proof.
  induction m as [|[k' v'] m IH]; cbn [Js.get]; [discriminate|].
  destruct (String.eqb_spec k' k) as [->|_].
  - intros [= ->]. now left.
  - intro H. right. now apply IH.
Qed.

(** of the names inherited from [Object.prototype], two are in lower case *)
Lemma lowered_prototype_key s :
  Js.has (Js.toLowerCase s) Utils.objectPrototypeKeys = true ->
  Js.toLowerCase s = "constructor" \/ Js.toLowerCase s = "__proto__".
Proof.
  intro H. pose proof (toLowerCase_idem s) as Hi. revert H Hi.
  generalize (Js.toLowerCase s). intros k H Hi.
  apply has_true_iff in H. vm_compute in H.
  repeat (destruct H as [<- | H];
          [first [now left | now right | vm_compute in Hi; discriminate Hi]|]).
  contradiction.
Qed.

(** X15.  The shape of every answer of [parseTaxonAndTitle].  Without a
    taxon the title is the input, unchanged.  With one, the title is the
    trimmed text after the first colon, which stands at an index from 1 to
    29; the taxon is a word of at most twenty characters among a-z and the
    hyphen, or, when the text before the colon is "constructor" or
    "__proto__" in some capitalisation, the value the object literal
    inherits under that name, which is not a string. *)
Theorem parseTaxonAndTitle_shape (input : string) :
  match Utils.parseTaxonAndTitle input with
  | (Utils.NoTaxon, title) => title = input
  | (found, title) =>
      (exists colonIndex,
          Js.indexOf ":" input = Some colonIndex
          /\ 0 < colonIndex < 30
          /\ title = Js.trim (Js.substringFrom (colonIndex + 1) input))
      /\ match found with
         | Utils.TaxonName taxon =>
             Utils.isTaxonWord taxon = true /\ String.length taxon <= 20
         | Utils.TaxonInherited key => key = "constructor" \/ key = "__proto__"
         | Utils.NoTaxon => False
         end
  end.
Proof.
  unfold Utils.parseTaxonAndTitle.
  destruct (Js.indexOf ":" input) as [i|] eqn:Hi; [|reflexivity].
  destruct (Nat.ltb 0 i && Nat.ltb i 30) eqn:Hr; [|reflexivity].
  apply andb_true_iff in Hr. destruct Hr as [H0 H30].
  apply Nat.ltb_lt in H0. apply Nat.ltb_lt in H30.
  assert (Hpos : exists colonIndex, Some i = Some colonIndex /\ 0 < colonIndex < 30
            /\ Js.trim (Js.substringFrom (i + 1) input)
               = Js.trim (Js.substringFrom (colonIndex + 1) input)).
  { exists i. repeat split; assumption. }
  cbv zeta.
  set (s := Js.trim (substring 0 i input)).
  destruct (Utils.propertyTruthy
              (Utils.lookup Utils.getAbbreviationToFullNameMap (Js.toLowerCase s))) eqn:Ha.
  - unfold Utils.lookup in *.
    destruct (Js.get Utils.getAbbreviationToFullNameMap (Js.toLowerCase s))
      as [full|] eqn:Hg.
    + split; [exact Hpos|].
      apply get_Some_In in Hg. revert Hg. generalize (Js.toLowerCase s).
      intros k Hg. vm_compute in Hg.
      repeat (destruct Hg as [[= <- <-] | Hg]; [split; [reflexivity | cbn; lia]|]).
      contradiction.
    + destruct (Js.has (Js.toLowerCase s) Utils.objectPrototypeKeys) eqn:Hp;
        [|discriminate Ha].
      split; [exact Hpos|]. now apply lowered_prototype_key.
  - destruct (Utils.propertyTruthy (Utils.lookup Utils.TAXON_MAP (Js.toLowerCase s)))
      eqn:Hm.
    + split; [exact Hpos|].
      unfold Utils.lookup in Hm, Ha.
      destruct (Js.get Utils.TAXON_MAP (Js.toLowerCase s)) as [abbr|] eqn:Hg.
      * apply get_Some_In in Hg. clear Ha Hm. revert Hg.
        generalize (Js.toLowerCase s). intros k Hg. vm_compute in Hg.
        repeat (destruct Hg as [[= <- <-] | Hg]; [split; [reflexivity | cbn; lia]|]).
        contradiction.
      * destruct (Js.has (Js.toLowerCase s) Utils.objectPrototypeKeys) eqn:Hp;
          [|discriminate Hm].
        destruct (Js.get Utils.getAbbreviationToFullNameMap (Js.toLowerCase s)) as [full|] eqn:Hf;
          [|discriminate Ha].
        exfalso. apply get_Some_In in Hf. revert Hf Ha.
        generalize (Js.toLowerCase s). intros k Hf Ha. vm_compute in Hf.
        repeat (destruct Hf as [[= <- <-] | Hf]; [discriminate Ha|]).
        contradiction.
    + destruct (Utils.isTaxonWord (Js.toLowerCase s)
                && Nat.leb (String.length (Js.toLowerCase s)) 20) eqn:Hw;
        [|reflexivity].
      apply andb_true_iff in Hw. destruct Hw as [Hw Hl].
      apply Nat.leb_le in Hl. split; [exact Hpos|]. split; assumption.
Qed.

(** a word before the colon *)
Lemma parse_word (word rest : string) :
  Utils.isTaxonWord word = true ->
  String.length word <= 20 ->
  Utils.parseTaxonAndTitle (word ++ ":" ++ rest)%string =
  ( (if String.eqb word "constructor" then Utils.TaxonInherited word
     else match Js.get Utils.getAbbreviationToFullNameMap word with
          | Some fullName => Utils.TaxonName fullName
          | None => Utils.TaxonName word
          end),
    Js.trim rest ).
Proof.
  intros Hw Hl. pose proof Hw as Hw'. unfold Utils.isTaxonWord in Hw'.
  apply andb_true_iff in Hw'. destruct Hw' as [Hne Hall].
  assert (Hne' : word <> "").
  { intros ->. discriminate Hne. }
  change (word ++ ":" ++ rest)%string with (word ++ String ":" rest)%string.
  rewrite (parseTaxonAndTitle_split word rest (word_no_colon word Hall) Hne') by lia.
  rewrite (word_trim word Hall), (word_lower word Hall). cbv zeta.
  destruct (String.eqb_spec word "constructor") as [->|Hc]; [reflexivity|].
  assert (Hp : Js.has word Utils.objectPrototypeKeys = false).
  { destruct (Js.has word Utils.objectPrototypeKeys) eqn:Hp; [|reflexivity].
    exfalso. apply has_true_iff in Hp. vm_compute in Hp.
    repeat (destruct Hp as [<- | Hp];
            [first [now apply Hc | vm_compute in Hall; discriminate Hall]|]).
    contradiction. }
  unfold Utils.lookup. rewrite Hp.
  destruct (Js.get Utils.getAbbreviationToFullNameMap word) as [full|] eqn:Hg.
  - assert (Ht : Utils.propertyTruthy (Utils.Own full) = true).
    { apply get_Some_In in Hg. vm_compute in Hg.
      repeat (destruct Hg as [[= <- <-] | Hg]; [reflexivity|]). contradiction. }
    now rewrite Ht.
  - cbn [Utils.propertyTruthy].
    apply Nat.leb_le in Hl. rewrite Hw, Hl. cbn [andb].
    now destruct (Utils.propertyTruthy
                    match Js.get Utils.TAXON_MAP word with
                    | Some value => Utils.Own value
                    | None => Utils.Undefined
                    end).
Qed.

(** X16.  A custom taxon: any word of at most twenty characters among a-z
    and the hyphen, other than "constructor", is accepted before the colon;
    the taxon is the word itself, or the full name when the word is a known
    abbreviation, and the title is the trimmed rest.  The word
    "constructor" yields the inherited, non-string value instead. *)
Theorem parseTaxonAndTitle_custom_word (word rest : string) :
  Utils.isTaxonWord word = true ->
  String.length word <= 20 ->
  Utils.parseTaxonAndTitle (word ++ ":" ++ rest)%string =
  ( (if String.eqb word "constructor" then Utils.TaxonInherited word
     else match Js.get Utils.getAbbreviationToFullNameMap word with
          | Some fullName => Utils.TaxonName fullName
          | None => Utils.TaxonName word
          end),
    Js.trim rest ).
Proof. exact (parse_word word rest). Qed.

Lemma parseTaxonAndTitle_custom_word_witness :
  Utils.parseTaxonAndTitle "open-question: P vs NP "
  = (Utils.TaxonName "open-question", "P vs NP").
Proof.
  apply (parseTaxonAndTitle_custom_word "open-question" " P vs NP ").
  - reflexivity.
  - cbn. lia.
Defined.

(** ** getTaxonAbbreviation *)

Lemma toLowerCase_empty s : Js.toLowerCase s = "" <-> s = "".
Proof. destruct s; cbn [Js.toLowerCase]; split; congruence. Qed.

Lemma toLowerCase_substring n : forall s,
  Js.toLowerCase (substring 0 n s) = substring 0 n (Js.toLowerCase s).
Proof.
  induction n as [|n IH]; intros [|c r]; cbn [substring Js.toLowerCase]; try reflexivity.
  now rewrite IH.
Qed.

Lemma getCustomTaxonConfig_lowerCaseKeys settings :
  Utils.getCustomTaxonConfig (lowerCaseKeys settings) = Utils.getCustomTaxonConfig settings.
Proof.
  unfold Utils.getCustomTaxonConfig. generalize (@nil (string * Utils.TaxonCustom)).
  induction settings as [|[k v] l IH]; intro acc; cbn [lowerCaseKeys map fold_left fst snd];
    [reflexivity|].
  rewrite toLowerCase_idem. apply IH.
Qed.

(** X17.  On Latin-1 text, the text of the embedding, [getTaxonAbbreviation]
    does not see capitalisation: two taxons with the same lower-case form
    get the same abbreviation under any settings, the fall-back of the
    first three letters included, and writing the keys of the customisation
    setting in lower case changes no abbreviation. *)
Theorem getTaxonAbbreviation_ignores_case (settings : Utils.TaxonSettings)
  (taxon other : string) :
  Js.toLowerCase taxon = Js.toLowerCase other ->
  Utils.getTaxonAbbreviation settings (Some taxon)
    = Utils.getTaxonAbbreviation settings (Some other)
  /\ Utils.getTaxonAbbreviation (lowerCaseKeys settings) (Some taxon)
    = Utils.getTaxonAbbreviation settings (Some taxon).
Proof.
  intro H. split.
  - unfold Utils.getTaxonAbbreviation.
    destruct (String.eqb_spec taxon "") as [->|Ht];
      destruct (String.eqb_spec other "") as [->|Ho]; try reflexivity.
    + symmetry in H. now apply (proj1 (toLowerCase_empty other)) in H.
    + now apply (proj1 (toLowerCase_empty taxon)) in H.
    + cbv zeta. rewrite !toLowerCase_substring, H. reflexivity.
  - unfold Utils.getTaxonAbbreviation, Utils.customAbbreviation.
    now rewrite getCustomTaxonConfig_lowerCaseKeys.
Qed.

Lemma getTaxonAbbreviation_ignores_case_witness :
  Utils.getTaxonAbbreviation [("Gadget", Utils.mkCustom None (Some "gdg"))] (Some "GADGET")
    = Utils.getTaxonAbbreviation [("Gadget", Utils.mkCustom None (Some "gdg"))] (Some "gadget")
  /\ Utils.getTaxonAbbreviation (lowerCaseKeys [("Gadget", Utils.mkCustom None (Some "gdg"))])
       (Some "GADGET")
    = Utils.getTaxonAbbreviation [("Gadget", Utils.mkCustom None (Some "gdg"))] (Some "GADGET").
Proof.
  exact (getTaxonAbbreviation_ignores_case
           [("Gadget", Utils.mkCustom None (Some "gdg"))] "GADGET" "gadget" eq_refl).
Defined.

(** ** The node set of a rebuild, and answers in the old format *)

Lemma keys_set {A} (g : list (string * A)) (k : string) (v : A) :
  Js.keys (Js.set g k v) = Js.add k (Js.keys g).
Proof.
  unfold Js.add, Js.has, Js.keys.
  induction g as [|[k' v'] r IH]; cbn [Js.set map fst existsb]; [reflexivity|].
  rewrite (String.eqb_sym k k').
  destruct (String.eqb k' k); cbn [orb map fst]; [reflexivity|].
  rewrite IH. now destruct (existsb (String.eqb k) (map fst r)).
Qed.

Lemma resolutionMap_keys (settings : Utils.TaxonSettings) (l : Forest) :
  forall g g',
    resolutionMap settings l g = Normal g' ->
    Js.keys g' = addAll (urisOf l) (Js.keys g).
Proof.
  induction l as [|e l IH]; cbn [resolutionMap urisOf flat_map]; intros g g' H.
  - now inversion H.
  - destruct (uri e) as [u|]; [|discriminate].
    destruct (Js.truthy (Some u)); [|discriminate].
    rewrite (IH _ _ H), keys_set. reflexivity.
Qed.

Lemma length_add (x : string) (l : list string) :
  List.length (Js.add x l) <= S (List.length l).
Proof.
  unfold Js.add. destruct (Js.has x l); [lia|]. rewrite length_app. cbn. lia.
Qed.

Lemma length_addAll (ids acc : list string) :
  List.length (addAll ids acc) <= List.length ids + List.length acc.
Proof.
  revert acc. induction ids as [|x ids IH]; intro acc; unfold addAll in *;
    cbn [fold_left List.length]; [lia|].
  specialize (IH (Js.add x acc)). pose proof (length_add x acc). lia.
Qed.

Lemma length_urisOf (forest : Forest) :
  List.length (urisOf forest) <= List.length forest.
Proof.
  induction forest as [|e l IH]; cbn [urisOf flat_map List.length]; [lia|].
  rewrite length_app. fold (urisOf l). destruct (uri e); cbn [List.length]; lia.
Qed.

Lemma buildGraph_keys (env : Env) (forest : Forest) (v v' : View) :
  buildGraph env forest v = Some (Normal v') ->
  Js.keys (nodes v') = setOf (urisOf forest).
Proof.
  unfold buildGraph.
  destruct (resolutionMap (taxonCustomization env) forest []) as [g0|g0 m] eqn:Hr;
    [|intros [= <-]; discriminate].
  destruct (determineRoots _ _ _) as [roots|]; [|discriminate].
  intros [= <-]. cbn [nodes].
  destruct (parseTransclusions_sameEntries env g0) as [-> _].
  exact (resolutionMap_keys _ _ _ _ Hr).
Qed.

(** X18.  The node set of a rebuild: the nodes of a completed [buildGraph]
    are the distinct uris of the forest, in the order of their first
    occurrence, whatever the files, the editor and the view before were; so
    there are never more nodes than entries. *)
Theorem buildGraph_nodes (env : Env) (forest : Forest) (v v' : View) :
  buildGraph env forest v = Some (Normal v') ->
  Js.keys (nodes v') = setOf (urisOf forest)
  /\ NoDup (Js.keys (nodes v'))
  /\ (forall u, In u (Js.keys (nodes v')) <-> exists e, In e forest /\ uri e = Some u)
  /\ List.length (Js.keys (nodes v')) <= List.length forest.
Proof.
  intro H. apply buildGraph_keys in H. rewrite H. split; [reflexivity|].
  split; [apply addAll_nodup; constructor|]. split.
  - intro u. unfold setOf. rewrite in_addAll. unfold urisOf. rewrite in_flat_map.
    split.
    + intros [[e [Hin Hu]] | []]. exists e. split; [assumption|].
      destruct (uri e) as [u0|]; [|destruct Hu].
      destruct Hu as [-> | []]. reflexivity.
    + intros [e [Hin Hu]]. left. exists e. split; [assumption|]. rewrite Hu. now left.
  - pose proof (length_addAll (urisOf forest) []) as H1.
    pose proof (length_urisOf forest) as H2. unfold setOf. cbn [List.length] in H1. lia.
Qed.

Lemma buildGraph_nodes_witness :
  Js.keys (nodes twoCycleView) = setOf (urisOf [plainTree "A"; plainTree "B"])
  /\ NoDup (Js.keys (nodes twoCycleView))
  /\ (forall u, In u (Js.keys (nodes twoCycleView))
        <-> exists e, In e [plainTree "A"; plainTree "B"] /\ uri e = Some u)
  /\ List.length (Js.keys (nodes twoCycleView)) <= 2.
Proof.
  exact (buildGraph_nodes (mkEnv [] twoCycleFiles None) [plainTree "A"; plainTree "B"]
           initialView twoCycleView eq_refl).
Defined.

Lemma urisOf_oldFormat (entries : list (string * TreeBody)) :
  urisOf (oldFormat entries) = map fst entries.
Proof.
  induction entries as [|[id body] l IH]; cbn [oldFormat map urisOf flat_map fst snd];
    [reflexivity|].
  cbn [withUri uri app]. f_equal. exact IH.
Qed.

(** X19.  An answer in the old format, an object from tree id to tree:
    [queryForest] turns it into one entry for each key, in order, carrying
    the key as its uri, and reports the forest valid.  [buildGraph] on that
    forest completes with the keys as its nodes when no key is the empty
    string, and throws on the empty key. *)
Theorem old_format_builds (root : string) (folders : list string) (status : Status)
  (lastGood : option Forest) (run : AdapterRun)
  (artifact : option ArtifactRead) (entries : list (string * TreeBody))
  (env : Env) (v : View) :
  resolution run = inl (QObject entries) ->
  queryForest (root :: folders) status (Some run) lastGood artifact
    = (statusValid, Returns (oldFormat entries))
  /\ map uri (oldFormat entries) = map (fun ie => Some (fst ie)) entries
  /\ ((forall ie, In ie entries -> fst ie <> "") ->
      exists v', buildGraph env (oldFormat entries) v = Some (Normal v')
                 /\ Js.keys (nodes v') = setOf (map fst entries))
  /\ ((exists ie, In ie entries /\ fst ie = "") ->
      exists v', buildGraph env (oldFormat entries) v
                 = Some (Throw v' "Unexpected lack of uri")).
Proof.
  intro Hr. split; [|split; [|split]].
  - unfold queryForest, awaitAdapter, afterAdapter. cbn [getRoot]. rewrite Hr. reflexivity.
  - unfold oldFormat. rewrite map_map. reflexivity.
  - intro Hne.
    destruct (resolutionMap_completes (taxonCustomization env) (oldFormat entries))
      with (g := @nil (string * TreeNode)) as [g0 Hg0].
    { intros e He. unfold oldFormat in He. apply in_map_iff in He.
      destruct He as [ie [<- Hin]]. cbn [withUri uri]. apply truthy_true.
      exists (fst ie). split; [reflexivity | now apply Hne]. }
    destruct (determineRoots_finishes (parseTransclusions env g0) (pinnedRootIds v)
                (activeTreeId env)) as [roots Hroots].
    eexists. split.
    + unfold buildGraph. rewrite Hg0, Hroots. reflexivity.
    + cbn [nodes]. destruct (parseTransclusions_sameEntries env g0) as [-> _].
      rewrite (resolutionMap_keys _ _ _ _ Hg0), urisOf_oldFormat. reflexivity.
  - intros [ie [Hin He]].
    destruct (first_without_uri (oldFormat entries)) as [pre [bad [post [Hf [Hpre Hbad]]]]].
    { exists (withUri (fst ie) (snd ie)). split.
      - unfold oldFormat. apply in_map_iff. now exists ie.
      - cbn [withUri uri]. now rewrite He. }
    destruct (resolutionMap_completes (taxonCustomization env) pre Hpre []) as [g1 Hg1].
    eexists. unfold buildGraph. rewrite Hf, resolutionMap_app, Hg1.
    rewrite (resolutionMap_throws_at _ _ _ _ Hbad). reflexivity.
Qed.

Lemma old_format_builds_witness :
  queryForest ["/forest"] statusUpdating
              (Some (succeedsOld [("A", plainBody "A.tree"); ("B", plainBody "B.tree")]))
              None None
    = (statusValid, Returns [plainTree "A"; plainTree "B"])
  /\ exists v', buildGraph (mkEnv [] twoCycleFiles None)
                  [plainTree "A"; plainTree "B"] initialView = Some (Normal v')
                /\ Js.keys (nodes v') = ["A"; "B"].
Proof.
  destruct (old_format_builds "/forest" [] statusUpdating None
              (succeedsOld [("A", plainBody "A.tree"); ("B", plainBody "B.tree")]) None
              [("A", plainBody "A.tree"); ("B", plainBody "B.tree")]
              (mkEnv [] twoCycleFiles None) initialView eq_refl) as (Hq & _ & Hb & _).
  split; [exact Hq|].
  apply Hb. intros ie [<- | [<- | []]]; discriminate.
Defined.

(** ** getTree and the nodes of the structure view *)

Lemma find_first {A} (f : A -> bool) (l : list A) (x : A) :
  find f l = Some x ->
  f x = true /\ exists pre post, l = pre ++ x :: post /\ forall e, In e pre -> f e = false.
Proof.
  induction l as [|a l IH]; cbn [find]; [discriminate|].
  destruct (f a) eqn:Ha.
  - intros [= ->]. split; [assumption|]. exists [], l. split; [reflexivity | intros ? []].
  - intro H. destruct (IH H) as (Hx & pre & post & -> & Hpre). split; [assumption|].
    exists (a :: pre), post. split; [reflexivity|].
    intros e [<- | He]; [assumption | now apply Hpre].
Qed.

Lemma last_with_uri (l : Forest) (u : string) :
  (exists e, In e l /\ uri e = Some u) ->
  exists pre e post,
    l = pre ++ e :: post /\ uri e = Some u /\ forall e', In e' post -> uri e' <> Some u.
Proof.
  induction l as [|a l IH]; intros [e [Hin Hu]]; [destruct Hin|].
  destruct (find (fun x => match uri x with
                           | Some u0 => String.eqb u0 u
                           | None => false
                           end) l) as [x|] eqn:Hf.
  - destruct (find_some _ _ Hf) as [Hx Hux].
    destruct (uri x) as [ux|] eqn:Ex; [|discriminate].
    apply String.eqb_eq in Hux. subst ux.
    destruct IH as (pre & e0 & post & -> & H0 & Hpost); [eauto|].
    exists (a :: pre), e0, post. auto.
  - pose proof (find_none _ _ Hf) as Hnone.
    assert (Hl : forall e', In e' l -> uri e' <> Some u).
    { intros e' Hin' He'. specialize (Hnone e' Hin'). cbv beta in Hnone.
      rewrite He' in Hnone.
      now rewrite String.eqb_refl in Hnone. }
    destruct Hin as [-> | Hin]; [|now destruct (Hl e Hin)].
    exists [], e, l. auto.
Qed.

Lemma in_urisOf (l : Forest) (u : string) :
  In u (urisOf l) <-> exists e, In e l /\ uri e = Some u.
Proof.
  unfold urisOf. rewrite in_flat_map. split.
  - intros [e [Hin Hu]]. exists e. split; [assumption|].
    destruct (uri e) as [u0|]; [|destruct Hu]. destruct Hu as [-> | []]. reflexivity.
  - intros [e [Hin Hu]]. exists e. split; [assumption|]. rewrite Hu. now left.
Qed.

Lemma unique_uri (l : Forest) (u : string) :
  NoDup (urisOf l) ->
  forall a b, In a l -> In b l -> uri a = Some u -> uri b = Some u -> a = b.
Proof.
  induction l as [|x l IH]; intros Hnd a b Ha Hb Hua Hub; [destruct Ha|].
  cbn [urisOf flat_map] in Hnd. fold (urisOf l) in Hnd.
  assert (Hx : uri x = Some u -> forall c, In c l -> uri c = Some u -> False).
  { intros Hux c Hc Huc. rewrite Hux in Hnd. cbn [app] in Hnd.
    inversion Hnd as [|? ? Hnot _]; subst. apply Hnot. apply in_urisOf. eauto. }
  assert (Hl : NoDup (urisOf l)).
  { destruct (uri x); [now inversion Hnd | exact Hnd]. }
  destruct Ha as [-> | Ha], Hb as [-> | Hb].
  - reflexivity.
  - destruct (Hx Hua b Hb Hub).
  - destruct (Hx Hub a Ha Hua).
  - now apply IH.
Qed.

Lemma in_keys_uri (env : Env) (forest : Forest) (v v' : View) (u : string) :
  buildGraph env forest v = Some (Normal v') ->
  In u (Js.keys (nodes v')) <-> exists e, In e forest /\ uri e = Some u.
Proof.
  intro H. rewrite (buildGraph_keys _ _ _ _ H). unfold setOf.
  rewrite in_addAll. unfold urisOf. rewrite in_flat_map. split.
  - intros [[e [Hin Hu]] | []]. exists e. split; [assumption|].
    destruct (uri e) as [u0|]; [|destruct Hu]. destruct Hu as [-> | []]. reflexivity.
  - intros [e [Hin Hu]]. left. exists e. split; [assumption|]. rewrite Hu. now left.
Qed.

(** X20.  [getTree] against the structure view, both reading the cached
    forest.  A tree id is a node of the view exactly when [getTree] finds
    it without calling [getForest].  [getTree] answers with the first entry
    of that uri; the node carries the file path and the title of the last
    one; so they describe the same entry when the uri occurs once. *)
Theorem getTree_and_node (s : Cache) (forest : Forest) (env : Env) (v v' : View)
  (treeId : string) :
  mostRecentQueryResult s = Some forest ->
  buildGraph env forest v = Some (Normal v') ->
  (Js.get (nodes v') treeId = None <-> getTree s treeId = AwaitGetForest)
  /\ forall node, Js.get (nodes v') treeId = Some node ->
       exists first last,
         getTree s treeId = FoundInCache first
         /\ uri first = Some treeId /\ uri last = Some treeId
         /\ (exists pre post, forest = pre ++ first :: post
               /\ forall e, In e pre -> uri e <> Some treeId)
         /\ (exists pre post, forest = pre ++ last :: post
               /\ forall e, In e post -> uri e <> Some treeId)
         /\ n_sourcePath node = sourcePath last
         /\ n_title node = displayTitle (taxonCustomization env) last treeId
         /\ (NoDup (urisOf forest) -> first = last).
Proof.
  intros Hs Hb.
  assert (Hfind : forall tree, findTree forest treeId = Some tree ->
            uri tree = Some treeId
            /\ exists pre post, forest = pre ++ tree :: post
                 /\ forall e, In e pre -> uri e <> Some treeId).
  { intros tree Hf. apply find_first in Hf. destruct Hf as (Hu & pre & post & Hl & Hpre).
    destruct (uri tree) as [u|] eqn:Eu; [|discriminate].
    apply String.eqb_eq in Hu. subst u. split; [reflexivity|].
    exists pre, post. split; [assumption|]. intros e He Hue.
    specialize (Hpre e He). rewrite Hue, String.eqb_refl in Hpre. discriminate. }
  assert (Hnode : Js.get (nodes v') treeId <> None <-> findTree forest treeId <> None).
  { split.
    - intros Hg Hf. apply Hg. clear Hg.
      destruct (Js.get (nodes v') treeId) as [n|] eqn:Hg; [|reflexivity].
      apply get_in_keys in Hg. apply (in_keys_uri _ _ _ _ _ Hb) in Hg.
      destruct Hg as [e [Hin Hu]].
      pose proof (find_none _ _ Hf e Hin) as Hn. cbv beta in Hn.
      rewrite Hu, String.eqb_refl in Hn. discriminate.
    - intros Hf Hg. apply Hf. clear Hf.
      destruct (findTree forest treeId) as [tree|] eqn:Hf; [|reflexivity].
      destruct (Hfind tree eq_refl) as (Hu & pre & post & Hl & _).
      assert (Hin : In treeId (Js.keys (nodes v'))).
      { apply (in_keys_uri _ _ _ _ _ Hb). exists tree. split; [|assumption].
        rewrite Hl. apply in_or_app. right. now left. }
      apply in_keys_get in Hin. destruct Hin as [n Hn]. congruence. }
  split.
  - unfold getTree. rewrite Hs.
    destruct (findTree forest treeId) as [tree|] eqn:Hf;
      destruct (Js.get (nodes v') treeId) as [n|] eqn:Hg; split; intro H;
      try discriminate H; try reflexivity.
    + exfalso. apply (proj2 Hnode); [discriminate | reflexivity].
    + exfalso. apply (proj1 Hnode); [discriminate | reflexivity].
  - intros node Hg.
    destruct (findTree forest treeId) as [first|] eqn:Hf;
      [|exfalso; apply (proj1 Hnode); [rewrite Hg; discriminate | reflexivity]].
    destruct (Hfind first eq_refl) as (Hu1 & pre1 & post1 & Hl1 & Hpre1).
    destruct (last_with_uri forest treeId) as (pre & last & post & Hl & Hu & Hpost).
    { exists first. split; [|assumption]. rewrite Hl1. apply in_or_app. right. now left. }
    exists first, last.
    split; [unfold getTree; now rewrite Hs, Hf|].
    split; [assumption|]. split; [assumption|].
    split; [exists pre1, post1; auto|]. split; [exists pre, post; auto|].
    assert (Hn : n_sourcePath node = sourcePath last
                 /\ n_title node = displayTitle (taxonCustomization env) last treeId).
    { unfold buildGraph in Hb.
      destruct (resolutionMap (taxonCustomization env) forest []) as [g0|g0 m] eqn:Hr;
        [|inversion Hb].
      destruct (determineRoots _ _ _) as [roots|]; [|discriminate].
      inversion Hb; subst v'; clear Hb. cbn [nodes] in Hg.
      rewrite Hl, resolutionMap_app in Hr.
      destruct (resolutionMap (taxonCustomization env) pre []) as [g1|g1 m] eqn:Hp;
        [|discriminate].
      cbn [resolutionMap] in Hr. rewrite Hu in Hr.
      destruct (Js.truthy (Some treeId)); [|discriminate].
      pose proof (resolutionMap_last _ _ _ _ treeId Hr Hpost) as Hg0.
      rewrite get_set_same in Hg0.
      pose proof (parseTransclusions_sameTitles env g0 treeId) as Ht.
      destruct (parseTransclusions_sameEntries env g0) as [_ Hp'].
      specialize (Hp' treeId). rewrite Hg0, Hg in Ht, Hp'.
      cbn in Ht, Hp'. split; congruence. }
    destruct Hn as [Hn1 Hn2]. split; [assumption|]. split; [assumption|].
    intro Hnd. apply (unique_uri forest treeId Hnd); try assumption.
    + rewrite Hl1. apply in_or_app. right. now left.
    + rewrite Hl. apply in_or_app. right. now left.
Qed.

Lemma getTree_and_node_witness :
  exists first last,
    getTree (mkCache None (Some [plainTree "A"; plainTree "B"]) false statusValid [] [] [] [])
            "B" = FoundInCache first
    /\ uri first = Some "B" /\ uri last = Some "B"
    /\ first = last.
Proof.
  destruct (getTree_and_node
              (mkCache None (Some [plainTree "A"; plainTree "B"]) false statusValid [] [] [] [])
              [plainTree "A"; plainTree "B"] (mkEnv [] twoCycleFiles None)
              initialView twoCycleView "B" eq_refl eq_refl) as [_ H].
  destruct (H (mkNode "B" "B" None [] "" [] "B.tree" ["A"] ["A"]) eq_refl)
    as (first & last & Hg & Hu1 & Hu2 & _ & _ & _ & _ & Hsame).
  exists first, last. repeat split; try assumption.
  apply Hsame. vm_compute. repeat constructor; cbn; intuition discriminate.
Defined.

(** ** renameTreeById: the lines written back *)

Lemma nth_error_assign (l : list string) (v : string) : forall i m,
  i < List.length l ->
  nth_error (EditForest.assign l i v) m = if Nat.eqb m i then Some v else nth_error l m.
Proof.
  induction l as [|x l IH]; intros i m Hi; cbn [List.length] in Hi; [lia|].
  destruct i as [|i]; cbn [EditForest.assign].
  - destruct m; reflexivity.
  - destruct m as [|m]; cbn [nth_error Nat.eqb]; [reflexivity|]. apply IH. lia.
Qed.

Lemma length_assign (l : list string) (v : string) : forall i,
  i < List.length l -> List.length (EditForest.assign l i v) = List.length l.
Proof.
  induction l as [|x l IH]; intros i Hi; cbn [List.length] in Hi; [lia|].
  destruct i as [|i]; cbn [EditForest.assign List.length]; [reflexivity|].
  rewrite IH by lia. reflexivity.
Qed.

Lemma nth_error_spliceIn (l : list string) (v : string) : forall k m,
  k <= List.length l ->
  nth_error (EditForest.spliceIn l k v) m =
  if Nat.ltb m k then nth_error l m
  else if Nat.eqb m k then Some v else nth_error l (m - 1).
Proof.
  induction l as [|x l IH]; intros k m Hk; cbn [List.length] in Hk.
  - assert (k = 0) as -> by lia. cbn [EditForest.spliceIn].
    destruct m as [|m]; [reflexivity|]. cbn. now destruct m.
  - destruct k as [|k]; cbn [EditForest.spliceIn].
    + destruct m as [|m]; [reflexivity|]. cbn. now rewrite ?Nat.sub_0_r.
    + destruct m as [|m]; [reflexivity|]. cbn [nth_error].
      rewrite IH by lia. change (Nat.ltb (S m) (S k)) with (Nat.ltb m k).
      change (Nat.eqb (S m) (S k)) with (Nat.eqb m k).
      destruct (Nat.ltb m k) eqn:E1; [reflexivity|].
      destruct (Nat.eqb m k) eqn:E2; [reflexivity|].
      apply Nat.ltb_ge in E1. apply Nat.eqb_neq in E2.
      destruct m as [|m]; [lia|]. cbn [Nat.sub nth_error]. now rewrite Nat.sub_0_r.
Qed.

Lemma assign_same (l : list string) (v : string) : forall i,
  nth_error l i = Some v -> EditForest.assign l i v = l.
Proof.
  induction l as [|x l IH]; intros [|i] H; cbn [nth_error] in H; try discriminate.
  - now inversion H.
  - cbn [EditForest.assign]. now rewrite IH.
Qed.

Lemma filter_assign (q : string -> bool) (l : list string) (v x : string) : forall i,
  nth_error l i = Some x -> q x = q v ->
  (q v = false -> filter q (EditForest.assign l i v) = filter q l)
  /\ count q (EditForest.assign l i v) = count q l.
Proof.
  unfold count.
  induction l as [|a l IH]; intros [|i] H Hq; cbn [nth_error] in H; try discriminate.
  - inversion H; subst a. cbn [EditForest.assign filter]. rewrite Hq.
    split; [intros ->; reflexivity|]. destruct (q v); reflexivity.
  - cbn [EditForest.assign filter]. destruct (IH i H Hq) as [H1 H2].
    split; [intro Hv; now rewrite H1|]. destruct (q a); cbn [List.length]; now rewrite H2.
Qed.

Lemma filter_spliceIn (q : string -> bool) (l : list string) (v : string) : forall k,
  (q v = false -> filter q (EditForest.spliceIn l k v) = filter q l)
  /\ count q (EditForest.spliceIn l k v) = (if q v then 1 else 0) + count q l.
Proof.
  unfold count.
  induction l as [|a l IH]; intros [|k]; cbn [EditForest.spliceIn filter];
    try (split; [intros ->; reflexivity | destruct (q v); reflexivity]).
  destruct (IH k) as [H1 H2]. split; [intro Hv; now rewrite H1|].
  destruct (q a); cbn [List.length]; rewrite H2; lia.
Qed.

Lemma filter_spliceOut (q : string -> bool) (l : list string) (y : string) : forall j,
  nth_error l j = Some y ->
  (q y = false -> filter q (EditForest.spliceOut l j) = filter q l)
  /\ count q (EditForest.spliceOut l j) = count q l - (if q y then 1 else 0).
Proof.
  unfold count.
  induction l as [|a l IH]; intros [|j] H; cbn [nth_error] in H; try discriminate.
  - inversion H; subst a. cbn [EditForest.spliceOut filter].
    split; [intros ->; reflexivity|]. destruct (q y); cbn [List.length]; lia.
  - cbn [EditForest.spliceOut filter]. destruct (IH j H) as [H1 H2].
    split; [intro Hy; now rewrite H1|].
    destruct (q a); cbn [List.length]; rewrite H2; [|reflexivity].
    destruct (q y) eqn:Hy; [|lia].
    assert (0 < List.length (filter q l)); [|lia].
    apply nth_error_In in H.
    assert (Hin : In y (filter q l)) by (apply filter_In; auto).
    destruct (filter q l); [destruct Hin | cbn; lia].
Qed.

Lemma in_assign (l : list string) (v : string) : forall i, In v (EditForest.assign l i v).
Proof.
  induction l as [|a l IH]; intros i.
  - induction i as [|i IHi]; cbn [EditForest.assign]; [now left | now right].
  - destruct i; cbn [EditForest.assign]; [now left | right; apply IH].
Qed.

Lemma in_spliceIn (l : list string) (v : string) : forall k, In v (EditForest.spliceIn l k v).
Proof.
  induction l as [|a l IH]; intros [|k]; cbn [EditForest.spliceIn];
    try (now left). right. apply IH.
Qed.

Lemma lastIndex_shift (p : string -> bool) (l : list string) : forall i d,
  lastIndex p l (S i) (option_map S d) = option_map S (lastIndex p l i d).
Proof.
  induction l as [|x l IH]; intros i d; cbn [lastIndex]; [reflexivity|].
  rewrite <- IH. now destruct (p x).
Qed.

Lemma lastIndex_none (p : string -> bool) (l : list string) : forall i d,
  lastIndex p l i d = None -> d = None /\ forall x, In x l -> p x = false.
Proof.
  induction l as [|a l IH]; intros i d H; cbn [lastIndex] in H.
  - split; [assumption | intros ? []].
  - destruct (IH _ _ H) as [Hd Hl]. destruct (p a) eqn:Ha; [discriminate|].
    split; [assumption|]. intros x [<- | Hx]; [assumption | now apply Hl].
Qed.

Lemma lastIndex_all_false (p : string -> bool) (l : list string) : forall i d,
  (forall x, In x l -> p x = false) -> lastIndex p l i d = d.
Proof.
  induction l as [|a l IH]; intros i d H; cbn [lastIndex]; [reflexivity|].
  rewrite (H a (or_introl eq_refl)). apply IH. intros x Hx. apply H. now right.
Qed.

Lemma lastIndex_intro (p : string -> bool) (l : list string) : forall k i d,
  lastAt p l k -> lastIndex p l i d = Some (i + k).
Proof.
  induction l as [|a l IH]; intros k i d (x & Hx & Hp & Hlast).
  - destruct k; discriminate.
  - cbn [lastIndex]. destruct k as [|k]; cbn [nth_error] in Hx.
    + inversion Hx; subst a. rewrite Hp, Nat.add_0_r.
      apply lastIndex_all_false. intros y Hy.
      destruct (In_nth_error _ _ Hy) as [m Hm].
      apply (Hlast (S m) y); [lia | exact Hm].
    + rewrite (IH k (S i)); [f_equal; lia|].
      exists x. split; [assumption|]. split; [assumption|].
      intros m y Hm Hy. apply (Hlast (S m) y); [lia | exact Hy].
Qed.

Lemma lastIndex_spec (p : string -> bool) (l : list string) (k : nat) :
  lastIndex p l 0 None = Some k -> lastAt p l k.
Proof.
  assert (H : forall l i d k, lastIndex p l i d = Some k ->
            (d = Some k /\ forall x, In x l -> p x = false)
            \/ (i <= k /\ lastAt p l (k - i))).
  { clear l k. induction l as [|a l IH]; intros i d k H; cbn [lastIndex] in H.
    - left. split; [assumption | intros ? []].
    - destruct (IH _ _ _ H) as [[Hd Hl] | [Hi (x & Hx & Hp & Hlast)]].
      + destruct (p a) eqn:Ha.
        * inversion Hd; subst k. right. split; [lia|]. rewrite Nat.sub_diag.
          exists a. split; [reflexivity|]. split; [assumption|].
          intros m y Hm Hy. destruct m as [|m]; [lia|]. cbn [nth_error] in Hy.
          apply Hl. eapply nth_error_In. exact Hy.
        * left. split; [assumption|]. intros x [<- | Hx]; [assumption | now apply Hl].
      + right. split; [lia|]. replace (k - i) with (S (k - S i)) by lia.
        exists x. split; [exact Hx|]. split; [assumption|].
        intros m y Hm Hy. destruct m as [|m]; [lia|]. cbn [nth_error] in Hy.
        apply (Hlast m y); [lia | exact Hy]. }
  intro Hk. destruct (H l 0 None k Hk) as [[Hd _] | [_ Hl]]; [discriminate|].
  now rewrite Nat.sub_0_r in Hl.
Qed.

Lemma title_not_taxon (line : string) :
  EditForest.isTitleLine line = true -> EditForest.isTaxonLine line = false.
Proof.
  intro H. destruct (EditForest.isTaxonLine line) eqn:E; [exfalso | reflexivity].
  unfold EditForest.isTitleLine, EditForest.isTaxonLine in *.
  destruct line as [|a [|b [|c r]]]; cbn [Js.startsWith] in H, E;
    repeat match goal with
           | H0 : (_ && _)%bool = true |- _ => apply andb_true_iff in H0; destruct H0
           | H0 : false = true |- _ => discriminate H0
           end.
  match goal with
  | H1 : Ascii.eqb ?x c = true, H2 : Ascii.eqb ?y c = true |- _ =>
      apply Ascii.eqb_eq in H1; apply Ascii.eqb_eq in H2; rewrite <- H1 in H2;
      discriminate H2
  end.
Qed.

Lemma scanLines_indices (lines : list string) : forall i found,
  EditForest.titleLineIndex (EditForest.scanLines lines i found)
    = lastIndex EditForest.isTitleLine lines i (EditForest.titleLineIndex found)
  /\ EditForest.taxonLineIndex (EditForest.scanLines lines i found)
    = lastIndex EditForest.isTaxonLine lines i (EditForest.taxonLineIndex found).
Proof.
  induction lines as [|line rest IH]; intros i found;
    cbn [EditForest.scanLines lastIndex]; [split; reflexivity|].
  destruct (IH (S i)
              (if EditForest.isTitleLine line
               then EditForest.mkScan (Some i) (EditForest.taxonLineIndex found) (Some i)
               else if EditForest.isTaxonLine line
               then EditForest.mkScan (EditForest.titleLineIndex found) (Some i) (Some i)
               else if EditForest.isOtherMetadata line
               then EditForest.mkScan (EditForest.titleLineIndex found)
                      (EditForest.taxonLineIndex found) (Some i)
               else found)) as [-> ->].
  destruct (EditForest.isTitleLine line) eqn:Ht.
  - rewrite (title_not_taxon line Ht). split; reflexivity.
  - destruct (EditForest.isTaxonLine line); [split; reflexivity|].
    destruct (EditForest.isOtherMetadata line); split; reflexivity.
Qed.

Lemma count_zero (p : string -> bool) (l : list string) :
  (forall x, In x l -> p x = false) -> count p l = 0 /\ filter p l = [].
Proof.
  unfold count. induction l as [|a l IH]; intro H; cbn [filter]; [split; reflexivity|].
  rewrite (H a (or_introl eq_refl)). apply IH. intros x Hx. apply H. now right.
Qed.

Lemma count_pos (p : string -> bool) (l : list string) (i : nat) (x : string) :
  nth_error l i = Some x -> p x = true -> 0 < count p l.
Proof.
  intros H Hp. apply nth_error_In in H. unfold count.
  assert (Hin : In x (filter p l)) by (apply filter_In; auto).
  destruct (filter p l); [destruct Hin | cbn; lia].
Qed.

Lemma in_spliceOut (l : list string) (v : string) : forall i j,
  nth_error l i = Some v -> i <> j -> In v (EditForest.spliceOut l j).
Proof.
  induction l as [|a l IH]; intros [|i] [|j] H Hij; cbn [nth_error] in H;
    try discriminate; try lia; cbn [EditForest.spliceOut].
  - inversion H. now left.
  - eapply nth_error_In. exact H.
  - right. apply (IH i j); [assumption | lia].
Qed.

Lemma in_spliceIn_old (l : list string) (v w : string) : forall k,
  In v l -> In v (EditForest.spliceIn l k w).
Proof.
  induction l as [|a l IH]; intros [|k] H; cbn [EditForest.spliceIn];
    try (now right); try (destruct H).
  - now left.
  - right. now apply IH.
Qed.

Lemma new_lines (newTitle newTaxon : string) :
  EditForest.isTitleLine (EditForest.titleLine newTitle) = true
  /\ EditForest.isTaxonLine (EditForest.titleLine newTitle) = false
  /\ EditForest.isTitleLine (EditForest.taxonLine newTaxon) = false
  /\ EditForest.isTaxonLine (EditForest.taxonLine newTaxon) = true.
Proof. repeat split. Qed.

(** the four shapes of the file, by the scan: the last title line and the
    last taxon line, when there are such lines *)
Lemma scan_shapes (lines : list string) :
  let found := EditForest.scanLines lines 0 (EditForest.mkScan None None None) in
  match EditForest.titleLineIndex found with
  | Some i => lastAt EditForest.isTitleLine lines i
  | None => forall x, In x lines -> EditForest.isTitleLine x = false
  end
  /\ match EditForest.taxonLineIndex found with
     | Some j => lastAt EditForest.isTaxonLine lines j
     | None => forall x, In x lines -> EditForest.isTaxonLine x = false
     end.
Proof.
  cbv zeta. destruct (scanLines_indices lines 0 (EditForest.mkScan None None None)) as [-> ->].
  cbn [EditForest.titleLineIndex EditForest.taxonLineIndex]. split.
  - destruct (lastIndex EditForest.isTitleLine lines 0 None) as [i|] eqn:E.
    + now apply lastIndex_spec.
    + now apply lastIndex_none in E.
  - destruct (lastIndex EditForest.isTaxonLine lines 0 None) as [j|] eqn:E.
    + now apply lastIndex_spec.
    + now apply lastIndex_none in E.
Qed.

Lemma other_of (line : string) :
  isOtherLine line = negb (EditForest.isTitleLine line) && negb (EditForest.isTaxonLine line).
Proof. reflexivity. Qed.

(** what renaming does to the lines of a file *)
Lemma updateLines_rest (lines : list string) (newTaxon : option string)
  (newTitle : string) :
  filter isOtherLine (EditForest.updateLines lines newTaxon newTitle)
    = filter isOtherLine lines
  /\ In (EditForest.titleLine newTitle) (EditForest.updateLines lines newTaxon newTitle)
  /\ count EditForest.isTitleLine (EditForest.updateLines lines newTaxon newTitle)
     = Nat.max 1 (count EditForest.isTitleLine lines)
  /\ match newTaxon with
     | Some t =>
         In (EditForest.taxonLine t) (EditForest.updateLines lines newTaxon newTitle)
         /\ count EditForest.isTaxonLine (EditForest.updateLines lines newTaxon newTitle)
            = Nat.max 1 (count EditForest.isTaxonLine lines)
     | None =>
         count EditForest.isTaxonLine (EditForest.updateLines lines newTaxon newTitle)
         = count EditForest.isTaxonLine lines - 1
     end.
Proof.
  unfold EditForest.updateLines. destruct (scan_shapes lines) as [Ht Hx].
  cbv zeta in Ht, Hx.
  set (T := EditForest.titleLine newTitle).
  destruct (new_lines newTitle "") as (HT1 & HT2 & _ & _). fold T in HT1, HT2.
  assert (HT3 : isOtherLine T = false) by (rewrite other_of, HT1; reflexivity).
  destruct (EditForest.titleLineIndex _) as [i|];
    destruct (EditForest.taxonLineIndex _) as [j|]; cbn [option_map].
  - (* a title line and a taxon line *)
    destruct Ht as (x & Hxi & Hpx & _). destruct Hx as (y & Hyj & Hpy & _).
    assert (Hi : i < List.length lines) by (apply nth_error_Some; congruence).
    assert (Hij : i <> j).
    { intros ->. rewrite Hxi in Hyj. inversion Hyj; subst y.
      rewrite (title_not_taxon x Hpx) in Hpy. discriminate. }
    assert (Hy1 : nth_error (EditForest.assign lines i T) j = Some y).
    { rewrite nth_error_assign by assumption.
      destruct (Nat.eqb_spec j i); [congruence | assumption]. }
    assert (Hx1 : nth_error (EditForest.assign lines i T) i = Some T).
    { rewrite nth_error_assign by assumption. now rewrite Nat.eqb_refl. }
    assert (Hox : isOtherLine x = false) by (rewrite other_of, Hpx; reflexivity).
    assert (Hoy : isOtherLine y = false)
      by (rewrite other_of, Hpy; apply andb_false_r).
    assert (Hty : EditForest.isTitleLine y = false).
    { destruct (EditForest.isTitleLine y) eqn:E; [|reflexivity].
      rewrite (title_not_taxon y E) in Hpy. discriminate. }
    pose proof (count_pos _ _ _ _ Hxi Hpx) as Hc1.
    pose proof (count_pos _ _ _ _ Hyj Hpy) as Hc2.
    destruct (filter_assign isOtherLine lines T x i Hxi) as [Ho1 _]; [congruence|].
    destruct (filter_assign EditForest.isTitleLine lines T x i Hxi) as [_ Ht1]; [congruence|].
    destruct (filter_assign EditForest.isTaxonLine lines T x i Hxi) as [_ Hx1'];
      [rewrite (title_not_taxon x Hpx); congruence|].
    destruct newTaxon as [t|].
    + destruct (new_lines newTitle t) as (_ & _ & HX1 & HX2).
      set (X := EditForest.taxonLine t) in *.
      assert (HX3 : isOtherLine X = false)
        by (rewrite other_of, HX2; apply andb_false_r).
      destruct (filter_assign isOtherLine _ X y j Hy1) as [Ho2 _]; [congruence|].
      destruct (filter_assign EditForest.isTitleLine _ X y j Hy1) as [_ Ht2]; [congruence|].
      destruct (filter_assign EditForest.isTaxonLine _ X y j Hy1) as [_ Hx2]; [congruence|].
      split; [rewrite Ho2, Ho1 by assumption; reflexivity|].
      split.
      { apply nth_error_In with (n := i). rewrite nth_error_assign.
        - destruct (Nat.eqb_spec i j); [contradiction | assumption].
        - rewrite length_assign by assumption. apply nth_error_Some. congruence. }
      split; [rewrite Ht2, Ht1; lia|].
      split; [apply in_assign | rewrite Hx2, Hx1'; lia].
    + destruct (filter_spliceOut isOtherLine _ y j Hy1) as [Ho2 _].
      destruct (filter_spliceOut EditForest.isTitleLine _ y j Hy1) as [Ht2 _].
      destruct (filter_spliceOut EditForest.isTaxonLine _ y j Hy1) as [_ Hx2].
      split; [rewrite Ho2, Ho1 by assumption; reflexivity|].
      split; [now apply (in_spliceOut _ T i j)|].
      split.
      * unfold count in *. rewrite (Ht2 Hty). lia.
      * rewrite Hx2, Hx1', Hpy. reflexivity.
  - (* a title line, no taxon line *)
    destruct Ht as (x & Hxi & Hpx & _).
    assert (Hi : i < List.length lines) by (apply nth_error_Some; congruence).
    assert (Hox : isOtherLine x = false) by (rewrite other_of, Hpx; reflexivity).
    pose proof (count_pos _ _ _ _ Hxi Hpx) as Hc1.
    destruct (count_zero _ _ Hx) as [Hc2 _].
    destruct (filter_assign isOtherLine lines T x i Hxi) as [Ho1 _]; [congruence|].
    destruct (filter_assign EditForest.isTitleLine lines T x i Hxi) as [_ Ht1]; [congruence|].
    destruct (filter_assign EditForest.isTaxonLine lines T x i Hxi) as [_ Hx1'];
      [rewrite (title_not_taxon x Hpx); congruence|].
    destruct newTaxon as [t|].
    + destruct (new_lines newTitle t) as (_ & _ & HX1 & HX2).
      set (X := EditForest.taxonLine t) in *.
      assert (HX3 : isOtherLine X = false)
        by (rewrite other_of, HX2; apply andb_false_r).
      destruct (filter_spliceIn isOtherLine (EditForest.assign lines i T) X (i + 1))
        as [Ho2 _].
      destruct (filter_spliceIn EditForest.isTitleLine (EditForest.assign lines i T) X (i + 1))
        as [_ Ht2].
      destruct (filter_spliceIn EditForest.isTaxonLine (EditForest.assign lines i T) X (i + 1))
        as [_ Hx2].
      split; [rewrite Ho2, Ho1 by assumption; reflexivity|].
      split; [apply in_spliceIn_old, in_assign|].
      split; [rewrite Ht2, Ht1, HX1; lia|].
      split; [apply in_spliceIn | rewrite Hx2, Hx1', HX2, Hc2; reflexivity].
    + split; [now apply Ho1|]. split; [apply in_assign|].
      split; [rewrite Ht1; lia | rewrite Hx1', Hc2; reflexivity].
  - (* no title line, a taxon line *)
    destruct Hx as (y & Hyj & Hpy & _).
    assert (Hoy : isOtherLine y = false)
      by (rewrite other_of, Hpy; apply andb_false_r).
    destruct (count_zero _ _ Ht) as [Hc1 _].
    pose proof (count_pos _ _ _ _ Hyj Hpy) as Hc2.
    assert (Hy1 : nth_error (T :: lines) (S j) = Some y) by exact Hyj.
    assert (Hty : EditForest.isTitleLine y = false).
    { apply Ht. eapply nth_error_In. exact Hyj. }
    assert (Hc : forall q, count q (T :: lines) = (if q T then 1 else 0) + count q lines).
    { intro q. unfold count. cbn [filter]. now destruct (q T). }
    destruct newTaxon as [t|].
    + destruct (new_lines newTitle t) as (_ & _ & HX1 & HX2).
      set (X := EditForest.taxonLine t) in *.
      assert (HX3 : isOtherLine X = false)
        by (rewrite other_of, HX2; apply andb_false_r).
      destruct (filter_assign isOtherLine _ X y (S j) Hy1) as [Ho2 _]; [congruence|].
      destruct (filter_assign EditForest.isTitleLine _ X y (S j) Hy1) as [_ Ht2]; [congruence|].
      destruct (filter_assign EditForest.isTaxonLine _ X y (S j) Hy1) as [_ Hx2]; [congruence|].
      split; [rewrite (Ho2 HX3); cbn [filter]; now rewrite HT3|].
      split; [cbn [EditForest.assign]; now left|].
      split; [rewrite Ht2, Hc, HT1, Hc1; reflexivity|].
      split; [apply in_assign | rewrite Hx2, Hc, HT2; lia].
    + destruct (filter_spliceOut isOtherLine _ y (S j) Hy1) as [Ho2 _].
      destruct (filter_spliceOut EditForest.isTitleLine _ y (S j) Hy1) as [Ht2 _].
      destruct (filter_spliceOut EditForest.isTaxonLine _ y (S j) Hy1) as [_ Hx2].
      split; [rewrite (Ho2 Hoy); cbn [filter]; now rewrite HT3|].
      split; [cbn [EditForest.spliceOut]; now left|].
      split.
      * unfold count in *. rewrite (Ht2 Hty). cbn [filter]. rewrite HT1.
        cbn [List.length]. rewrite Hc1. reflexivity.
      * rewrite Hx2, Hc, HT2, Hpy. reflexivity.
  - (* neither *)
    destruct (count_zero _ _ Ht) as [Hc1 _]. destruct (count_zero _ _ Hx) as [Hc2 _].
    assert (Hc : forall q l v, count q (v :: l) = (if q v then 1 else 0) + count q l).
    { intros q l v. unfold count. cbn [filter]. now destruct (q v). }
    destruct newTaxon as [t|].
    + destruct (new_lines newTitle t) as (_ & _ & HX1 & HX2).
      set (X := EditForest.taxonLine t) in *.
      assert (HX3 : isOtherLine X = false)
        by (rewrite other_of, HX2; apply andb_false_r).
      cbn [EditForest.spliceIn].
      split; [cbn [filter]; now rewrite HX3, HT3|].
      split; [right; now left|].
      split; [rewrite !Hc, HX1, HT1, Hc1; reflexivity|].
      split; [now left | rewrite !Hc, HX2, HT2, Hc2; reflexivity].
    + split; [cbn [filter]; now rewrite HT3|].
      split; [now left|].
      split; [rewrite Hc, HT1, Hc1; reflexivity | rewrite Hc, HT2, Hc2; reflexivity].
Qed.

(** X21.  What renaming does to the lines of a file.  Every line that is
    neither a title line nor a taxon line is kept, in its order, and no such
    line is added.  The new title line is in the file, and the file has as
    many title lines as before, or one when it had none.  With a taxon, the
    new taxon line is in the file, again without changing the count beyond
    a first one; without a taxon, one taxon line, if any, is removed. *)
Theorem updateLines_keeps_the_rest (lines : list string) (newTaxon : option string)
  (newTitle : string) :
  filter isOtherLine (EditForest.updateLines lines newTaxon newTitle)
    = filter isOtherLine lines
  /\ In (EditForest.titleLine newTitle) (EditForest.updateLines lines newTaxon newTitle)
  /\ count EditForest.isTitleLine (EditForest.updateLines lines newTaxon newTitle)
     = Nat.max 1 (count EditForest.isTitleLine lines)
  /\ match newTaxon with
     | Some t =>
         In (EditForest.taxonLine t) (EditForest.updateLines lines newTaxon newTitle)
         /\ count EditForest.isTaxonLine (EditForest.updateLines lines newTaxon newTitle)
            = Nat.max 1 (count EditForest.isTaxonLine lines)
     | None =>
         count EditForest.isTaxonLine (EditForest.updateLines lines newTaxon newTitle)
         = count EditForest.isTaxonLine lines - 1
     end.
Proof. exact (updateLines_rest lines newTaxon newTitle). Qed.

Lemma lastIs_assign_at (p : string -> bool) (l : list string) (k : nat) (x v : string) :
  lastIs p l k x -> p v = true -> lastIs p (EditForest.assign l k v) k v.
Proof.
  intros (Hx & _ & Hlast) Hv.
  assert (Hk : k < List.length l) by (apply nth_error_Some; congruence).
  split; [rewrite nth_error_assign by assumption; now rewrite Nat.eqb_refl|].
  split; [assumption|]. intros m y Hm Hy. rewrite nth_error_assign in Hy by assumption.
  destruct (Nat.eqb_spec m k); [lia|]. now apply (Hlast m y).
Qed.

Lemma lastIs_assign_other (p : string -> bool) (l : list string) (k i : nat)
  (x y v : string) :
  lastIs p l k x -> nth_error l i = Some y -> i <> k -> p v = false ->
  lastIs p (EditForest.assign l i v) k x.
Proof.
  intros (Hx & Hp & Hlast) Hy Hik Hv.
  assert (Hi : i < List.length l) by (apply nth_error_Some; congruence).
  split; [rewrite nth_error_assign by assumption;
          destruct (Nat.eqb_spec k i); [lia | assumption]|].
  split; [assumption|]. intros m z Hm Hz. rewrite nth_error_assign in Hz by assumption.
  destruct (Nat.eqb_spec m i); [congruence|]. now apply (Hlast m z).
Qed.

Lemma lastIs_cons (p : string -> bool) (l : list string) (k : nat) (x v : string) :
  lastIs p l k x -> lastIs p (v :: l) (S k) x.
Proof.
  intros (Hx & Hp & Hlast). split; [exact Hx|]. split; [assumption|].
  intros m y Hm Hy. destruct m as [|m]; [lia|]. apply (Hlast m y); [lia | exact Hy].
Qed.

Lemma lastIs_first (p : string -> bool) (l : list string) (v : string) :
  (forall x, In x l -> p x = false) -> p v = true -> lastIs p (v :: l) 0 v.
Proof.
  intros Hl Hv. split; [reflexivity|]. split; [assumption|].
  intros m y Hm Hy. destruct m as [|m]; [lia|]. apply Hl. eapply nth_error_In. exact Hy.
Qed.

Lemma lastIs_spliceIn_after (p : string -> bool) (l : list string) (k n : nat)
  (x v : string) :
  lastIs p l k x -> p v = false -> k < n -> n <= List.length l ->
  lastIs p (EditForest.spliceIn l n v) k x.
Proof.
  intros (Hx & Hp & Hlast) Hv Hkn Hn.
  split; [rewrite nth_error_spliceIn by assumption;
          destruct (Nat.ltb_spec k n); [assumption | lia]|].
  split; [assumption|]. intros m y Hm Hy. rewrite nth_error_spliceIn in Hy by assumption.
  destruct (Nat.ltb_spec m n); [now apply (Hlast m y)|].
  destruct (Nat.eqb_spec m n); [congruence|]. apply (Hlast (m - 1) y); [lia | assumption].
Qed.

Lemma lastIs_spliceIn_new (p : string -> bool) (l : list string) (n : nat) (v : string) :
  (forall x, In x l -> p x = false) -> p v = true -> n <= List.length l ->
  lastIs p (EditForest.spliceIn l n v) n v.
Proof.
  intros Hl Hv Hn.
  split; [rewrite nth_error_spliceIn by assumption; rewrite Nat.ltb_irrefl;
          now rewrite Nat.eqb_refl|].
  split; [assumption|]. intros m y Hm Hy. rewrite nth_error_spliceIn in Hy by assumption.
  destruct (Nat.ltb_spec m n); [lia|]. destruct (Nat.eqb_spec m n); [lia|].
  apply Hl. eapply nth_error_In. exact Hy.
Qed.

Lemma in_assign_inv (l : list string) (v x : string) : forall i,
  i < List.length l -> In x (EditForest.assign l i v) -> x = v \/ In x l.
Proof.
  intros i Hi Hx. destruct (In_nth_error _ _ Hx) as [m Hm].
  rewrite nth_error_assign in Hm by assumption.
  destruct (Nat.eqb m i); [left; congruence | right; eapply nth_error_In; exact Hm].
Qed.

(** a file whose last title line and last taxon line are the new ones is
    left as it is *)
Lemma updateLines_fixed (r : list string) (t newTitle : string) (i j : nat) :
  lastIs EditForest.isTitleLine r i (EditForest.titleLine newTitle) ->
  lastIs EditForest.isTaxonLine r j (EditForest.taxonLine t) ->
  EditForest.updateLines r (Some t) newTitle = r.
Proof.
  intros Hi Hj. unfold EditForest.updateLines.
  destruct (scanLines_indices r 0 (EditForest.mkScan None None None)) as [-> ->].
  cbn [EditForest.titleLineIndex EditForest.taxonLineIndex].
  rewrite (lastIndex_intro EditForest.isTitleLine r i 0 None)
    by (exists (EditForest.titleLine newTitle); exact Hi).
  rewrite (lastIndex_intro EditForest.isTaxonLine r j 0 None)
    by (exists (EditForest.taxonLine t); exact Hj).
  cbn [Nat.add]. destruct Hi as (Hi & _). destruct Hj as (Hj & _).
  rewrite (assign_same r _ i Hi). apply assign_same. exact Hj.
Qed.

(** after a rename with a taxon, the last title line is the new title line
    and the last taxon line is the new taxon line *)
Lemma updateLines_last (lines : list string) (t newTitle : string) :
  exists i j,
    lastIs EditForest.isTitleLine (EditForest.updateLines lines (Some t) newTitle) i
           (EditForest.titleLine newTitle)
    /\ lastIs EditForest.isTaxonLine (EditForest.updateLines lines (Some t) newTitle) j
              (EditForest.taxonLine t).
Proof.
  unfold EditForest.updateLines. destruct (scan_shapes lines) as [Ht Hx].
  cbv zeta in Ht, Hx.
  destruct (new_lines newTitle t) as (HT1 & HT2 & HX1 & HX2).
  set (T := EditForest.titleLine newTitle) in *.
  set (X := EditForest.taxonLine t) in *.
  destruct (EditForest.titleLineIndex _) as [i|];
    destruct (EditForest.taxonLineIndex _) as [j|]; cbn [option_map].
  - destruct Ht as (x & Ht). destruct Hx as (y & Hx).
    assert (Hij : i <> j).
    { intros ->. destruct Ht as (H1 & H2 & _). destruct Hx as (H3 & H4 & _).
      rewrite H1 in H3. inversion H3; subst y.
      rewrite (title_not_taxon x H2) in H4. discriminate. }
    pose proof (lastIs_assign_at _ _ _ _ T Ht HT1) as Ht1.
    pose proof (lastIs_assign_other _ _ _ i _ x T Hx (proj1 Ht) Hij HT2) as Hx1.
    exists i, j. split.
    + apply (lastIs_assign_other _ _ _ j _ y X Ht1 (proj1 Hx1) (not_eq_sym Hij) HX1).
    + apply (lastIs_assign_at _ _ _ _ X Hx1 HX2).
  - destruct Ht as (x & Ht).
    assert (Hi : i < List.length lines) by (apply nth_error_Some; destruct Ht; congruence).
    pose proof (lastIs_assign_at _ _ _ _ T Ht HT1) as Ht1.
    exists i, (i + 1). split.
    + apply lastIs_spliceIn_after; [assumption | assumption | lia|].
      rewrite length_assign by assumption. lia.
    + apply lastIs_spliceIn_new; [|assumption|rewrite length_assign by assumption; lia].
      intros z Hz. destruct (in_assign_inv _ _ _ _ Hi Hz) as [-> | Hz'];
        [assumption | now apply Hx].
  - destruct Hx as (y & Hx). exists 0, (S j).
    assert (Hty : EditForest.isTitleLine y = false).
    { apply Ht. eapply nth_error_In. exact (proj1 Hx). }
    split.
    + apply (lastIs_assign_other _ (T :: lines) 0 (S j) T y X).
      * now apply lastIs_first.
      * exact (proj1 Hx).
      * lia.
      * assumption.
    + apply (lastIs_assign_at _ (T :: lines) (S j) y X); [|assumption].
      now apply lastIs_cons.
  - exists 1, 0. cbn [EditForest.spliceIn]. split.
    + apply lastIs_cons. now apply lastIs_first.
    + apply lastIs_first; [|assumption].
      intros z [<- | Hz]; [assumption | now apply Hx].
Qed.

(** X22.  Renaming with a taxon settles: in the lines written back, the
    last title line is the new title line and the last taxon line is the
    new taxon line, which are the lines a later rename would touch; so the
    same rename done again changes nothing. *)
Theorem updateLines_settles (lines : list string) (newTaxon newTitle : string) :
  (exists i j,
      lastIs EditForest.isTitleLine
             (EditForest.updateLines lines (Some newTaxon) newTitle) i
             (EditForest.titleLine newTitle)
      /\ lastIs EditForest.isTaxonLine
                (EditForest.updateLines lines (Some newTaxon) newTitle) j
                (EditForest.taxonLine newTaxon))
  /\ EditForest.updateLines (EditForest.updateLines lines (Some newTaxon) newTitle)
                            (Some newTaxon) newTitle
     = EditForest.updateLines lines (Some newTaxon) newTitle.
Proof.
  destruct (updateLines_last lines newTaxon newTitle) as (i & j & Hi & Hj).
  split; [now exists i, j|]. exact (updateLines_fixed _ _ _ i j Hi Hj).
Qed.

(** X23.  The order in a file that has neither line: the title line is put
    first and the taxon line is then inserted at index 0, so that the file
    begins with the taxon line, followed by the title line and the lines it
    had.  When the file has a title line, the taxon line comes right after
    the last title line. *)
Theorem updateLines_taxon_position (lines : list string) (newTaxon newTitle : string) :
  (forall x, In x lines -> EditForest.isTaxonLine x = false) ->
  ((forall x, In x lines -> EditForest.isTitleLine x = false) ->
   EditForest.updateLines lines (Some newTaxon) newTitle
   = EditForest.taxonLine newTaxon :: EditForest.titleLine newTitle :: lines)
  /\ (forall pre old post,
        lines = pre ++ old :: post ->
        EditForest.isTitleLine old = true ->
        (forall x, In x post -> EditForest.isTitleLine x = false) ->
        EditForest.updateLines lines (Some newTaxon) newTitle
        = pre ++ EditForest.titleLine newTitle :: EditForest.taxonLine newTaxon :: post).
Proof.
  intro Hx. unfold EditForest.updateLines.
  destruct (scanLines_indices lines 0 (EditForest.mkScan None None None)) as [-> ->].
  cbn [EditForest.titleLineIndex EditForest.taxonLineIndex].
  rewrite (lastIndex_all_false EditForest.isTaxonLine lines 0 None Hx).
  split.
  - intro Ht. rewrite (lastIndex_all_false EditForest.isTitleLine lines 0 None Ht).
    reflexivity.
  - intros pre old post -> Hold Hpost.
    rewrite (lastIndex_intro EditForest.isTitleLine _ (List.length pre) 0 None).
    + cbn [Nat.add option_map].
      assert (Ha : forall v, EditForest.assign (pre ++ old :: post) (List.length pre) v
                             = pre ++ v :: post).
      { intro v. clear. induction pre as [|a pre IH]; cbn; [reflexivity | now rewrite IH]. }
      rewrite Ha.
      assert (Hs : forall v w, EditForest.spliceIn (pre ++ v :: post) (List.length pre + 1) w
                               = pre ++ v :: w :: post).
      { intros v w. clear. induction pre as [|a pre IH]; cbn; [now destruct post | now rewrite IH]. }
      apply Hs.
    + exists old. split; [now rewrite nth_error_app2, Nat.sub_diag by lia|].
      split; [assumption|]. intros m y Hm Hy.
      rewrite nth_error_app2 in Hy by lia.
      destruct (m - List.length pre) as [|k] eqn:E; [lia|]. cbn [nth_error] in Hy.
      apply Hpost. eapply nth_error_In. exact Hy.
Qed.

Lemma updateLines_taxon_position_witness :
  EditForest.updateLines ["\date{2024-01-01}"; "A body."] (Some "theorem") "Stokes"
  = ["\taxon{theorem}"; "\title{Stokes}"; "\date{2024-01-01}"; "A body."].
Proof.
  apply (updateLines_taxon_position ["\date{2024-01-01}"; "A body."] "theorem" "Stokes").
  - intros x [<- | [<- | []]]; reflexivity.
  - intros x [<- | [<- | []]]; reflexivity.
Defined.

(** ** renameTreeById and collectTitleInput: the text in the input box *)

Lemma trimEnd_idem (s : string) : Js.trimEnd (Js.trimEnd s) = Js.trimEnd s.
Proof.
  induction s as [|c r IH]; cbn [Js.trimEnd]; [reflexivity|].
  destruct (Js.trimEnd r) as [|c' r'] eqn:E.
  - destruct (Js.isSpace c) eqn:Hc; cbn [Js.trimEnd]; [reflexivity | now rewrite Hc].
  - cbn [Js.trimEnd]. cbn [Js.trimEnd] in IH. rewrite IH. reflexivity.
Qed.

Lemma trimStart_head (s : string) :
  match Js.trimStart s with
  | EmptyString => True
  | String c _ => Js.isSpace c = false
  end.
Proof.
  induction s as [|c r IH]; cbn [Js.trimStart]; [exact I|].
  destruct (Js.isSpace c) eqn:Hc; [exact IH | exact Hc].
Qed.

Lemma trimEnd_head (c : ascii) (r : string) :
  Js.isSpace c = false -> exists r', Js.trimEnd (String c r) = String c r'.
Proof.
  intro Hc. cbn [Js.trimEnd]. destruct (Js.trimEnd r); rewrite ?Hc; eauto.
Qed.

Lemma trim_idem (s : string) : Js.trim (Js.trim s) = Js.trim s.
Proof.
  unfold Js.trim. pose proof (trimStart_head s) as H.
  destruct (Js.trimStart s) as [|c r]; [reflexivity|].
  destruct (trimEnd_head c r H) as [r' Hr]. rewrite Hr.
  cbn [Js.trimStart]. rewrite H, <- Hr. apply trimEnd_idem.
Qed.

(** the title of every answer with a taxon is trimmed *)
Lemma parsed_title_trimmed (input : string) :
  match Utils.parseTaxonAndTitle input with
  | (Utils.NoTaxon, title) => title = input
  | (_, title) => Js.trim title = title
  end.
Proof.
  unfold Utils.parseTaxonAndTitle.
  destruct (Js.indexOf ":" input) as [i|]; [|reflexivity].
  destruct (Nat.ltb 0 i && Nat.ltb i 30); [|reflexivity]. cbv zeta.
  destruct (Utils.propertyTruthy
              (Utils.lookup Utils.getAbbreviationToFullNameMap _)).
  - destruct (Utils.lookup Utils.getAbbreviationToFullNameMap _); apply trim_idem.
  - destruct (Utils.propertyTruthy (Utils.lookup Utils.TAXON_MAP _)); [apply trim_idem|].
    destruct (Utils.isTaxonWord _ && Nat.leb _ 20); [apply trim_idem | reflexivity].
Qed.

Lemma onDidAccept_value (value resolved : string) :
  EditForest.onDidAccept value = inr resolved ->
  resolved = value
  /\ Js.trim value <> ""
  /\ Js.trim (snd (Utils.parseTaxonAndTitle value)) <> "".
Proof.
  unfold EditForest.onDidAccept.
  destruct (String.eqb_spec value ""); [discriminate|].
  destruct (String.eqb_spec (Js.trim value) ""); [discriminate|]. cbn [orb]. cbv zeta.
  destruct (String.eqb_spec (snd (Utils.parseTaxonAndTitle value)) ""); [discriminate|].
  destruct (String.eqb_spec (Js.trim (snd (Utils.parseTaxonAndTitle value))) "");
    [discriminate|].
  cbn [orb]. intros [= <-]. auto.
Qed.

Lemma titleInput_first (events : list EditForest.InputEvent) (input : string) :
  EditForest.titleInput events = Some (Some input) ->
  EditForest.onDidAccept input = inr input
  /\ exists before after,
       events = before ++ EditForest.Accept input :: after
       /\ forall e, In e before ->
            exists v message, e = EditForest.Accept v
                              /\ EditForest.onDidAccept v = inl message.
Proof.
  induction events as [|[value|] rest IH]; cbn [EditForest.titleInput]; try discriminate.
  destruct (EditForest.onDidAccept value) as [message|resolved] eqn:E.
  - intro H. destruct (IH H) as (Ha & before & after & -> & Hb). split; [assumption|].
    exists (EditForest.Accept value :: before), after. split; [reflexivity|].
    intros e [<- | He]; [eauto | now apply Hb].
  - intros [= ->]. destruct (onDidAccept_value _ _ E) as (-> & _).
    split; [assumption|]. exists [], rest. split; [reflexivity | intros ? []].
Qed.

(** X24.  Which submissions the input box accepts, and what
    [collectTitleInput] returns.  A value is accepted exactly when it is
    not blank and, if a taxon is recognised in it, the text after the colon
    is not blank either.  The result comes from the first accepted
    submission, with no [Hide] before it; its title is never blank, and
    next to a taxon it has no blank at either end. *)
Theorem collectTitleInput_accepts (events : list EditForest.InputEvent) (value : string) :
  (EditForest.onDidAccept value = inr value
   <-> Js.trim value <> ""
       /\ match Utils.parseTaxonAndTitle value with
          | (Utils.NoTaxon, _) => True
          | (_, title) => title <> ""
          end)
  /\ forall result,
       EditForest.collectTitleInput events = Some (Some result) ->
       EditForest.onDidAccept (EditForest.originalInput result)
         = inr (EditForest.originalInput result)
       /\ (EditForest.r_taxon result, EditForest.r_title result)
          = Utils.parseTaxonAndTitle (EditForest.originalInput result)
       /\ Js.trim (EditForest.r_title result) <> ""
       /\ (EditForest.r_taxon result <> Utils.NoTaxon ->
           Js.trim (EditForest.r_title result) = EditForest.r_title result)
       /\ exists before after,
            events = before ++ EditForest.Accept (EditForest.originalInput result) :: after
            /\ forall e, In e before ->
                 exists v message, e = EditForest.Accept v
                                   /\ EditForest.onDidAccept v = inl message.
Proof.
  split.
  - pose proof (parsed_title_trimmed value) as Hp. split.
    + intro H. destruct (onDidAccept_value _ _ H) as (_ & Hv & Ht).
      split; [assumption|].
      destruct (Utils.parseTaxonAndTitle value) as [[|taxon|key] title];
        [exact I | |]; cbn [snd] in Ht; intros ->; now apply Ht.
    + intros [Hv Ht]. unfold EditForest.onDidAccept.
      destruct (String.eqb_spec value "") as [->|_]; [now destruct Hv|].
      destruct (String.eqb_spec (Js.trim value) ""); [contradiction|].
      cbn [orb]. cbv zeta.
      destruct (Utils.parseTaxonAndTitle value) as [[|taxon|key] title]; cbn [snd].
      * subst title.
        destruct (String.eqb_spec value "") as [->|_]; [now destruct Hv|].
        destruct (String.eqb_spec (Js.trim value) ""); [contradiction | reflexivity].
      * rewrite Hp. destruct (String.eqb_spec title ""); [contradiction | reflexivity].
      * rewrite Hp. destruct (String.eqb_spec title ""); [contradiction | reflexivity].
  - intros result H. unfold EditForest.collectTitleInput in H.
    destruct (EditForest.titleInput events) as [[input|]|] eqn:E; try discriminate.
    destruct (String.eqb input ""); [discriminate|].
    inversion H; subst result; clear H.
    cbn [EditForest.originalInput EditForest.r_taxon EditForest.r_title].
    destruct (titleInput_first _ _ E) as (Ha & Hdec).
    destruct (onDidAccept_value _ _ Ha) as (_ & _ & Ht).
    split; [assumption|]. split; [now destruct (Utils.parseTaxonAndTitle input)|].
    split; [assumption|]. split; [|assumption].
    pose proof (parsed_title_trimmed input) as Hp.
    destruct (Utils.parseTaxonAndTitle input) as [[|taxon|key] title]; cbn [fst snd];
      [intro Hn; now destruct Hn | intros _; exact Hp | intros _; exact Hp].
Qed.

Lemma collectTitleInput_accepts_witness :
  EditForest.onDidAccept "thm: Stokes " = inr "thm: Stokes "
  /\ Js.trim "Stokes" <> "".
Proof.
  destruct (collectTitleInput_accepts
              [EditForest.Accept "  "; EditForest.Accept "thm:  ";
               EditForest.Accept "thm: Stokes "] "") as [_ Hr].
  destruct (Hr (EditForest.mkTitleInput (Utils.TaxonName "theorem") "Stokes" "thm: Stokes ")
               eq_refl) as (Ha & _ & Ht & _).
  split; assumption.
Defined.

(** X25.  The value [renameTreeById] offers in the input box, read back by
    [parseTaxonAndTitle] when it is submitted unchanged.  Without a taxon
    and without a colon in the title, the title comes back as it is.  With
    a taxon that is a word, the title comes back trimmed and the taxon
    comes back, an abbreviation replaced by its full name.  Without a
    taxon, a title that begins with a word and a colon comes back with
    that word as its taxon and the rest as its title. *)
Theorem rename_offer_read_back (tree : ForesterTree) :
  ((taxon tree = None \/ taxon tree = Some "") ->
   Js.indexOf ":" (EditForest.currentTitle tree) = None ->
   Utils.parseTaxonAndTitle (EditForest.currentValue tree)
   = (Utils.NoTaxon, EditForest.currentTitle tree))
  /\ (forall word,
        taxon tree = Some word ->
        Utils.isTaxonWord word = true -> String.length word <= 20 ->
        word <> "constructor" ->
        Utils.parseTaxonAndTitle (EditForest.currentValue tree)
        = (Utils.TaxonName
             match Js.get Utils.getAbbreviationToFullNameMap word with
             | Some fullName => fullName
             | None => word
             end,
           Js.trim (EditForest.currentTitle tree)))
  /\ (forall word rest,
        (taxon tree = None \/ taxon tree = Some "") ->
        title tree = Some (word ++ ":" ++ rest)%string ->
        Utils.isTaxonWord word = true -> String.length word <= 20 ->
        word <> "constructor" ->
        Utils.parseTaxonAndTitle (EditForest.currentValue tree)
        = (Utils.TaxonName
             match Js.get Utils.getAbbreviationToFullNameMap word with
             | Some fullName => fullName
             | None => word
             end,
           Js.trim rest)).
Proof.
  assert (Hno : (taxon tree = None \/ taxon tree = Some "") ->
                EditForest.currentValue tree = EditForest.currentTitle tree).
  { unfold EditForest.currentValue, EditForest.currentTaxon.
    intros [-> | ->]; reflexivity. }
  assert (Hword : forall word rest,
            Utils.isTaxonWord word = true -> String.length word <= 20 ->
            word <> "constructor" ->
            Utils.parseTaxonAndTitle (word ++ ":" ++ rest)%string
            = (Utils.TaxonName
                 match Js.get Utils.getAbbreviationToFullNameMap word with
                 | Some fullName => fullName
                 | None => word
                 end, Js.trim rest)).
  { intros word rest Hw Hl Hc. rewrite (parse_word word rest Hw Hl).
    destruct (String.eqb_spec word "constructor"); [contradiction|].
    now destruct (Js.get Utils.getAbbreviationToFullNameMap word). }
  split; [|split].
  - intros Ht Hc. rewrite (Hno Ht). unfold Utils.parseTaxonAndTitle. now rewrite Hc.
  - intros word Ht Hw Hl Hc.
    unfold EditForest.currentValue, EditForest.currentTaxon. rewrite Ht.
    assert (Js.truthy (Some word) = true) as ->.
    { destruct word; [discriminate Hw | reflexivity]. }
    change (word ++ ": " ++ EditForest.currentTitle tree)%string
      with (word ++ ":" ++ String " " (EditForest.currentTitle tree))%string.
    rewrite (Hword word _ Hw Hl Hc). now rewrite trim_after_space.
  - intros word rest Ht Hti Hw Hl Hc. rewrite (Hno Ht).
    unfold EditForest.currentTitle. rewrite Hti.
    assert (Js.truthy (Some (word ++ ":" ++ rest)%string) = true) as ->.
    { destruct word; [discriminate Hw | reflexivity]. }
    now apply Hword.
Qed.

Lemma rename_offer_read_back_witness :
  Utils.parseTaxonAndTitle
    (EditForest.currentValue (mkTree (Some "energy: a primer") None [] "" [] "e.tree" (Some "e")))
  = (Utils.TaxonName "energy", "a primer")
  /\ Utils.parseTaxonAndTitle
       (EditForest.currentValue (mkTree (Some "Stokes") (Some "thm") [] "" [] "s.tree" (Some "s")))
     = (Utils.TaxonName "theorem", "Stokes")
  /\ Utils.parseTaxonAndTitle
       (EditForest.currentValue (mkTree (Some "Stokes") None [] "" [] "s.tree" (Some "s")))
     = (Utils.NoTaxon, "Stokes").
Proof.
  split; [|split].
  - destruct (rename_offer_read_back
                (mkTree (Some "energy: a primer") None [] "" [] "e.tree" (Some "e")))
      as (_ & _ & H).
    apply (H "energy" " a primer");
      [now left | reflexivity | reflexivity | cbn; lia | discriminate].
  - destruct (rename_offer_read_back
                (mkTree (Some "Stokes") (Some "thm") [] "" [] "s.tree" (Some "s")))
      as (_ & H & _).
    apply (H "thm"); [reflexivity | reflexivity | cbn; lia | discriminate].
  - destruct (rename_offer_read_back
                (mkTree (Some "Stokes") None [] "" [] "s.tree" (Some "s")))
      as (H & _).
    apply H; [now left | reflexivity].
Defined.

(** ** Renaming and the graph *)

Lemma lacks_app (c : ascii) (a b : string) :
  lacks c (a ++ b)%string <-> lacks c a /\ lacks c b.
Proof.
  induction a as [|x a IH]; cbn [String.append].
  - unfold lacks at 2. cbn. intuition.
  - rewrite !lacks_cons, IH. intuition.
Qed.

Lemma splitLines_lack (s : string) : forall cur l,
  lacks Js.newline cur -> In l (Js.splitLines cur s) -> lacks Js.newline l.
Proof.
  induction s as [|c s IH]; intros cur l Hcur Hl; cbn [Js.splitLines] in Hl.
  - destruct Hl as [<- | []]. assumption.
  - destruct (Ascii.eqb_spec c Js.newline) as [->|Hc].
    + destruct Hl as [<- | Hl]; [assumption|].
      apply (IH EmptyString); [unfold lacks; cbn; tauto | assumption].
    + apply (IH (cur ++ String c EmptyString)%string); [|assumption].
      apply lacks_app. split; [assumption|]. apply lacks_cons.
      split; [assumption | unfold lacks; cbn; tauto].
Qed.

Lemma splitLines_nonempty (s : string) : forall cur, Js.splitLines cur s <> [].
Proof.
  induction s as [|c s IH]; intro cur; cbn [Js.splitLines]; [discriminate|].
  destruct (Ascii.eqb c Js.newline); [discriminate | apply IH].
Qed.

Lemma in_spliceIn_inv (l : list string) (v x : string) : forall k,
  In x (EditForest.spliceIn l k v) -> x = v \/ In x l.
Proof.
  induction l as [|a l IH]; intros [|k] H; cbn [EditForest.spliceIn] in H.
  - destruct H as [<- | []]. now left.
  - destruct H as [<- | []]. now left.
  - destruct H as [<- | H]; [now left | now right].
  - destruct H as [<- | H]; [right; now left|].
    destruct (IH k H) as [-> | Hx]; [now left | right; now right].
Qed.

Lemma in_spliceOut_inv (l : list string) (x : string) : forall j,
  In x (EditForest.spliceOut l j) -> In x l.
Proof.
  induction l as [|a l IH]; intros [|j] H; cbn [EditForest.spliceOut] in H;
    try (destruct H; fail).
  - now right.
  - destruct H as [<- | H]; [now left | right; now apply (IH j)].
Qed.

(** every line written back is the new title line, the new taxon line or a
    line of the file *)
Lemma in_updateLines (lines : list string) (newTaxon : option string)
  (newTitle x : string) :
  In x (EditForest.updateLines lines newTaxon newTitle) ->
  x = EditForest.titleLine newTitle
  \/ (exists t, newTaxon = Some t /\ x = EditForest.taxonLine t)
  \/ In x lines.
Proof.
  unfold EditForest.updateLines. destruct (scan_shapes lines) as [Ht Hx].
  cbv zeta in Ht, Hx.
  assert (Hassign : forall i, match EditForest.titleLineIndex
                                (EditForest.scanLines lines 0 (EditForest.mkScan None None None))
                              with Some i0 => i0 = i | None => False end ->
            forall y, In y (EditForest.assign lines i (EditForest.titleLine newTitle)) ->
                      y = EditForest.titleLine newTitle \/ In y lines).
  { intros i Hi y Hy. destruct (EditForest.titleLineIndex _) as [i0|]; [|destruct Hi].
    subst i0. destruct Ht as (z & Hz & _).
    apply (in_assign_inv lines _ y i); [|assumption].
    apply nth_error_Some. congruence. }
  destruct (EditForest.titleLineIndex _) as [i|] eqn:Ei;
    destruct (EditForest.taxonLineIndex _) as [j|] eqn:Ej; cbn [option_map];
    destruct newTaxon as [t|]; intro H.
  - destruct Hx as (y & Hy & _).
    assert (Hj : j < List.length (EditForest.assign lines i (EditForest.titleLine newTitle))).
    { destruct Ht as (z & Hz & _).
      rewrite length_assign by (apply nth_error_Some; congruence).
      apply nth_error_Some. congruence. }
    destruct (in_assign_inv _ _ _ _ Hj H) as [-> | H']; [right; left; eauto|].
    destruct (Hassign i eq_refl x H') as [-> | H'']; auto.
  - apply in_spliceOut_inv in H. destruct (Hassign i eq_refl x H) as [-> | H']; auto.
  - destruct (in_spliceIn_inv _ _ _ _ H) as [-> | H']; [right; left; eauto|].
    destruct (Hassign i eq_refl x H') as [-> | H'']; auto.
  - destruct (Hassign i eq_refl x H) as [-> | H']; auto.
  - destruct Hx as (y & Hy & _).
    assert (Hj : S j < List.length (EditForest.titleLine newTitle :: lines)).
    { cbn [List.length]. apply -> Nat.succ_lt_mono. apply nth_error_Some. congruence. }
    destruct (in_assign_inv _ _ _ _ Hj H) as [-> | [<- | H']]; [right; left; eauto | auto | auto].
  - apply in_spliceOut_inv in H. destruct H as [<- | H]; auto.
  - destruct (in_spliceIn_inv _ _ _ _ H) as [-> | [<- | H']]; [right; left; eauto | auto | auto].
  - destruct H as [<- | H]; auto.
Qed.

Lemma flat_map_filter (f : string -> list string) (q : string -> bool) (l : list string) :
  (forall x, In x l -> q x = false -> f x = []) ->
  flat_map f l = flat_map f (filter q l).
Proof.
  induction l as [|a l IH]; intro H; cbn [flat_map filter]; [reflexivity|].
  rewrite IH by (intros x Hx; apply H; now right).
  destruct (q a) eqn:Ha; [reflexivity|]. now rewrite (H a (or_introl eq_refl) Ha).
Qed.

Lemma transclusionsOf_lines (lines : list string) :
  lines <> [] -> (forall l, In l lines -> lacks Js.newline l) ->
  transclusionsOf (Js.join_newline lines) = flat_map lineTargets lines.
Proof.
  intros Hne Hl. unfold transclusionsOf. rewrite (split_join lines Hne Hl). reflexivity.
Qed.

Lemma trimStart_app (head rest : string) :
  Js.trimStart head <> "" ->
  Js.trimStart (head ++ rest) = (Js.trimStart head ++ rest)%string.
Proof.
  induction head as [|c head IH]; cbn [Js.trimStart String.append]; intro H;
    [contradiction|].
  destruct (Js.isSpace c); [now apply IH | reflexivity].
Qed.

(** X6.  Only whole-line comments are skipped.  Deleting from a file the
    lines whose first character after the leading white space is [%] leaves
    the targets [buildGraph] reads from it unchanged, and a file of such
    lines alone has none.  But a [%] further along a line hides nothing:
    when a line begins, after its white space, with another character, a
    transclusion that follows a [%] on that line is still a target. *)
Theorem comment_lines_only (lines : list string) (head middle id rest : string) :
  lines <> [] ->
  (forall l, In l lines -> lacks Js.newline l) ->
  (filter (fun l => negb (isCommentLine l)) lines <> [] ->
   transclusionsOf (Js.join_newline (filter (fun l => negb (isCommentLine l)) lines))
   = transclusionsOf (Js.join_newline lines))
  /\ (filter (fun l => negb (isCommentLine l)) lines = [] ->
      transclusionsOf (Js.join_newline lines) = [])
  /\ (isCommentLine head = false -> Js.trimStart head <> "" ->
      lacks backslash head -> lacks backslash middle ->
      id <> "" -> lacks closing id ->
      lacks Js.newline (head ++ "%" ++ middle ++ transcludeOf id rest) ->
      In id (transclusionsOf (head ++ "%" ++ middle ++ transcludeOf id rest))).
Proof.
  intros Hne Hl.
  assert (Hkept : flat_map lineTargets lines
                  = flat_map lineTargets (filter (fun l => negb (isCommentLine l)) lines)).
  { apply flat_map_filter. intros x _ Hx. apply negb_false_iff in Hx.
    unfold lineTargets. fold (isCommentLine x). now rewrite Hx. }
  split; [|split].
  - intro Hk. rewrite (transclusionsOf_lines lines Hne Hl), Hkept.
    apply transclusionsOf_lines; [assumption|].
    intros l Hin. apply filter_In in Hin. now apply Hl.
  - intro Hk. rewrite (transclusionsOf_lines lines Hne Hl), Hkept, Hk. reflexivity.
  - intros Hc Hh Hbh Hbm Hid Hcl Hnl.
    set (line := (head ++ "%" ++ middle ++ transcludeOf id rest)%string) in *.
    change (In id (transclusionsOf (Js.join_newline [line]))).
    rewrite (transclusionsOf_lines [line]);
      [|discriminate | intros l [<- | []]; exact Hnl].
    cbn [flat_map]. rewrite app_nil_r. unfold lineTargets.
    assert (Hline : Js.startsWith "%" (Js.trimStart line) = false).
    { unfold line. rewrite (trimStart_app head _ Hh).
      unfold isCommentLine in Hc. destruct (Js.trimStart head) as [|c r];
        [contradiction | exact Hc]. }
    rewrite Hline. unfold line, matchAll.
    replace (head ++ "%" ++ middle ++ transcludeOf id rest)%string
      with ((head ++ "%" ++ middle) ++ transcludeOf id rest)%string
      by (rewrite !string_app_assoc; reflexivity).
    rewrite matchAll_text.
    + fold (matchAll (transcludeOf id rest)).
      rewrite (matchAll_transcludeOf id rest Hid Hcl). now left.
    + apply lacks_app. split; [assumption|]. apply lacks_app. split; [|assumption].
      unfold lacks. cbn. intros [H | []]. discriminate H.
Qed.

Lemma comment_lines_only_witness :
  transclusionsOf (Js.join_newline ["\transclude{a}"; "\transclude{c}"])
  = transclusionsOf (Js.join_newline ["\transclude{a}"; "  % \transclude{b}"; "\transclude{c}"])
  /\ In "b" (transclusionsOf "see % \transclude{b}").
Proof.
  destruct (comment_lines_only
              ["\transclude{a}"; "  % \transclude{b}"; "\transclude{c}"]
              "see " " " "b" "") as (Hdel & _ & Hlate).
  - discriminate.
  - intros l [<-|[<-|[<-|[]]]]; unfold lacks; vm_compute; intuition discriminate.
  - split.
    + apply Hdel. discriminate.
    + apply Hlate; try reflexivity; try discriminate;
        unfold lacks; vm_compute; intuition discriminate.
Defined.

(** X26.  Renaming a tree leaves its transclusions alone.  When the new
    title and taxon hold no line break and no transclusion, and no title or
    taxon line of the file holds a transclusion, the text written back
    splits into exactly the lines computed, the targets [buildGraph] reads
    from it are those it read before, in the same order, and writing the
    same rename again gives the same text. *)
Theorem rename_keeps_transclusions (text : string) (newTaxon : option string)
  (newTitle : string) :
  lacks Js.newline newTitle ->
  lineTargets (EditForest.titleLine newTitle) = [] ->
  (forall t, newTaxon = Some t ->
             lacks Js.newline t /\ lineTargets (EditForest.taxonLine t) = []) ->
  (forall line, In line (Js.split_newline text) ->
                isOtherLine line = false -> lineTargets line = []) ->
  Js.split_newline (EditForest.updatedContent text newTaxon newTitle)
    = EditForest.updateLines (Js.split_newline text) newTaxon newTitle
  /\ transclusionsOf (EditForest.updatedContent text newTaxon newTitle)
     = transclusionsOf text
  /\ (newTaxon <> None ->
      EditForest.updatedContent (EditForest.updatedContent text newTaxon newTitle)
                                newTaxon newTitle
      = EditForest.updatedContent text newTaxon newTitle).
Proof.
  intros HT HtT Htx Hold. unfold EditForest.updatedContent.
  set (lines := Js.split_newline text) in *.
  set (r := EditForest.updateLines lines newTaxon newTitle).
  destruct (updateLines_rest lines newTaxon newTitle) as (Hrest & Hin & _).
  fold r in Hrest, Hin.
  assert (Hlines : forall l, In l lines -> lacks Js.newline l).
  { intros l Hl. apply (splitLines_lack text EmptyString l); [|exact Hl].
    unfold lacks. cbn. tauto. }
  assert (Hbrace : forall a b x, lacks Js.newline a -> lacks Js.newline b ->
                                 lacks Js.newline x -> lacks Js.newline (a ++ x ++ b)%string).
  { intros a b x Ha Hb Hx. apply lacks_app. split; [assumption|].
    apply lacks_app. split; assumption. }
  assert (Hclose : lacks Js.newline "}").
  { unfold lacks. cbn. intros [H | []]. discriminate H. }
  assert (Hr : forall l, In l r -> lacks Js.newline l).
  { intros l Hl. destruct (in_updateLines _ _ _ _ Hl) as [-> | [(t & Ht & ->) | Hl']].
    - apply Hbrace; [|assumption|assumption].
      unfold lacks. vm_compute. intuition discriminate.
    - apply Hbrace; [|assumption|exact (proj1 (Htx t Ht))].
      unfold lacks. vm_compute. intuition discriminate.
    - now apply Hlines. }
  assert (Hne : r <> []) by (intros E; rewrite E in Hin; destruct Hin).
  pose proof (split_join r Hne Hr) as Hsplit.
  split; [exact Hsplit|]. split.
  - unfold transclusionsOf. rewrite Hsplit. fold lines.
    change (flat_map lineTargets r = flat_map lineTargets lines).
    rewrite (flat_map_filter lineTargets isOtherLine r).
    + rewrite Hrest. symmetry. apply flat_map_filter. exact Hold.
    + intros x Hx Ho. destruct (in_updateLines _ _ _ _ Hx) as [-> | [(t & Ht & ->) | Hx']].
      * assumption.
      * exact (proj2 (Htx t Ht)).
      * now apply Hold.
  - intro Hsome. destruct newTaxon as [t|]; [|contradiction]. rewrite Hsplit.
    destruct (updateLines_last lines t newTitle) as (i & j & Hi & Hj).
    fold r in Hi, Hj. now rewrite (updateLines_fixed r t newTitle i j Hi Hj).
Qed.

Lemma rename_keeps_transclusions_witness :
  transclusionsOf (EditForest.updatedContent
                     ("\title{Old}" ++ String Js.newline "\transclude{a}")
                     (Some "theorem") "New")
  = transclusionsOf ("\title{Old}" ++ String Js.newline "\transclude{a}").
Proof.
  apply (rename_keeps_transclusions
           ("\title{Old}" ++ String Js.newline "\transclude{a}") (Some "theorem") "New").
  - unfold lacks. vm_compute. intuition discriminate.
  - reflexivity.
  - intros t [= <-]. split; [|reflexivity].
    unfold lacks. vm_compute. intuition discriminate.
  - intros line Hl Ho. vm_compute in Hl.
    destruct Hl as [<- | [<- | []]]; [reflexivity | discriminate Ho].
Defined.

(** ** findTranscludeReferenceAtCursor *)

Lemma lastIndexOf_app (c : ascii) (p s : string) (k : nat) :
  Js.lastIndexOf c s = Some k ->
  Js.lastIndexOf c (p ++ s)%string = Some (String.length p + k).
Proof.
  intro H. induction p as [|a p IH]; cbn [String.append String.length Nat.add Js.lastIndexOf];
    [assumption|]. now rewrite IH.
Qed.

Lemma lastIndexOf_closing (id rest : string) :
  Js.lastIndexOf closing rest = None ->
  Js.lastIndexOf closing (id ++ String closing rest)%string = Some (String.length id).
Proof.
  intro H. rewrite <- (Nat.add_0_r (String.length id)). apply lastIndexOf_app.
  cbn [Js.lastIndexOf]. rewrite H. now rewrite Ascii.eqb_refl.
Qed.

Lemma execCommand_some (command s match0 id : string) :
  EditForest.execCommand command s = Some (match0, id) ->
  match0 = referenceOf command id ""
  /\ id <> "" /\ lacks closing id
  /\ exists rest, s = referenceOf command id rest.
Proof.
  unfold EditForest.execCommand. intro H.
  destruct (Js.startsWith command s) eqn:Hs; [|discriminate].
  apply startsWith_split in Hs.
  destruct (spanId (dropChars (String.length command) s)) as [i0 rest0] eqn:Hsp.
  destruct (spanId_split _ _ _ Hsp) as [Hd [Hl Hr]].
  destruct i0 as [|a i0]; [discriminate|].
  destruct rest0 as [|b rest0]; [discriminate|].
  inversion H; subst match0 id; clear H.
  destruct Hr as [Hr | [r Hr]]; [discriminate|]. inversion Hr; subst b r.
  split; [reflexivity|]. split; [discriminate|]. split; [assumption|].
  exists rest0. rewrite Hs at 1. unfold referenceOf. now rewrite Hd.
Qed.

Lemma execAny_some (s match0 id : string) :
  EditForest.execAny EditForest.referenceCommands s = Some (match0, id) ->
  exists command rest,
    In command EditForest.referenceCommands
    /\ match0 = referenceOf command id ""
    /\ id <> "" /\ lacks closing id
    /\ s = referenceOf command id rest.
Proof.
  unfold EditForest.referenceCommands. cbn [EditForest.execAny]. intro H.
  repeat match type of H with
         | match EditForest.execCommand ?c s with _ => _ end = _ =>
             let E := fresh "E" in
             destruct (EditForest.execCommand c s) as [[m i]|] eqn:E;
               [inversion H; subst m i; clear H;
                destruct (execCommand_some _ _ _ _ E) as (Hm & Hne & Hl & rest & Hs);
                exists c, rest; cbn [In]; auto 10|]
         end.
  discriminate.
Qed.

(** where the braces of a match stand *)
Lemma insideBraces_reference (command id : string) (index character : nat) :
  In command EditForest.referenceCommands -> lacks closing id ->
  EditForest.insideBraces index (referenceOf command id "") character = true
  <-> index + String.length command <= character
      /\ character <= index + String.length command + String.length id.
Proof.
  intros Hc Hl. unfold EditForest.insideBraces, referenceOf.
  assert (Hlast : Js.lastIndexOf closing (command ++ id ++ String closing "")
                  = Some (String.length command + String.length id)).
  { apply lastIndexOf_app. now apply lastIndexOf_closing. }
  unfold closing in *.
  rewrite Hlast.
  assert (Hopen : Js.indexOf "{" (command ++ id ++ String "}" "")
                  = Some (String.length command - 1)).
  { cbn in Hc. destruct Hc as [<- | [<- | [<- | []]]]; reflexivity. }
  rewrite Hopen.
  assert (Hpos : 0 < String.length command).
  { cbn in Hc. destruct Hc as [<- | [<- | [<- | []]]]; cbn; lia. }
  rewrite andb_true_iff, !Nat.ltb_lt. lia.
Qed.

Lemma execLoop_sound (s : string) : forall skip index character id,
  EditForest.execLoop skip index s character = Some id ->
  exists pre command post,
    In command EditForest.referenceCommands
    /\ s = (pre ++ referenceOf command id post)%string
    /\ id <> "" /\ lacks closing id
    /\ index + String.length pre + String.length command <= character
    /\ character <= index + String.length pre + String.length command + String.length id.
Proof.
  induction s as [|a s IH]; intros skip index character id H;
    cbn [EditForest.execLoop] in H; [discriminate|].
  assert (Hnext : forall skip', EditForest.execLoop skip' (S index) s character = Some id ->
            exists pre command post,
              In command EditForest.referenceCommands
              /\ String a s = (pre ++ referenceOf command id post)%string
              /\ id <> "" /\ lacks closing id
              /\ index + String.length pre + String.length command <= character
              /\ character <= index + String.length pre + String.length command
                              + String.length id).
  { intros skip' H'. destruct (IH _ _ _ _ H') as (pre & c & post & Hc & Hs & Hne & Hl & H1 & H2).
    exists (String a pre), c, post. cbn [String.length String.append].
    repeat split; try assumption; [now rewrite Hs | lia | lia]. }
  destruct skip as [|k]; [|now apply (Hnext k)].
  destruct (EditForest.execAny EditForest.referenceCommands (String a s))
    as [[match0 treeId]|] eqn:E; [|now apply (Hnext 0)].
  destruct (EditForest.insideBraces index match0 character) eqn:Hin;
    [|now apply (Hnext (String.length match0 - 1))].
  inversion H; subst treeId; clear H.
  destruct (execAny_some _ _ _ E) as (c & rest & Hc & Hm & Hne & Hl & Hs).
  subst match0. apply (insideBraces_reference c id index character Hc Hl) in Hin.
  exists "", c, rest. cbn [String.length String.append]. rewrite Nat.add_0_r. auto 10.
Qed.

(** X27.  [findTranscludeReferenceAtCursor] answers only with what the
    cursor is in: when it returns an id, the line holds a transclude,
    import or export command with that id in braces, the id is not empty
    and holds no closing brace, and the cursor stands between the braces,
    right after the opening one at the earliest and right before the
    closing one at the latest. *)
Theorem findTranscludeReferenceAtCursor_sound (line : string) (character : nat)
  (treeId : string) :
  EditForest.findTranscludeReferenceAtCursor line character = Some treeId ->
  exists pre command post,
    In command EditForest.referenceCommands
    /\ line = (pre ++ referenceOf command treeId post)%string
    /\ treeId <> "" /\ lacks closing treeId
    /\ String.length pre + String.length command <= character
    /\ character <= String.length pre + String.length command + String.length treeId.
Proof.
  intro H. exact (execLoop_sound line 0 0 character treeId H).
Qed.

Lemma findTranscludeReferenceAtCursor_sound_witness :
  exists pre command post,
    In command EditForest.referenceCommands
    /\ "see \import{x1}." = (pre ++ referenceOf command "x1" post)%string
    /\ "x1" <> "" /\ lacks closing "x1"
    /\ String.length pre + String.length command <= 13
    /\ 13 <= String.length pre + String.length command + String.length "x1".
Proof.
  exact (findTranscludeReferenceAtCursor_sound "see \import{x1}." 13 "x1" eq_refl).
Defined.

Lemma execAny_other (c : ascii) (s : string) :
  c <> backslash -> EditForest.execAny EditForest.referenceCommands (String c s) = None.
Proof.
  intro Hc.
  assert (E : Ascii.eqb backslash c = false) by (apply Ascii.eqb_neq; congruence).
  unfold backslash in E.
  unfold EditForest.referenceCommands, EditForest.execAny, EditForest.execCommand.
  cbn [Js.startsWith]. now rewrite E.
Qed.

Lemma execLoop_text (sep rest : string) (character : nat) : forall index,
  lacks backslash sep ->
  EditForest.execLoop 0 index (sep ++ rest) character
  = EditForest.execLoop 0 (index + String.length sep) rest character.
Proof.
  induction sep as [|c sep IH]; intros index Hl; cbn [String.append String.length].
  - now rewrite Nat.add_0_r.
  - apply lacks_cons in Hl. destruct Hl as [Hc Hl].
    cbn [EditForest.execLoop]. rewrite (execAny_other c _ Hc), (IH _ Hl).
    f_equal. lia.
Qed.

Lemma execLoop_skip (m rest : string) (character : nat) : forall index,
  EditForest.execLoop (String.length m) index (m ++ rest) character
  = EditForest.execLoop 0 (index + String.length m) rest character.
Proof.
  induction m as [|a m IH]; intro index; cbn [String.append String.length].
  - rewrite Nat.add_0_r. now destruct rest.
  - cbn [EditForest.execLoop]. rewrite IH. f_equal. lia.
Qed.

Lemma execCommand_reference (command id rest : string) :
  id <> "" -> lacks closing id ->
  EditForest.execCommand command (referenceOf command id rest)
  = Some (referenceOf command id "", id).
Proof.
  intros Hne Hl. unfold EditForest.execCommand, referenceOf.
  rewrite startsWith_app, dropChars_app, (spanId_app id rest Hl).
  destruct id; [contradiction | reflexivity].
Qed.

Lemma execAny_reference (command id rest : string) :
  In command EditForest.referenceCommands -> id <> "" -> lacks closing id ->
  EditForest.execAny EditForest.referenceCommands (referenceOf command id rest)
  = Some (referenceOf command id "", id).
Proof.
  intros Hc Hne Hl. pose proof (execCommand_reference command id rest Hne Hl) as H.
  cbn in Hc. destruct Hc as [<- | [<- | [<- | []]]];
    unfold EditForest.referenceCommands; cbn [EditForest.execAny].
  - now rewrite H.
  - change (EditForest.execCommand "\transclude{" (referenceOf "\import{" id rest))
      with (@None (string * string)). now rewrite H.
  - change (EditForest.execCommand "\transclude{" (referenceOf "\export{" id rest))
      with (@None (string * string)).
    change (EditForest.execCommand "\import{" (referenceOf "\export{" id rest))
      with (@None (string * string)). now rewrite H.
Qed.

(** one reference and the text before it *)
Lemma execLoop_reference (sep command id rest : string) (index character : nat) :
  lacks backslash sep ->
  In command EditForest.referenceCommands -> id <> "" -> lacks closing id ->
  EditForest.execLoop 0 index (sep ++ referenceOf command id rest) character
  = if EditForest.insideBraces (index + String.length sep) (referenceOf command id "")
                               character
    then Some id
    else EditForest.execLoop 0
           (index + String.length sep + String.length (referenceOf command id ""))
           rest character.
Proof.
  intros Hs Hc Hne Hl. rewrite (execLoop_text sep _ character index Hs).
  pose proof (execAny_reference command id rest Hc Hne Hl) as Hm.
  assert (Hshape : exists a m, referenceOf command id "" = String a m
                               /\ referenceOf command id rest = String a (m ++ rest)).
  { destruct command as [|a c'].
    - cbn in Hc. destruct Hc as [E | [E | [E | []]]]; discriminate E.
    - exists a, (c' ++ id ++ String closing "")%string. split; [reflexivity|].
      unfold referenceOf. cbn [String.append]. f_equal.
      rewrite !string_app_assoc. reflexivity. }
  destruct Hshape as (a & m & H0 & Hr). rewrite Hr in *. rewrite H0 in *.
  cbn [EditForest.execLoop]. rewrite Hm.
  destruct (EditForest.insideBraces _ _ _); [reflexivity|].
  cbn [String.length Nat.sub]. rewrite Nat.sub_0_r, execLoop_skip. f_equal. lia.
Qed.

Lemma length_referenceOf (command id rest : string) :
  String.length (referenceOf command id rest)
  = String.length command + String.length id + 1 + String.length rest.
Proof.
  unfold referenceOf. rewrite !string_length_app. cbn [String.length]. lia.
Qed.

Lemma execLoop_references (before : list (string * string * string))
  (sep command id rest : string) (character : nat) :
  (forall s c i, In (s, c, i) before ->
     lacks backslash s /\ In c EditForest.referenceCommands /\ i <> "" /\ lacks closing i) ->
  lacks backslash sep ->
  In command EditForest.referenceCommands -> id <> "" -> lacks closing id ->
  forall index,
    index + String.length (references before sep) + String.length command <= character ->
    character <= index + String.length (references before sep) + String.length command
                 + String.length id ->
    EditForest.execLoop 0 index (references before (sep ++ referenceOf command id rest))
                        character
    = Some id.
Proof.
  intros Hb Hs Hc Hne Hl.
  induction before as [|[[s1 c1] i1] before IH]; intros index H1 H2; cbn [references] in *.
  - rewrite (execLoop_reference sep command id rest index character Hs Hc Hne Hl).
    assert (EditForest.insideBraces (index + String.length sep) (referenceOf command id "")
                                    character = true) as ->; [|reflexivity].
    apply insideBraces_reference; [assumption | assumption | lia].
  - destruct (Hb s1 c1 i1 (or_introl eq_refl)) as (Hs1 & Hc1 & Hne1 & Hl1).
    rewrite string_length_app, length_referenceOf in H1, H2.
    rewrite (execLoop_reference s1 c1 i1 _ index character Hs1 Hc1 Hne1 Hl1).
    destruct (EditForest.insideBraces (index + String.length s1) (referenceOf c1 i1 "")
                                      character) eqn:Hin.
    + apply (insideBraces_reference c1 i1 _ character Hc1 Hl1) in Hin. lia.
    + apply IH.
      * intros s c i Hin'. apply Hb. now right.
      * rewrite length_referenceOf. cbn [String.length]. lia.
      * rewrite length_referenceOf. cbn [String.length]. lia.
Qed.

(** X28.  The cursor inside the braces of a reference finds it: on a line
    of transclude, import and export commands separated by text without
    backslash, with the cursor anywhere from right after the opening brace
    to right before the closing brace of one of them, the id of that one is
    returned, whatever follows it on the line. *)
Theorem findTranscludeReferenceAtCursor_finds (before : list (string * string * string))
  (sep command treeId rest : string) (character : nat) :
  (forall s c i, In (s, c, i) before ->
     lacks backslash s /\ In c EditForest.referenceCommands /\ i <> "" /\ lacks closing i) ->
  lacks backslash sep ->
  In command EditForest.referenceCommands -> treeId <> "" -> lacks closing treeId ->
  String.length (references before sep) + String.length command <= character ->
  character <= String.length (references before sep) + String.length command
               + String.length treeId ->
  EditForest.findTranscludeReferenceAtCursor
    (references before (sep ++ referenceOf command treeId rest)) character
  = Some treeId.
Proof.
  intros Hb Hs Hc Hne Hl H1 H2.
  exact (execLoop_references before sep command treeId rest character Hb Hs Hc Hne Hl
           0 H1 H2).
Qed.

Lemma findTranscludeReferenceAtCursor_finds_witness :
  EditForest.findTranscludeReferenceAtCursor
    "ab \import{x1} \transclude{yy} \export{z}" 28
  = Some "yy".
Proof.
  apply (findTranscludeReferenceAtCursor_finds [("ab ", "\import{", "x1")]
           " " "\transclude{" "yy" " \export{z}" 28).
  - intros s c i [E | []]. inversion E; subst.
    repeat split; try discriminate; [| cbn; tauto |];
      unfold lacks; vm_compute; intuition discriminate.
  - unfold lacks. vm_compute. intuition discriminate.
  - cbn. tauto.
  - discriminate.
  - unfold lacks. vm_compute. intuition discriminate.
  - vm_compute. lia.
  - vm_compute. lia.
Defined.
